(** * SnapshotStreamWriter: a shallow embedding of
      tensorflow/core/data/service/snapshot/snapshot_stream_writer.cc

    The writer drains a dataset iterator into chunk files.  The C++ object
    is a record of member variables; every member function is a computation
    in a state monad over that record.  The collaborators the file only calls
    (Env, TFRecordWriter, TaskIterator, the mutex) are scripted: each call
    consumes the next outcome of a script carried by the state and appends an
    event to a history, so that statements about the order of calls can be
    made on the history.

    The two while loops take fuel; a run that is out of fuel ends with [None]
    and the state reached, so that what holds for every fuel holds at every
    loop boundary of every run, also of one that does not end.  The int64_t
    counter chunk_size_bytes_ is an integer of Z kept in the range of an
    int64_t: the addition of WriteRecord wraps around, as the compiled code
    does, see [wrap_int64].  The counter chunk_index_ is an integer of Z: it
    goes up by one for each chunk file that is committed, and 2^63 files are
    out of the reach of a run.  The thread started by the constructor is
    run to its end where Wait joins it; a Cancel() of another thread takes
    effect at an acquisition of the mutex, which is where the thread can see
    it. *)

From Stdlib Require Import String ZArith List Bool Lia Arith.
Import ListNotations.
Local Open Scope Z_scope.

(** ** Status *)

(** Modelled from the spec: tsl::Status (status.h, not in src), ok or an
    error code with a message.  The non-OK codes of tsl::error::Code. *)
Inductive Code :=
| CANCELLED | UNKNOWN | INVALID_ARGUMENT | DEADLINE_EXCEEDED | NOT_FOUND
| ALREADY_EXISTS | PERMISSION_DENIED | RESOURCE_EXHAUSTED
| FAILED_PRECONDITION | ABORTED | OUT_OF_RANGE | UNIMPLEMENTED | INTERNAL
| UNAVAILABLE | DATA_LOSS | UNAUTHENTICATED.

Inductive Status :=
| OkStatus
| Error (code : Code) (message : string).

Definition ok (s : Status) : bool :=
  match s with OkStatus => true | Error _ _ => false end.

Definition errors_Cancelled (message : string) : Status := Error CANCELLED message.

(** ** Elements, paths, collaborators *)

(** Modelled from the spec: an element (std::vector<Tensor>) is opaque to the
    writer; EstimatedSizeBytes (utils.h, not in src) is the only thing the
    writer observes of it, "an estimated in-memory byte size": an int64_t
    that is not negative, which is [estimated_bytes] taken in the range from
    0 to 2^63 - 1.  [payload] tells elements apart. *)
Record Element := { payload : nat; estimated_bytes : Z }.

Definition EstimatedSizeBytes (element : Element) : Z :=
  estimated_bytes element mod 2 ^ 63.

Arguments EstimatedSizeBytes : simpl never.

(** What an int64_t holds after an addition whose exact result is [z]: the
    two's complement value that the compiled code computes. *)
Definition wrap_int64 (z : Z) : Z := (z + 2 ^ 63) mod 2 ^ 64 - 2 ^ 63.

Arguments wrap_int64 : simpl never.

(** Modelled from the spec: TaskIterator::GetNext (not in src) returns a
    status and fills [element] and [end_of_sequence]. *)
Inductive GetNextResult :=
| Produced (element : Element)
| EndOfSequence
| GetNextError (code : Code) (message : string).

(** Modelled from the spec: path_utils.h (not in src) names the two
    directories; a chunk file is [chunk_<index>] inside one of them, so a path
    is a directory and the index in the base name. *)
Inductive Dir := UncommittedChunksDirectory | CommittedChunksDirectory.

Record Path := JoinPath { Dirname : Dir; Basename : Z }.

Definition Dir_eqb (a b : Dir) : bool :=
  match a, b with
  | UncommittedChunksDirectory, UncommittedChunksDirectory => true
  | CommittedChunksDirectory, CommittedChunksDirectory => true
  | _, _ => false
  end.

Definition Path_eqb (p q : Path) : bool :=
  Dir_eqb (Dirname p) (Dirname q) && Z.eqb (Basename p) (Basename q).

(** Modelled from the spec: snapshot_util::TFRecordWriter (snapshot_utils.h,
    not in src), the sink of one chunk file; it is identified by the path it
    was constructed with. *)
Definition TFRecordWriter := Path.

(** Where a [writer.Close()] call is written in the source: in WriteRecord
    (its status is returned) or in the gtl::MakeCleanup of WriteChunk (its
    status is dropped by IgnoreError). *)
Inductive CloseSite := InWriteRecord | InCleanup.

(** ** History of calls *)

Inductive Event :=
| EvLock
| EvUnlock
| EvCancel
| EvRecursivelyCreateDir (d : Dir) (r : Status)
| EvInitialize (writer : TFRecordWriter) (r : Status)
| EvGetNext (r : GetNextResult)
| EvWriteTensors (writer : TFRecordWriter) (element : Element) (r : Status)
| EvClose (site : CloseSite) (writer : TFRecordWriter) (r : Status)
| EvRenameFile (src dst : Path) (r : Status).

(** ** The object *)

(** The member variables of SnapshotStreamWriter, followed by the scripts of
    the collaborators.  [env_] holds the outcomes of the file operations still
    to come (none left: the operation succeeds); [iterator_] the outcomes of
    the GetNext calls still to come (none left: end of sequence);
    [other_threads] says, for each acquisition of [mu_] still to come, whether
    a Cancel() from another thread got the mutex just before it.  [trace] is
    the history, newest event first. *)
Record SnapshotStreamWriter := {
  env_ : list Status;
  max_chunk_size_bytes_ : Z;
  iterator_ : list GetNextResult;
  snapshot_thread_ : bool;
  status_ : Status;
  end_of_sequence_ : bool;
  chunk_index_ : Z;
  chunk_size_bytes_ : Z;
  other_threads : list bool;
  trace : list Event
}.

Definition set_env (x : list Status) (w : SnapshotStreamWriter) :=
  {| env_ := x; max_chunk_size_bytes_ := max_chunk_size_bytes_ w;
     iterator_ := iterator_ w; snapshot_thread_ := snapshot_thread_ w;
     status_ := status_ w; end_of_sequence_ := end_of_sequence_ w;
     chunk_index_ := chunk_index_ w; chunk_size_bytes_ := chunk_size_bytes_ w;
     other_threads := other_threads w; trace := trace w |}.

Definition set_iterator (x : list GetNextResult) (w : SnapshotStreamWriter) :=
  {| env_ := env_ w; max_chunk_size_bytes_ := max_chunk_size_bytes_ w;
     iterator_ := x; snapshot_thread_ := snapshot_thread_ w;
     status_ := status_ w; end_of_sequence_ := end_of_sequence_ w;
     chunk_index_ := chunk_index_ w; chunk_size_bytes_ := chunk_size_bytes_ w;
     other_threads := other_threads w; trace := trace w |}.

Definition set_snapshot_thread (x : bool) (w : SnapshotStreamWriter) :=
  {| env_ := env_ w; max_chunk_size_bytes_ := max_chunk_size_bytes_ w;
     iterator_ := iterator_ w; snapshot_thread_ := x;
     status_ := status_ w; end_of_sequence_ := end_of_sequence_ w;
     chunk_index_ := chunk_index_ w; chunk_size_bytes_ := chunk_size_bytes_ w;
     other_threads := other_threads w; trace := trace w |}.

Definition set_status (x : Status) (w : SnapshotStreamWriter) :=
  {| env_ := env_ w; max_chunk_size_bytes_ := max_chunk_size_bytes_ w;
     iterator_ := iterator_ w; snapshot_thread_ := snapshot_thread_ w;
     status_ := x; end_of_sequence_ := end_of_sequence_ w;
     chunk_index_ := chunk_index_ w; chunk_size_bytes_ := chunk_size_bytes_ w;
     other_threads := other_threads w; trace := trace w |}.

Definition set_end_of_sequence (x : bool) (w : SnapshotStreamWriter) :=
  {| env_ := env_ w; max_chunk_size_bytes_ := max_chunk_size_bytes_ w;
     iterator_ := iterator_ w; snapshot_thread_ := snapshot_thread_ w;
     status_ := status_ w; end_of_sequence_ := x;
     chunk_index_ := chunk_index_ w; chunk_size_bytes_ := chunk_size_bytes_ w;
     other_threads := other_threads w; trace := trace w |}.

Definition set_chunk_index (x : Z) (w : SnapshotStreamWriter) :=
  {| env_ := env_ w; max_chunk_size_bytes_ := max_chunk_size_bytes_ w;
     iterator_ := iterator_ w; snapshot_thread_ := snapshot_thread_ w;
     status_ := status_ w; end_of_sequence_ := end_of_sequence_ w;
     chunk_index_ := x; chunk_size_bytes_ := chunk_size_bytes_ w;
     other_threads := other_threads w; trace := trace w |}.

Definition set_chunk_size_bytes (x : Z) (w : SnapshotStreamWriter) :=
  {| env_ := env_ w; max_chunk_size_bytes_ := max_chunk_size_bytes_ w;
     iterator_ := iterator_ w; snapshot_thread_ := snapshot_thread_ w;
     status_ := status_ w; end_of_sequence_ := end_of_sequence_ w;
     chunk_index_ := chunk_index_ w; chunk_size_bytes_ := x;
     other_threads := other_threads w; trace := trace w |}.

Definition set_other_threads (x : list bool) (w : SnapshotStreamWriter) :=
  {| env_ := env_ w; max_chunk_size_bytes_ := max_chunk_size_bytes_ w;
     iterator_ := iterator_ w; snapshot_thread_ := snapshot_thread_ w;
     status_ := status_ w; end_of_sequence_ := end_of_sequence_ w;
     chunk_index_ := chunk_index_ w; chunk_size_bytes_ := chunk_size_bytes_ w;
     other_threads := x; trace := trace w |}.

Definition set_trace (x : list Event) (w : SnapshotStreamWriter) :=
  {| env_ := env_ w; max_chunk_size_bytes_ := max_chunk_size_bytes_ w;
     iterator_ := iterator_ w; snapshot_thread_ := snapshot_thread_ w;
     status_ := status_ w; end_of_sequence_ := end_of_sequence_ w;
     chunk_index_ := chunk_index_ w; chunk_size_bytes_ := chunk_size_bytes_ w;
     other_threads := other_threads w; trace := x |}.

(** ** The monad of member functions *)

Definition M (A : Type) : Type := SnapshotStreamWriter -> A * SnapshotStreamWriter.

Definition ret {A} (a : A) : M A := fun w => (a, w).

Definition bind {A B} (m : M A) (k : A -> M B) : M B :=
  fun w => let (a, w1) := m w in k a w1.

Notation "x <- m ;; k" := (bind m (fun x => k))
  (at level 61, m at next level, right associativity).
Notation "m ;; k" := (bind m (fun _ => k))
  (at level 61, right associativity).

Definition read {A} (field : SnapshotStreamWriter -> A) : M A :=
  fun w => (field w, w).

Definition assign (update : SnapshotStreamWriter -> SnapshotStreamWriter) : M unit :=
  fun w => (tt, update w).

Definition record (ev : Event) : M unit :=
  assign (fun w => set_trace (ev :: trace w) w).

(** ** The collaborators *)

Definition kCancelled : string :=
  "The tf.data service snapshot writer has been cancelled."%string.

(** Modelled from the spec: what a Cancel() of another thread does to the
    object, when it gets [mu_] before the next acquisition by the caller. *)
Definition interference : M unit :=
  fun w =>
    let w1 := set_other_threads (tl (other_threads w)) w in
    if hd false (other_threads w)
    then (tt, set_trace (EvCancel :: trace w1)
                (set_status (errors_Cancelled kCancelled) w1))
    else (tt, w1).

(** [mutex_lock l(mu_)] and the end of its scope. *)
Definition mutex_lock : M unit := interference ;; record EvLock.
Definition mutex_unlock : M unit := record EvUnlock.

(** Modelled from the spec: a call to Env or to TFRecordWriter (neither in
    src).  Its outcome is the next one of [env_]. *)
Definition file_operation (ev : Status -> Event) : M Status :=
  fun w =>
    let r := hd OkStatus (env_ w) in
    (r, set_trace (ev r :: trace w) (set_env (tl (env_ w)) w)).

Definition RecursivelyCreateDir (d : Dir) : M Status :=
  file_operation (EvRecursivelyCreateDir d).
Definition RenameFile (src dst : Path) : M Status :=
  file_operation (EvRenameFile src dst).
Definition Initialize (writer : TFRecordWriter) : M Status :=
  file_operation (EvInitialize writer).
Definition WriteTensors (writer : TFRecordWriter) (element : Element) : M Status :=
  file_operation (EvWriteTensors writer element).
Definition Close (site : CloseSite) (writer : TFRecordWriter) : M Status :=
  file_operation (EvClose site writer).

(** Modelled from the spec: a call to TaskIterator::GetNext (not in src).
    Its outcome is the next one of [iterator_]. *)
Definition GetNext : M GetNextResult :=
  fun w =>
    let r := hd EndOfSequence (iterator_ w) in
    (r, set_trace (EvGetNext r :: trace w) (set_iterator (tl (iterator_ w)) w)).

(** ** The member functions *)

(** constexpr int64_t kDefaultMaxChunkSizeBytes = 10 * (size_t{1} << 30) *)
Definition kDefaultMaxChunkSizeBytes : Z := 10 * Z.shiftl 1 30.

(** The constructor, lines 45-55, up to the start of the thread.  Modelled
    from the spec: the member initialisers of the header (not in src), status
    ok, end_of_sequence false, chunk_index 0, chunk_size_bytes 0. *)
Definition new_SnapshotStreamWriter
    (iterator : list GetNextResult) (env : list Status)
    (max_chunk_size_bytes : option Z) (others : list bool)
  : SnapshotStreamWriter :=
  {| env_ := env;
     max_chunk_size_bytes_ :=
       match max_chunk_size_bytes with
       | Some m => m
       | None => kDefaultMaxChunkSizeBytes
       end;
     iterator_ := iterator;
     snapshot_thread_ := true;
     status_ := OkStatus;
     end_of_sequence_ := false;
     chunk_index_ := 0;
     chunk_size_bytes_ := 0;
     other_threads := others;
     trace := [] |}.

(** SnapshotStreamWriter::status, lines 160-163. *)
Definition status : M Status :=
  mutex_lock ;;
  s <- read status_ ;;
  mutex_unlock ;;
  ret s.

(** SnapshotStreamWriter::Cancel, lines 154-158: the status is assigned,
    whatever it was. *)
Definition Cancel : M unit :=
  mutex_lock ;;
  assign (set_status (errors_Cancelled kCancelled)) ;;
  mutex_unlock.

(** SnapshotStreamWriter::CreateChunksDirectory, lines 84-87. *)
Definition CreateChunksDirectory : M Status :=
  RecursivelyCreateDir UncommittedChunksDirectory.

(** SnapshotStreamWriter::ShouldWriteChunk, lines 89-92. *)
Definition ShouldWriteChunk : M bool :=
  mutex_lock ;;
  eos <- read end_of_sequence_ ;;
  s <- read status_ ;;
  mutex_unlock ;;
  ret (negb eos && ok s).

(** SnapshotStreamWriter::ShouldWriteRecord, lines 130-134. *)
Definition ShouldWriteRecord : M bool :=
  mutex_lock ;;
  size <- read chunk_size_bytes_ ;;
  cap <- read max_chunk_size_bytes_ ;;
  eos <- read end_of_sequence_ ;;
  s <- read status_ ;;
  mutex_unlock ;;
  ret ((size <? cap) && negb eos && ok s).

(** SnapshotStreamWriter::GetChunkFilePath, lines 108-114. *)
Definition GetChunkFilePath : M Path :=
  mutex_lock ;;
  index <- read chunk_index_ ;;
  mutex_unlock ;;
  ret (JoinPath UncommittedChunksDirectory index).

(** SnapshotStreamWriter::CommitChunk, lines 116-128: the rename first, then,
    when it succeeded, the counters under the lock. *)
Definition CommitChunk (chunk_file_path : Path) : M Status :=
  let chunk_basename := Basename chunk_file_path in
  let committed_chunk_filename := JoinPath CommittedChunksDirectory chunk_basename in
  r <- RenameFile chunk_file_path committed_chunk_filename ;;
  if ok r then
    mutex_lock ;;
    assign (fun w => set_chunk_index (chunk_index_ w + 1) w) ;;
    assign (set_chunk_size_bytes 0) ;;
    mutex_unlock ;;
    ret OkStatus
  else ret r.

(** SnapshotStreamWriter::WriteRecord, lines 136-152.  GetNext is called in
    the scope of the first lock, which a failure leaves as well; at the end of
    the sequence the status of Close is returned.  [chunk_size_bytes_ +=] is
    an addition of int64_t. *)
Definition WriteRecord (writer : TFRecordWriter) : M Status :=
  mutex_lock ;;
  r <- GetNext ;;
  match r with
  | GetNextError code message =>
      mutex_unlock ;;
      ret (Error code message)
  | EndOfSequence =>
      assign (set_end_of_sequence true) ;;
      mutex_unlock ;;
      Close InWriteRecord writer
  | Produced element =>
      assign (set_end_of_sequence false) ;;
      mutex_unlock ;;
      s <- WriteTensors writer element ;;
      if ok s then
        mutex_lock ;;
        assign (fun w => set_chunk_size_bytes
                           (wrap_int64 (chunk_size_bytes_ w
                                        + EstimatedSizeBytes element)) w) ;;
        mutex_unlock ;;
        ret OkStatus
      else ret s
  end.

(** [while (ShouldWriteRecord()) TF_RETURN_IF_ERROR(WriteRecord(writer));]
    [Some OkStatus]: the loop was left by its guard; [Some (Error _ _)]: the
    macro returned; [None]: still looping when the fuel ran out. *)
Fixpoint WriteRecords (fuel : nat) (writer : TFRecordWriter) : M (option Status) :=
  match fuel with
  | O => ret None
  | S fuel' =>
      continue <- ShouldWriteRecord ;;
      if continue then
        s <- WriteRecord writer ;;
        if ok s then WriteRecords fuel' writer else ret (Some s)
      else ret (Some OkStatus)
  end.

(** The gtl::MakeCleanup of WriteChunk, run when the scope is left. *)
Definition cleanup (writer : TFRecordWriter) : M unit :=
  _ <- Close InCleanup writer ;;
  ret tt.

(** SnapshotStreamWriter::WriteChunk, lines 94-106.  A failure of Initialize
    returns before the cleanup exists; after that the cleanup runs when the
    function returns, hence after CommitChunk. *)
Definition WriteChunk (fuel : nat) : M (option Status) :=
  chunk_file_path <- GetChunkFilePath ;;
  let writer : TFRecordWriter := chunk_file_path in
  s <- Initialize writer ;;
  if ok s then
    looped <- WriteRecords fuel writer ;;
    match looped with
    | None => ret None
    | Some OkStatus =>
        committed <- CommitChunk chunk_file_path ;;
        cleanup writer ;;
        ret (Some committed)
    | Some failed =>
        cleanup writer ;;
        ret (Some failed)
    end
  else ret (Some s).

(** [while (ShouldWriteChunk()) TF_RETURN_IF_ERROR(WriteChunk());] *)
Fixpoint WriteChunks (fuel : nat) : M (option Status) :=
  match fuel with
  | O => ret None
  | S fuel' =>
      continue <- ShouldWriteChunk ;;
      if continue then
        r <- WriteChunk fuel' ;;
        match r with
        | Some OkStatus => WriteChunks fuel'
        | other => ret other
        end
      else ret (Some OkStatus)
  end.

(** SnapshotStreamWriter::WriteSnapshotFn, lines 76-82. *)
Definition WriteSnapshotFn (fuel : nat) : M (option Status) :=
  s <- CreateChunksDirectory ;;
  if ok s then
    looped <- WriteChunks fuel ;;
    match looped with
    | Some OkStatus => s' <- status ;; ret (Some s')
    | other => ret other
    end
  else ret (Some s).

(** The body of the thread started by RunSnapshotThread, lines 64-70: a
    status that is not ok is assigned to [status_], whatever it was. *)
Definition snapshot_fn (fuel : nat) : M (option unit) :=
  r <- WriteSnapshotFn fuel ;;
  match r with
  | None => ret None
  | Some s =>
      if ok s then ret (Some tt)
      else
        mutex_lock ;;
        assign (set_status s) ;;
        mutex_unlock ;;
        ret (Some tt)
  end.

(** SnapshotStreamWriter::Wait, lines 57-61.  [snapshot_thread_.reset()]
    joins the thread: its body has run to its end when the call returns, and
    the handle is gone thereafter. *)
Definition Wait (fuel : nat) : M (option Status) :=
  running <- read snapshot_thread_ ;;
  joined <- (if running then snapshot_fn fuel else ret (Some tt)) ;;
  match joined with
  | None => ret None
  | Some _ =>
      assign (set_snapshot_thread false) ;;
      mutex_lock ;;
      s <- read status_ ;;
      mutex_unlock ;;
      ret (Some s)
  end.

(** ** Views of the history *)

(** Is [mu_] held by the writer's own thread after the history [tr]? *)
Fixpoint held (tr : list Event) : bool :=
  match tr with
  | [] => false
  | EvLock :: _ => true
  | EvUnlock :: _ => false
  | _ :: tr' => held tr'
  end.

Definition is_file_operation (ev : Event) : bool :=
  match ev with
  | EvRecursivelyCreateDir _ _ | EvInitialize _ _ | EvWriteTensors _ _ _
  | EvClose _ _ _ | EvRenameFile _ _ _ => true
  | _ => false
  end.

Definition is_pull (ev : Event) : bool :=
  match ev with EvGetNext _ => true | _ => false end.

(** No pull and no file operation happens while the lock is held. *)
Fixpoint io_outside_lock (tr : list Event) : bool :=
  match tr with
  | [] => true
  | ev :: tr' =>
      (if is_file_operation ev || is_pull ev then negb (held tr') else true)
      && io_outside_lock tr'
  end.

(** What the source does: the lock is taken when free and released when held,
    file operations run with the lock free, pulls with the lock held. *)
Fixpoint lock_discipline (tr : list Event) : bool :=
  match tr with
  | [] => true
  | ev :: tr' =>
      lock_discipline tr' &&
      match ev with
      | EvUnlock => held tr'
      | EvGetNext _ => held tr'
      | _ => negb (held tr')
      end
  end.

(** The elements the iterator produced, oldest first. *)
Fixpoint pulled (tr : list Event) : list Element :=
  match tr with
  | [] => []
  | EvGetNext (Produced element) :: tr' => pulled tr' ++ [element]
  | _ :: tr' => pulled tr'
  end.

(** The elements appended with success, to any chunk, oldest first. *)
Fixpoint written (tr : list Event) : list Element :=
  match tr with
  | [] => []
  | EvWriteTensors _ element OkStatus :: tr' => written tr' ++ [element]
  | _ :: tr' => written tr'
  end.

(** The content of the chunk file written through the writer of path [p]. *)
Fixpoint chunk_elements (p : Path) (tr : list Event) : list Element :=
  match tr with
  | [] => []
  | EvWriteTensors q element OkStatus :: tr' =>
      if Path_eqb q p then chunk_elements p tr' ++ [element]
      else chunk_elements p tr'
  | _ :: tr' => chunk_elements p tr'
  end.

Definition total_bytes (elements : list Element) : Z :=
  fold_right (fun element acc => EstimatedSizeBytes element + acc) 0 elements.

Definition chunk_bytes (p : Path) (tr : list Event) : Z :=
  total_bytes (chunk_elements p tr).

(** The committed chunks directory: index and content of every chunk that a
    successful rename moved there, in the order of the renames. *)
Fixpoint committed_chunks (tr : list Event) : list (Z * list Element) :=
  match tr with
  | [] => []
  | EvRenameFile src dst OkStatus :: tr' =>
      if Dir_eqb (Dirname dst) CommittedChunksDirectory
      then committed_chunks tr' ++ [(Basename dst, chunk_elements src tr')]
      else committed_chunks tr'
  | _ :: tr' => committed_chunks tr'
  end.

(** [0; 1; ...; n-1] *)
Definition indices (n : Z) : list Z := map Z.of_nat (seq 0 (Z.to_nat n)).

(** Every append, tried or done, went to a chunk of index at most [i]. *)
Fixpoint writes_upto (i : Z) (tr : list Event) : Prop :=
  match tr with
  | [] => True
  | EvWriteTensors p _ _ :: tr' => Basename p <= i /\ writes_upto i tr'
  | _ :: tr' => writes_upto i tr'
  end.

(** Every append, tried or done, found the counter of its chunk below the
    cap: the counter is the size of the content, as an int64_t. *)
Fixpoint writes_below_cap (cap : Z) (tr : list Event) : Prop :=
  match tr with
  | [] => True
  | EvWriteTensors p _ _ :: tr' =>
      wrap_int64 (chunk_bytes p tr') < cap /\ writes_below_cap cap tr'
  | _ :: tr' => writes_below_cap cap tr'
  end.

(** The soft cap on the content of one chunk: every element found the
    counter, the size of what was there before it as an int64_t, below the
    cap. *)
Definition soft_cap (cap : Z) (elements : list Element) : Prop :=
  forall before element after,
    elements = before ++ element :: after ->
    wrap_int64 (total_bytes before) < cap.

Fixpoint eos_seen (tr : list Event) : bool :=
  match tr with
  | [] => false
  | EvGetNext EndOfSequence :: _ => true
  | _ :: tr' => eos_seen tr'
  end.

Fixpoint no_pull_after_eos (tr : list Event) : Prop :=
  match tr with
  | [] => True
  | EvGetNext _ :: tr' => eos_seen tr' = false /\ no_pull_after_eos tr'
  | _ :: tr' => no_pull_after_eos tr'
  end.

(** The status that a TF_RETURN_IF_ERROR of the source hands out at [ev]. *)
Definition failure (ev : Event) : option Status :=
  match ev with
  | EvRecursivelyCreateDir _ r => if ok r then None else Some r
  | EvInitialize _ r => if ok r then None else Some r
  | EvWriteTensors _ _ r => if ok r then None else Some r
  | EvClose InWriteRecord _ r => if ok r then None else Some r
  | EvRenameFile _ _ r => if ok r then None else Some r
  | EvGetNext (GetNextError code message) => Some (Error code message)
  | _ => None
  end.

(** Events that still happen once such a status is on its way out. *)
Definition quiet (ev : Event) : bool :=
  match ev with
  | EvLock | EvUnlock | EvCancel | EvClose InCleanup _ _ => true
  | _ => false
  end.

Fixpoint first_failure (tr : list Event) : option Status :=
  match tr with
  | [] => None
  | ev :: tr' =>
      match first_failure tr' with
      | Some s => Some s
      | None => failure ev
      end
  end.

Fixpoint quiet_after_failure (tr : list Event) : Prop :=
  match tr with
  | [] => True
  | ev :: tr' =>
      (first_failure tr' <> None -> quiet ev = true) /\ quiet_after_failure tr'
  end.

(** Every append, every Close of WriteRecord and every rename is applied to
    a chunk that is not in the committed directory. *)
Fixpoint sink_calls_on_uncommitted (tr : list Event) : Prop :=
  match tr with
  | [] => True
  | ev :: tr' =>
      match ev with
      | EvWriteTensors p _ _ => ~ In (Basename p) (map fst (committed_chunks tr'))
      | EvClose InWriteRecord p _ =>
          ~ In (Basename p) (map fst (committed_chunks tr'))
      | EvRenameFile p _ _ => ~ In (Basename p) (map fst (committed_chunks tr'))
      | _ => True
      end /\ sink_calls_on_uncommitted tr'
  end.

Definition starts_with_cancel (tr : list Event) : bool :=
  match tr with
  | EvCancel :: _ => true
  | _ => false
  end.

Definition current_chunk (w : SnapshotStreamWriter) : Path :=
  JoinPath UncommittedChunksDirectory (chunk_index_ w).

(** ** Weakest preconditions *)

(** [wp m Q w]: running [m] from [w] ends in a result and a state that
    satisfy [Q]. *)
Definition wp {A} (m : M A) (Q : A -> SnapshotStreamWriter -> Prop)
    (w : SnapshotStreamWriter) : Prop :=
  Q (fst (m w)) (snd (m w)).

(** ** The invariant of the object and what a call leaves behind *)

Record Inv (cap : Z) (w : SnapshotStreamWriter) : Prop := {
  inv_max : max_chunk_size_bytes_ w = cap;
  inv_discipline : lock_discipline (trace w) = true;
  inv_free : held (trace w) = false;
  inv_settled : starts_with_cancel (trace w) = false;
  inv_index : 0 <= chunk_index_ w;
  inv_committed :
    map fst (committed_chunks (trace w)) = indices (chunk_index_ w);
  inv_writes : writes_upto (chunk_index_ w) (trace w);
  inv_size :
    chunk_size_bytes_ w = wrap_int64 (chunk_bytes (current_chunk w) (trace w));
  inv_cap : writes_below_cap cap (trace w);
  inv_order :
    concat (map snd (committed_chunks (trace w)))
      ++ chunk_elements (current_chunk w) (trace w) = written (trace w);
  inv_pulled : exists pending, pulled (trace w) = written (trace w) ++ pending;
  inv_eos : no_pull_after_eos (trace w);
  inv_flag : eos_seen (trace w) = true -> end_of_sequence_ w = true;
  inv_quiet : quiet_after_failure (trace w);
  inv_fresh : sink_calls_on_uncommitted (trace w)
}.

(** No status is on its way out, and nothing pulled is left unwritten. *)
Definition Alive (w : SnapshotStreamWriter) : Prop :=
  pulled (trace w) = written (trace w) /\ first_failure (trace w) = None.

(** After a member function returned [s]. *)
Definition returned (s : Status) (w : SnapshotStreamWriter) : Prop :=
  if ok s then Alive w else first_failure (trace w) = Some s.

(** After a loop, or a function around one, ended with [o]. *)
Definition ended (o : option Status) (w : SnapshotStreamWriter) : Prop :=
  match o with
  | None => Alive w
  | Some s => returned s w
  end.

(** Between two chunks: the chunk of the current index has no content. *)
Definition Quiescent (w : SnapshotStreamWriter) : Prop :=
  chunk_elements (current_chunk w) (trace w) = [].

(** After WriteSnapshotFn returned [o]: a failure is what it returned;
    without one it returned what status() read. *)
Definition finished (o : option Status) (w : SnapshotStreamWriter) : Prop :=
  match first_failure (trace w) with
  | Some e => o = Some e
  | None => Alive w /\ (o = None \/ (o = Some (status_ w) /\ Quiescent w))
  end.

(** After the thread body ended with [o]: a failure is stored in [status_]. *)
Definition joined (o : option unit) (w : SnapshotStreamWriter) : Prop :=
  match first_failure (trace w) with
  | Some e => o = Some tt /\ status_ w = e
  | None => Alive w /\ (o = None \/ (o = Some tt /\ Quiescent w))
  end.

(** Did a Cancel() get the mutex just before the last acquisition? *)
Definition cancelled_at_last_lock (tr : list Event) : bool :=
  match tr with
  | EvUnlock :: EvLock :: tr' => starts_with_cancel tr'
  | _ => false
  end.

(** After Wait returned [o]. *)
Definition waited (o : option Status) (w : SnapshotStreamWriter) : Prop :=
  (o = None \/ o = Some (status_ w)) /\
  match first_failure (trace w) with
  | Some e =>
      o = Some (if cancelled_at_last_lock (trace w)
                then errors_Cancelled kCancelled else e)
  | None => Alive w /\ (o = None \/ Quiescent w)
  end.

(** The cap that the constructor sets from its optional argument. *)
Definition cap_of (max_chunk_size_bytes : option Z) : Z :=
  max_chunk_size_bytes_ (new_SnapshotStreamWriter [] [] max_chunk_size_bytes []).

(** ** Scenarios and scripts *)

Definition elem (n : nat) (bytes : Z) : Element :=
  {| payload := n; estimated_bytes := bytes |}.

Definition chunk (index : Z) : Path := JoinPath UncommittedChunksDirectory index.

(** Scenario B of the specification: cap 500, three elements of 300 bytes. *)
Definition three_elements : list GetNextResult :=
  [Produced (elem 1 300); Produced (elem 2 300); Produced (elem 3 300);
   EndOfSequence].

Definition scenario_B : SnapshotStreamWriter :=
  new_SnapshotStreamWriter three_elements [] (Some 500) [].

(** Chunk files created in the uncommitted directory and not renamed away. *)
Fixpoint uncommitted_chunks (tr : list Event) : list Path :=
  match tr with
  | [] => []
  | EvInitialize p OkStatus :: tr' => uncommitted_chunks tr' ++ [p]
  | EvRenameFile src _ OkStatus :: tr' =>
      filter (fun p => negb (Path_eqb p src)) (uncommitted_chunks tr')
  | _ :: tr' => uncommitted_chunks tr'
  end.

(** The status that Cancel() stores. *)
Definition cancelled : Status := errors_Cancelled kCancelled.

(** Scripts of Env for the elements of scenario B: the first WriteTensors
    fails; the Close of the cleanup of chunk 0 fails; the rename of chunk 0
    fails. *)
(** The chunk that a call of the sink or the rename is applied to. *)
Definition chunk_of (ev : Event) : option Path :=
  match ev with
  | EvWriteTensors p _ _ => Some p
  | EvClose InWriteRecord p _ => Some p
  | EvRenameFile p _ _ => Some p
  | _ => None
  end.

Definition append_fails : list Status :=
  [OkStatus; OkStatus; Error DATA_LOSS "append"].

Definition cleanup_close_fails : list Status :=
  [OkStatus; OkStatus; OkStatus; OkStatus; OkStatus; Error DATA_LOSS "close"].

Definition rename_fails : list Status :=
  [OkStatus; OkStatus; OkStatus; OkStatus; Error UNAVAILABLE "rename"].

(** A non-ok status is recorded. *)
Definition Stopped (w : SnapshotStreamWriter) : Prop := ok (status_ w) = false.

(** A Cancel() of another thread that gets the mutex after the first record
    of chunk 0 is written, just before the guard of the record loop. *)
Definition cancel_after_first_record : list bool :=
  [false; false; false; false; false; true].

(** An iterator whose first GetNext fails. *)
Definition read_fails : list GetNextResult := [GetNextError DATA_LOSS "read"].

(** What happened to the chunk file of path [p], oldest first. *)
Fixpoint chunk_history (p : Path) (tr : list Event) : list Event :=
  match tr with
  | [] => []
  | ev :: tr' =>
      let concerned :=
        match ev with
        | EvInitialize q _ => Path_eqb q p
        | EvWriteTensors q _ _ => Path_eqb q p
        | EvClose _ q _ => Path_eqb q p
        | EvRenameFile q _ _ => Path_eqb q p
        | _ => false
        end in
      if concerned then chunk_history p tr' ++ [ev] else chunk_history p tr'
  end.

Definition committed_path (index : Z) : Path :=
  JoinPath CommittedChunksDirectory index.

(** ** Runs without failure and without cancellation *)

(** The events from the report of the end of the sequence to the end of
    WriteChunk, newest first: Close in WriteRecord, the guard of the record
    loop, the rename, the counters under the lock, the Close of the cleanup. *)
Definition end_of_sequence_tail (p : Path) : list Event :=
  [EvClose InCleanup p OkStatus; EvUnlock; EvLock;
   EvRenameFile p (committed_path (Basename p)) OkStatus;
   EvUnlock; EvLock;
   EvClose InWriteRecord p OkStatus; EvUnlock; EvGetNext EndOfSequence].

(** Nothing fails, nobody cancels, the iterator still has [es] to produce
    before the end of the sequence. *)
Definition Draining (cap : Z) (rest : list GetNextResult) (es : list Element)
    (w : SnapshotStreamWriter) : Prop :=
  env_ w = [] /\ other_threads w = [] /\ status_ w = OkStatus /\
  max_chunk_size_bytes_ w = cap /\ end_of_sequence_ w = false /\
  iterator_ w = map Produced es ++ EndOfSequence :: rest.

(** The same, after the end of the sequence. *)
Definition Drained (cap : Z) (rest : list GetNextResult)
    (w : SnapshotStreamWriter) : Prop :=
  env_ w = [] /\ other_threads w = [] /\ status_ w = OkStatus /\
  max_chunk_size_bytes_ w = cap /\ end_of_sequence_ w = true /\
  iterator_ w = rest.

(** ** Further views of the history *)

(** The calls that leave the writer, file operations and pulls, oldest
    first. *)
Fixpoint calls (tr : list Event) : list Event :=
  match tr with
  | [] => []
  | ev :: tr' =>
      if is_file_operation ev || is_pull ev then calls tr' ++ [ev]
      else calls tr'
  end.

(** A cap that lets no record in: nothing fails, nobody cancels, the status
    is ok, the end of the sequence is not reported, and the size of the
    current chunk, 0, is not below the cap. *)
Definition Spinning (w : SnapshotStreamWriter) : Prop :=
  env_ w = [] /\ other_threads w = [] /\ status_ w = OkStatus /\
  end_of_sequence_ w = false /\ chunk_size_bytes_ w = 0 /\
  max_chunk_size_bytes_ w <= 0.

(** ** The life of a chunk file *)

(** The writers on which Initialize was called, oldest first. *)
Fixpoint initialized (tr : list Event) : list Path :=
  match tr with
  | [] => []
  | EvInitialize p _ :: tr' => initialized tr' ++ [p]
  | _ :: tr' => initialized tr'
  end.

(** The writers whose Initialize succeeded, oldest first. *)
Fixpoint opened (tr : list Event) : list Path :=
  match tr with
  | [] => []
  | EvInitialize p OkStatus :: tr' => opened tr' ++ [p]
  | _ :: tr' => opened tr'
  end.

(** The opened writers on which Close was not called since. *)
Fixpoint unclosed (tr : list Event) : list Path :=
  match tr with
  | [] => []
  | EvInitialize p OkStatus :: tr' => unclosed tr' ++ [p]
  | EvClose _ p _ :: tr' =>
      filter (fun q => negb (Path_eqb q p)) (unclosed tr')
  | _ :: tr' => unclosed tr'
  end.

Fixpoint cancel_seen (tr : list Event) : bool :=
  match tr with
  | [] => false
  | EvCancel :: _ => true
  | _ :: tr' => cancel_seen tr'
  end.

(** The last call that left the writer. *)
Fixpoint last_call (tr : list Event) : option Event :=
  match tr with
  | [] => None
  | ev :: tr' =>
      if is_file_operation ev || is_pull ev then Some ev else last_call tr'
  end.

(** A failure of CreateChunksDirectory or of Initialize: no cleanup is
    registered when the source returns it. *)
Definition setup_failed (call : option Event) : bool :=
  match call with
  | Some (EvRecursivelyCreateDir _ r) => negb (ok r)
  | Some (EvInitialize _ r) => negb (ok r)
  | _ => false
  end.

(** What the threads do to the mutex and to the status under it. *)
Definition is_lock_traffic (ev : Event) : bool :=
  match ev with
  | EvLock | EvUnlock | EvCancel => true
  | _ => false
  end.

(** The k-th call of Initialize, counted from 0, is for the chunk of index k
    in the uncommitted directory. *)
Fixpoint opens_in_order (tr : list Event) : Prop :=
  match tr with
  | [] => True
  | EvInitialize p _ :: tr' =>
      p = chunk (Z.of_nat (length (initialized tr'))) /\ opens_in_order tr'
  | _ :: tr' => opens_in_order tr'
  end.

(** Every append, every Close and every rename is applied to a writer whose
    Initialize succeeded. *)
Fixpoint sink_calls_on_opened (tr : list Event) : Prop :=
  match tr with
  | [] => True
  | ev :: tr' =>
      match ev with
      | EvWriteTensors p _ _ => In p (opened tr')
      | EvClose _ p _ => In p (opened tr')
      | EvRenameFile p _ _ => In p (opened tr')
      | _ => True
      end /\ sink_calls_on_opened tr'
  end.

(** Every rename moves a chunk file of the uncommitted directory to the
    committed directory, under its own base name. *)
Fixpoint renames_named (tr : list Event) : Prop :=
  match tr with
  | [] => True
  | EvRenameFile src dst _ :: tr' =>
      (Dirname src = UncommittedChunksDirectory /\
       dst = committed_path (Basename src)) /\ renames_named tr'
  | _ :: tr' => renames_named tr'
  end.

(** Every rename finds its chunk at the cap, or the end of the sequence
    reported, or a Cancel() done. *)
Fixpoint commits_justified (cap : Z) (tr : list Event) : Prop :=
  match tr with
  | [] => True
  | EvRenameFile src _ _ :: tr' =>
      (cap <= chunk_bytes src tr' \/ eos_seen tr' = true \/
       cancel_seen tr' = true) /\ commits_justified cap tr'
  | _ :: tr' => commits_justified cap tr'
  end.

(** Once the last call is a failed CreateChunksDirectory or Initialize, only
    the mutex is used. *)
Fixpoint silent_after_setup_failure (tr : list Event) : Prop :=
  match tr with
  | [] => True
  | ev :: tr' =>
      (setup_failed (last_call tr') = true -> is_lock_traffic ev = true) /\
      silent_after_setup_failure tr'
  end.

(** The writer that a call of the sink or the rename is applied to. *)
Definition writer_of (ev : Event) : option Path :=
  match ev with
  | EvWriteTensors p _ _ => Some p
  | EvClose _ p _ => Some p
  | EvRenameFile p _ _ => Some p
  | _ => None
  end.

Fixpoint pull_seen (tr : list Event) : bool :=
  match tr with
  | [] => false
  | EvGetNext _ :: _ => true
  | _ :: tr' => pull_seen tr'
  end.

(** Every pull is made with one chunk file open, the last one opened: it is
    neither closed nor renamed yet. *)
Fixpoint pulls_in_open_chunk (tr : list Event) : Prop :=
  match tr with
  | [] => True
  | EvGetNext _ :: tr' =>
      (uncommitted_chunks tr'
       = [chunk (Z.of_nat (length (initialized tr')) - 1)] /\
       unclosed tr' = [chunk (Z.of_nat (length (initialized tr')) - 1)]) /\
      pulls_in_open_chunk tr'
  | _ :: tr' => pulls_in_open_chunk tr'
  end.

(** What every member function keeps of the chunk files. *)
Record Files (cap : Z) (w : SnapshotStreamWriter) : Prop := {
  files_order : opens_in_order (trace w);
  files_count :
    chunk_index_ w <= Z.of_nat (length (initialized (trace w)))
    <= chunk_index_ w + 1;
  files_opened : sink_calls_on_opened (trace w);
  files_names : renames_named (trace w);
  files_commits : commits_justified cap (trace w);
  files_silent : silent_after_setup_failure (trace w);
  files_flag : end_of_sequence_ w = true -> eos_seen (trace w) = true;
  files_status :
    ok (status_ w) = false -> first_failure (trace w) = None ->
    cancel_seen (trace w) = true;
  files_cancel : cancel_seen (trace w) = true -> ok (status_ w) = false;
  files_pulls : pulls_in_open_chunk (trace w);
  files_idle : pull_seen (trace w) = false -> chunk_size_bytes_ w = 0;
  files_positive : pull_seen (trace w) = true -> 0 < cap
}.

(** Between two chunks, as long as nothing failed: every chunk of a smaller
    index was opened, closed and renamed away. *)
Definition Between (w : SnapshotStreamWriter) : Prop :=
  Z.of_nat (length (initialized (trace w))) = chunk_index_ w /\
  unclosed (trace w) = [] /\
  uncommitted_chunks (trace w) = [] /\
  setup_failed (last_call (trace w)) = false.

(** In WriteChunk, with the writer [p] of the current chunk opened. *)
Definition Within (p : Path) (w : SnapshotStreamWriter) : Prop :=
  p = chunk (chunk_index_ w) /\
  In p (opened (trace w)) /\
  Z.of_nat (length (initialized (trace w))) = chunk_index_ w + 1 /\
  (end_of_sequence_ w = false -> unclosed (trace w) = [p]) /\
  (unclosed (trace w) = [] \/ unclosed (trace w) = [p]) /\
  uncommitted_chunks (trace w) = [p] /\
  setup_failed (last_call (trace w)) = false.

(** Why a loop was left by its guard. *)
Definition record_guard_closed (w : SnapshotStreamWriter) : Prop :=
  max_chunk_size_bytes_ w <= chunk_size_bytes_ w \/
  end_of_sequence_ w = true \/ ok (status_ w) = false.

Definition chunk_guard_closed (w : SnapshotStreamWriter) : Prop :=
  end_of_sequence_ w = true \/ ok (status_ w) = false.

(** After a function returned: no writer is left open; without a failure no
    chunk file is left in the uncommitted directory. *)
Definition Released (w : SnapshotStreamWriter) : Prop :=
  unclosed (trace w) = [] /\
  (first_failure (trace w) = None -> uncommitted_chunks (trace w) = []).

(** A script of Env in which the Close that WriteRecord calls when the end
    of the sequence is reported at the first pull fails. *)
Definition close_at_end_fails : list Status :=
  [OkStatus; OkStatus; Error DATA_LOSS "close"].

(** A Cancel() of another thread that gets the mutex after the first pull,
    just before the guard of the record loop. *)
Definition cancel_after_first_pull : list bool :=
  [false; false; false; false; true].

(** A script of Env in which the chunks directory is created and the first
    Initialize fails. *)
Definition open_fails : list Status := [OkStatus; Error UNAVAILABLE "open"].

(** ** Termination *)

(** What a guard leaves as it is; a status that is not ok stays so. *)
Definition Unchanged (w w' : SnapshotStreamWriter) : Prop :=
  iterator_ w' = iterator_ w /\
  max_chunk_size_bytes_ w' = max_chunk_size_bytes_ w /\
  chunk_size_bytes_ w' = chunk_size_bytes_ w /\
  (chunk_guard_closed w -> chunk_guard_closed w').

(** ** The chunks of a run without failure *)

(** What the loops of WriteSnapshotFn and WriteChunk make of the elements
    that the iterator still produces, when nothing fails and nobody cancels:
    [current] is the content of the chunk that is open, [size] its size.
    Below the cap the next element goes to the open chunk, and the end of the
    sequence ends it; at the cap the chunk is committed and the next one takes
    the element, or, at the end of the sequence, stays empty. *)
Fixpoint greedy_chunks (cap size : Z) (current es : list Element)
  : list (list Element) :=
  match es with
  | [] => if size <? cap then [current] else [current; []]
  | e :: es' =>
      if size <? cap
      then greedy_chunks cap (size + EstimatedSizeBytes e) (current ++ [e]) es'
      else current :: greedy_chunks cap (EstimatedSizeBytes e) [e] es'
  end.

(** * Proofs *)

(** ** Rules of the weakest precondition *)

Lemma wp_bind {A B} (m : M A) (k : A -> M B) Q w :
  wp m (fun a w1 => wp (k a) Q w1) w -> wp (bind m k) Q w.
Proof. unfold wp, bind. destruct (m w) as [a w1]. simpl. auto. Qed.

Lemma wp_ret {A} (a : A) (Q : A -> SnapshotStreamWriter -> Prop) w :
  Q a w -> wp (ret a) Q w.
Proof. unfold wp, ret. simpl. auto. Qed.

Lemma wp_read {A} (field : SnapshotStreamWriter -> A) Q w :
  Q (field w) w -> wp (read field) Q w.
Proof. unfold wp, read. simpl. auto. Qed.

Lemma wp_assign update (Q : unit -> SnapshotStreamWriter -> Prop) w :
  Q tt (update w) -> wp (assign update) Q w.
Proof. unfold wp, assign. simpl. auto. Qed.

Lemma wp_record ev (Q : unit -> SnapshotStreamWriter -> Prop) w :
  Q tt (set_trace (ev :: trace w) w) -> wp (record ev) Q w.
Proof. unfold wp, record, assign. simpl. auto. Qed.

Lemma wp_interference (Q : unit -> SnapshotStreamWriter -> Prop) w :
  (hd false (other_threads w) = false ->
   Q tt (set_other_threads (tl (other_threads w)) w)) ->
  (hd false (other_threads w) = true ->
   Q tt (set_trace (EvCancel :: trace w)
           (set_status (errors_Cancelled kCancelled)
              (set_other_threads (tl (other_threads w)) w)))) ->
  wp interference Q w.
Proof.
  unfold wp, interference. intros H0 H1.
  destruct (hd false (other_threads w)); simpl; auto.
Qed.

Lemma wp_file_operation ev (Q : Status -> SnapshotStreamWriter -> Prop) w :
  (forall r, hd OkStatus (env_ w) = r ->
     Q r (set_trace (ev r :: trace w) (set_env (tl (env_ w)) w))) ->
  wp (file_operation ev) Q w.
Proof. unfold wp, file_operation. simpl. auto. Qed.

Lemma wp_GetNext (Q : GetNextResult -> SnapshotStreamWriter -> Prop) w :
  (forall r, hd EndOfSequence (iterator_ w) = r ->
     Q r (set_trace (EvGetNext r :: trace w) (set_iterator (tl (iterator_ w)) w))) ->
  wp GetNext Q w.
Proof. unfold wp, GetNext. simpl. auto. Qed.

Lemma wp_mono {A} (m : M A) (Q1 Q2 : A -> SnapshotStreamWriter -> Prop) w :
  wp m Q1 w -> (forall a w1, Q1 a w1 -> Q2 a w1) -> wp m Q2 w.
Proof. unfold wp. auto. Qed.

(** Projections of updated objects, computed in place. *)
Ltac fields :=
  cbv beta iota delta
      [set_env set_iterator set_snapshot_thread set_status
       set_end_of_sequence set_chunk_index set_chunk_size_bytes
       set_other_threads set_trace];
  cbn [env_ max_chunk_size_bytes_ iterator_ snapshot_thread_ status_
       end_of_sequence_ chunk_index_ chunk_size_bytes_ other_threads trace].

Ltac fields_in H :=
  cbv beta iota delta
      [set_env set_iterator set_snapshot_thread set_status
       set_end_of_sequence set_chunk_index set_chunk_size_bytes
       set_other_threads set_trace] in H;
  cbn [env_ max_chunk_size_bytes_ iterator_ snapshot_thread_ status_
       end_of_sequence_ chunk_index_ chunk_size_bytes_ other_threads trace] in H.

(** What a script that is known says about the outcome it gave. *)
Ltac known_outcome H :=
  try (simpl in H; discriminate H);
  try (simpl in H;
       match type of H with
       | Produced _ = Produced ?b => injection H as H; subst b
       end).

(** One step of symbolic execution of the computation at the head. *)
Ltac wp_step :=
  lazymatch goal with
  | |- wp (bind _ _) _ _ => apply wp_bind
  | |- wp (ret _) _ _ => apply wp_ret
  | |- wp (read _) _ _ => apply wp_read
  | |- wp (assign _) _ _ => apply wp_assign
  | |- wp (record _) _ _ => apply wp_record
  | |- wp interference _ _ =>
      apply wp_interference;
      let H := fresh "Hcancel" in
      intros H; fields_in H; known_outcome H
  | |- wp (file_operation _) _ _ =>
      apply wp_file_operation;
      let r := fresh "r" in let H := fresh "Hfile" in
      intros r H; fields_in H; destruct r; known_outcome H
  | |- wp GetNext _ _ =>
      apply wp_GetNext;
      let r := fresh "r" in let H := fresh "Hnext" in
      intros r H; fields_in H; destruct r; known_outcome H
  | |- wp mutex_lock _ _ => unfold mutex_lock
  | |- wp mutex_unlock _ _ => unfold mutex_unlock
  | |- wp (RecursivelyCreateDir _) _ _ => unfold RecursivelyCreateDir
  | |- wp (RenameFile _ _) _ _ => unfold RenameFile
  | |- wp (Initialize _) _ _ => unfold Initialize
  | |- wp (WriteTensors _ _) _ _ => unfold WriteTensors
  | |- wp (Close _ _) _ _ => unfold Close
  | |- wp status _ _ => unfold status
  | |- wp Cancel _ _ => unfold Cancel
  | |- wp CreateChunksDirectory _ _ => unfold CreateChunksDirectory
  | |- wp ShouldWriteChunk _ _ => unfold ShouldWriteChunk
  | |- wp ShouldWriteRecord _ _ => unfold ShouldWriteRecord
  | |- wp GetChunkFilePath _ _ => unfold GetChunkFilePath
  | |- wp (CommitChunk _) _ _ => unfold CommitChunk
  | |- wp (WriteRecord _) _ _ => unfold WriteRecord
  | |- wp (cleanup _) _ _ => unfold cleanup
  | |- wp (if _ then _ else _) _ _ => progress (cbn [andb negb ok])
  end; fields.

Ltac wp_run := repeat wp_step.

(** ** Facts about the views *)

Lemma indices_succ n : 0 <= n -> indices (n + 1) = indices n ++ [n].
Proof.
  intros Hn. unfold indices.
  replace (Z.to_nat (n + 1)) with (S (Z.to_nat n)) by lia.
  rewrite seq_S, map_app. simpl. rewrite Z2Nat.id by lia. reflexivity.
Qed.

Lemma indices_bound i n : In i (indices n) -> 0 <= i < n.
Proof.
  unfold indices. intros H. apply in_map_iff in H.
  destruct H as (k & Hk & Hin). apply in_seq in Hin. lia.
Qed.

Lemma total_bytes_app a b : total_bytes (a ++ b) = total_bytes a + total_bytes b.
Proof.
  induction a as [|x a IH]; simpl; [reflexivity|].
  unfold total_bytes in *. simpl. rewrite IH. lia.
Qed.

Lemma total_bytes_one element : total_bytes [element] = EstimatedSizeBytes element.
Proof. unfold total_bytes. simpl. lia. Qed.

Lemma EstimatedSizeBytes_range element :
  0 <= EstimatedSizeBytes element < 2 ^ 63.
Proof. unfold EstimatedSizeBytes. apply Z.mod_pos_bound. reflexivity. Qed.

Lemma total_bytes_nonneg elements : 0 <= total_bytes elements.
Proof.
  induction elements as [|e es IH]; [unfold total_bytes; simpl; lia|].
  change (e :: es) with ([e] ++ es).
  rewrite total_bytes_app, total_bytes_one.
  pose proof (EstimatedSizeBytes_range e). lia.
Qed.

Lemma wrap_int64_small z : - 2 ^ 63 <= z < 2 ^ 63 -> wrap_int64 z = z.
Proof.
  intros H. unfold wrap_int64.
  change (2 ^ 63) with 9223372036854775808 in *.
  change (2 ^ 64) with 18446744073709551616.
  rewrite Z.mod_small by lia. lia.
Qed.

Lemma wrap_int64_0 : wrap_int64 0 = 0.
Proof. reflexivity. Qed.

Lemma wrap_int64_add_l a b : wrap_int64 (wrap_int64 a + b) = wrap_int64 (a + b).
Proof.
  unfold wrap_int64.
  replace ((a + 2 ^ 63) mod 2 ^ 64 - 2 ^ 63 + b + 2 ^ 63)
    with ((a + 2 ^ 63) mod 2 ^ 64 + b) by lia.
  rewrite Z.add_mod_idemp_l by (intros E; discriminate E).
  replace (a + 2 ^ 63 + b) with (a + b + 2 ^ 63) by lia.
  reflexivity.
Qed.

Lemma wrap_int64_le z : - 2 ^ 63 <= z -> wrap_int64 z <= z.
Proof.
  intros H. unfold wrap_int64.
  change (2 ^ 63) with 9223372036854775808 in *.
  change (2 ^ 64) with 18446744073709551616.
  pose proof (Z.mod_le (z + 9223372036854775808) 18446744073709551616).
  lia.
Qed.

Lemma wrap_int64_range z : - 2 ^ 63 <= wrap_int64 z < 2 ^ 63.
Proof.
  unfold wrap_int64.
  change (2 ^ 63) with 9223372036854775808.
  change (2 ^ 64) with 18446744073709551616.
  pose proof (Z.mod_pos_bound (z + 9223372036854775808) 18446744073709551616).
  lia.
Qed.

(** The counter of a chunk is not above the size of its content. *)
Lemma wrap_int64_total_bytes elements :
  wrap_int64 (total_bytes elements) <= total_bytes elements.
Proof.
  apply wrap_int64_le. pose proof (total_bytes_nonneg elements).
  change (2 ^ 63) with 9223372036854775808. lia.
Qed.

Lemma Path_eqb_refl p : Path_eqb p p = true.
Proof.
  destruct p as [d i]. unfold Path_eqb. simpl.
  rewrite Z.eqb_refl. destruct d; reflexivity.
Qed.

Lemma Path_eqb_index p q : Basename p <> Basename q -> Path_eqb p q = false.
Proof.
  intros H. unfold Path_eqb.
  apply Z.eqb_neq in H. rewrite H. apply andb_false_r.
Qed.

Lemma chunk_elements_fresh i p tr :
  writes_upto i tr -> i < Basename p -> chunk_elements p tr = [].
Proof.
  intros Hw Hi. induction tr as [|ev tr IH]; simpl; [reflexivity|].
  destruct ev; simpl in Hw; auto.
  destruct Hw as [Hle Hw]. destruct r; auto.
  rewrite Path_eqb_index by lia. auto.
Qed.

Lemma writes_upto_mono i j tr : writes_upto i tr -> i <= j -> writes_upto j tr.
Proof.
  intros Hw Hij. induction tr as [|ev tr IH]; simpl; [exact I|].
  destruct ev; simpl in Hw; auto.
  destruct Hw as [Hle Hw]. split; [lia | auto].
Qed.

Lemma failure_error ev s : failure ev = Some s -> ok s = false.
Proof.
  destruct ev as [| | |d r|p r|r|p el r|site p r|a b r]; simpl;
    try discriminate;
    try (destruct r; simpl; intros H; inversion H; reflexivity).
  destruct site; [|discriminate].
  destruct r; simpl; intros H; inversion H; reflexivity.
Qed.

Lemma first_failure_error tr s : first_failure tr = Some s -> ok s = false.
Proof.
  induction tr as [|ev tr IH]; simpl; [discriminate|].
  destruct (first_failure tr) as [s'|].
  - intros H. inversion H. subst. auto.
  - apply failure_error.
Qed.

(** ** The invariant is kept by every member function *)

Ltac open_inv :=
  repeat match goal with
         | H : Inv _ _ |- _ => destruct H
         | H : Alive _ |- _ => destruct H
         | H : _ /\ _ |- _ => destruct H
         end.

Ltac open_object w :=
  let env := fresh "env" in let cap := fresh "cap" in
  let it := fresh "it" in let th := fresh "th" in
  let st := fresh "st" in let eos := fresh "eos" in
  let idx := fresh "idx" in let size := fresh "size" in
  let oth := fresh "oth" in let tr := fresh "tr" in
  destruct w as [env cap it th st eos idx size oth tr];
  unfold current_chunk in *;
  cbn [env_ max_chunk_size_bytes_ iterator_ snapshot_thread_ status_
       end_of_sequence_ chunk_index_ chunk_size_bytes_ other_threads trace] in *.

(** The flag is down, so no end of sequence is in the history. *)
Ltac flag_down :=
  match goal with
  | Hf : eos_seen ?t = true -> ?e = true, He : ?e = false |- _ =>
      let H := fresh "Hseen" in
      assert (H : eos_seen t = false)
        by (destruct (eos_seen t); [rewrite Hf in He by reflexivity; discriminate
                                   | reflexivity]);
      clear Hf
  end.

Ltac use_views :=
  repeat match goal with
         | H : lock_discipline ?t = _ |- context [lock_discipline ?t] => rewrite H
         | H : held ?t = _ |- context [held ?t] => rewrite H
         | H : first_failure ?t = _ |- context [first_failure ?t] => rewrite H
         | H : eos_seen ?t = _ |- context [eos_seen ?t] => rewrite H
         | H : starts_with_cancel ?t = _ |- context [starts_with_cancel ?t] =>
             rewrite H
         end.

Ltac solve_pulled :=
  match goal with
  | H : pulled ?t = written ?t |- exists _, _ =>
      first [ exists (@nil Element); rewrite app_nil_r; rewrite ?H; reflexivity
            | eexists; rewrite H; reflexivity ]
  | H : exists _, pulled ?t = _ |- exists _, _ => exact H
  end.

(** A chunk of the next index has no content yet. *)
Ltac next_chunk :=
  repeat match goal with
         | Hw : writes_upto ?i ?t
           |- context [chunk_elements {| Dirname := ?d; Basename := ?i + 1 |} ?t] =>
             rewrite (chunk_elements_fresh i (JoinPath d (i + 1)) t Hw)
               by (simpl; lia)
         | Hw : writes_upto ?i ?t |- writes_upto (?i + 1) ?t =>
             apply (writes_upto_mono i (i + 1) t Hw); lia
         end.

(** The current index is not the index of a committed chunk. *)
Ltac fresh_index :=
  match goal with
  | Hc : map fst (committed_chunks ?t) = indices ?n,
    H : In ?i (map fst (committed_chunks ?t)) |- _ =>
      rewrite Hc in H; apply indices_bound in H; lia
  end.

(** The counter after an addition, from the counter before it. *)
Ltac use_counter :=
  repeat match goal with
         | H : ?s = wrap_int64 _ |- context [wrap_int64 (?s + _)] =>
             rewrite H, wrap_int64_add_l
         end;
  rewrite ?wrap_int64_0.

Ltac solve_field :=
  cbn [fst snd];
  unfold waited, joined, finished, ended, returned, Alive, Quiescent,
    current_chunk in *;
  unfold chunk_bytes in *; simpl;
  unfold chunk_bytes, Path_eqb; simpl; rewrite ?Z.eqb_refl; use_views; simpl;
  first
    [ solve_pulled
    | next_chunk;
      rewrite ?map_app, ?concat_app; simpl;
      rewrite ?indices_succ by assumption;
      rewrite ?total_bytes_app, ?total_bytes_one, ?app_nil_r, ?app_assoc;
      use_counter;
      intuition (try congruence; try lia; try fresh_index; auto) ].

Ltac solve_inv :=
  repeat match goal with |- _ /\ _ => split end;
  try match goal with |- Inv _ _ => constructor end;
  solve_field.

Ltac same_vars :=
  repeat match goal with
         | H : ?x = ?y |- _ => is_var x; is_var y; subst x
         end.

(** Take the object [w] and what is known of it apart. *)
Ltac open_state w :=
  unfold ended, returned, Quiescent in *; cbn [ok] in *;
  open_inv; open_object w; same_vars.

Section Invariant.

Variable cap : Z.

Lemma WriteRecord_inv writer w :
  Inv cap w -> Alive w -> writer = current_chunk w ->
  end_of_sequence_ w = false ->
  chunk_size_bytes_ w < max_chunk_size_bytes_ w ->
  wp (WriteRecord writer)
     (fun s w' => Inv cap w' /\ chunk_index_ w' = chunk_index_ w /\ returned s w') w.
Proof.
  intros HI HA Hw He Hs. subst writer.
  open_inv. open_object w. flag_down.
  wp_run; solve_inv.
Qed.

Lemma ShouldWriteRecord_inv w :
  Inv cap w -> Alive w ->
  wp ShouldWriteRecord
     (fun b w' => Inv cap w' /\ Alive w' /\ chunk_index_ w' = chunk_index_ w /\
                  (b = true -> end_of_sequence_ w' = false /\
                               chunk_size_bytes_ w' < max_chunk_size_bytes_ w')) w.
Proof.
  intros HI HA. open_inv. open_object w.
  wp_run; solve_inv;
    rewrite !andb_true_iff, Z.ltb_lt, negb_true_iff in *; intuition.
Qed.

Lemma ShouldWriteChunk_inv w :
  Inv cap w -> Alive w -> Quiescent w ->
  wp ShouldWriteChunk (fun _ w' => Inv cap w' /\ Alive w' /\ Quiescent w') w.
Proof.
  intros HI HA HQ. unfold Quiescent in *. open_inv. open_object w.
  wp_run; solve_inv.
Qed.

Lemma WriteRecords_inv fuel :
  forall writer w,
    Inv cap w -> Alive w -> writer = current_chunk w ->
    wp (WriteRecords fuel writer)
       (fun o w' => Inv cap w' /\ chunk_index_ w' = chunk_index_ w /\ ended o w') w.
Proof.
  induction fuel as [|fuel IH]; intros writer w HI HA Hw; cbn [WriteRecords].
  - apply wp_ret. auto.
  - apply wp_bind.
    eapply wp_mono; [apply ShouldWriteRecord_inv; assumption|].
    cbv beta. intros b w1 (HI1 & HA1 & Hidx & Hguard).
    assert (Hw1 : writer = current_chunk w1)
      by (unfold current_chunk in *; rewrite Hidx; exact Hw).
    destruct b.
    + destruct Hguard as [He Hs]; [reflexivity|].
      apply wp_bind.
      eapply wp_mono; [apply WriteRecord_inv; assumption|].
      cbv beta. intros s w2 (HI2 & Hidx2 & Hret).
      destruct s as [|code message]; cbn [ok].
      * eapply wp_mono.
        { apply IH; [assumption | exact Hret |].
          unfold current_chunk in *. rewrite Hidx2. exact Hw1. }
        cbv beta. intros o w3 (HI3 & Hidx3 & Hend).
        split; [assumption | split; [congruence | assumption]].
      * apply wp_ret. split; [assumption | split; [congruence | exact Hret]].
    + apply wp_ret. split; [assumption | split; assumption].
Qed.

Lemma WriteChunk_inv fuel w :
  Inv cap w -> Alive w ->
  wp (WriteChunk fuel)
     (fun o w' => Inv cap w' /\ ended o w' /\ (o = Some OkStatus -> Quiescent w')) w.
Proof.
  intros HI HA. unfold WriteChunk. open_state w.
  wp_run; try solve [solve_inv].
  all: (eapply wp_mono;
        [ apply WriteRecords_inv; [solve_inv | solve_inv | reflexivity] |]).
  all: cbv beta; intros o w1 (HI1 & Hidx & Hend);
    destruct o as [[|code message]|]; open_state w1; fields.
  all: wp_run; solve_inv.
Qed.

Lemma WriteChunks_inv fuel :
  forall w,
    Inv cap w -> Alive w -> Quiescent w ->
    wp (WriteChunks fuel)
       (fun o w' => Inv cap w' /\ ended o w' /\ (o = Some OkStatus -> Quiescent w')) w.
Proof.
  induction fuel as [|fuel IH]; intros w HI HA HQ; cbn [WriteChunks].
  - apply wp_ret. split; [assumption | split; [assumption | discriminate]].
  - apply wp_bind.
    eapply wp_mono; [apply ShouldWriteChunk_inv; assumption|].
    cbv beta. intros b w1 (HI1 & HA1 & HQ1).
    destruct b.
    + apply wp_bind.
      eapply wp_mono; [apply WriteChunk_inv; assumption|].
      cbv beta. intros o w2 (HI2 & Hend & HQ2).
      destruct o as [[|code message]|].
      * apply IH; [assumption | exact Hend | auto].
      * apply wp_ret. split; [assumption | split; [exact Hend | discriminate]].
      * apply wp_ret. split; [assumption | split; [exact Hend | discriminate]].
    + apply wp_ret. split; [assumption | split; [assumption | auto]].
Qed.

Lemma WriteSnapshotFn_inv fuel w :
  Inv cap w -> Alive w -> Quiescent w ->
  wp (WriteSnapshotFn fuel) (fun o w' => Inv cap w' /\ finished o w') w.
Proof.
  intros HI HA HQ. unfold WriteSnapshotFn. open_state w.
  wp_run; try solve [solve_inv].
  all: (eapply wp_mono;
        [ apply WriteChunks_inv; [solve_inv | solve_inv | solve_inv] |]).
  all: cbv beta; intros o w1 (HI1 & Hend & HQ1);
    destruct o as [[|code message]|];
    [ specialize (HQ1 eq_refl) | clear HQ1 | clear HQ1 ];
    open_state w1; fields.
  all: wp_run; solve_inv.
Qed.

Lemma snapshot_fn_inv fuel w :
  Inv cap w -> Alive w -> Quiescent w ->
  wp (snapshot_fn fuel) (fun o w' => Inv cap w' /\ joined o w') w.
Proof.
  intros HI HA HQ. unfold snapshot_fn.
  apply wp_bind.
  eapply wp_mono; [apply WriteSnapshotFn_inv; assumption|].
  cbv beta. intros o w1 (HI1 & Hfin).
  unfold finished in Hfin.
  destruct (first_failure (trace w1)) as [e|] eqn:Hfail.
  - subst o. destruct e as [|code message].
    + apply first_failure_error in Hfail. discriminate.
    + open_state w1. fields. wp_run; solve_inv.
  - destruct Hfin as [HA1 [Ho | [Ho HQ1]]]; subst o.
    + apply wp_ret. split; [assumption|]. unfold joined. rewrite Hfail. auto.
    + open_state w1. destruct st; fields; wp_run; solve_inv.
Qed.

Lemma Wait_inv fuel w :
  Inv cap w -> Alive w -> Quiescent w ->
  wp (Wait fuel) (fun o w' => Inv cap w' /\ waited o w') w.
Proof.
  intros HI HA HQ. unfold Wait.
  apply wp_bind, wp_read. cbv beta. apply wp_bind.
  destruct (snapshot_thread_ w).
  - eapply wp_mono; [apply snapshot_fn_inv; assumption|].
    cbv beta. intros o w1 (HI1 & Hj). unfold joined in Hj. clear HI HA HQ.
    destruct (first_failure (trace w1)) as [e|] eqn:Hfail.
    + destruct Hj as (Ho & Hst). subst o.
      open_state w1. subst. fields. wp_run; solve_inv.
    + destruct Hj as [HA1 [Ho | [Ho HQ1]]]; subst o.
      * apply wp_ret. split; [assumption|]. unfold waited. rewrite Hfail. auto.
      * open_state w1. fields. wp_run; solve_inv.
  - apply wp_ret. open_state w. fields. wp_run; solve_inv.
Qed.

End Invariant.

(** ** Every run of a new writer *)

Lemma new_SnapshotStreamWriter_inv iterator env max others :
  let w := new_SnapshotStreamWriter iterator env max others in
  Inv (cap_of max) w /\ Alive w /\ Quiescent w.
Proof.
  cbv zeta. split; [|split].
  - constructor; simpl; auto; try reflexivity; try lia.
    exists []. reflexivity.
  - split; reflexivity.
  - reflexivity.
Qed.

Lemma Wait_new fuel iterator env max others :
  let run := Wait fuel (new_SnapshotStreamWriter iterator env max others) in
  Inv (cap_of max) (snd run) /\ waited (fst run) (snd run).
Proof.
  cbv zeta.
  destruct (new_SnapshotStreamWriter_inv iterator env max others) as (HI & HA & HQ).
  exact (Wait_inv (cap_of max) fuel _ HI HA HQ).
Qed.

(** ** What the views say about a history taken apart *)

Lemma lock_discipline_at newer ev older :
  lock_discipline (newer ++ ev :: older) = true ->
  (is_file_operation ev = true -> held older = false) /\
  (is_pull ev = true -> held older = true).
Proof.
  induction newer as [|x newer IH]; simpl.
  - intros H. apply andb_prop in H. destruct H as [_ H].
    destruct ev; simpl; split; intros E; try discriminate;
      try (apply negb_true_iff; exact H); exact H.
  - intros H. apply andb_prop in H. destruct H as [H _]. auto.
Qed.

Lemma writes_below_cap_at cap newer p element r older :
  writes_below_cap cap (newer ++ EvWriteTensors p element r :: older) ->
  wrap_int64 (chunk_bytes p older) < cap.
Proof.
  induction newer as [|x newer IH]; simpl.
  - intros [H _]. exact H.
  - destruct x; simpl; auto. intros [_ H]. auto.
Qed.

Lemma Path_eqb_eq p q : Path_eqb p q = true -> p = q.
Proof.
  destruct p as [d i], q as [d' i']. unfold Path_eqb. simpl.
  intros H. apply andb_prop in H. destruct H as [Hd Hi].
  apply Z.eqb_eq in Hi. subst.
  destruct d, d'; simpl in Hd; try discriminate; reflexivity.
Qed.

Lemma chunk_elements_soft_cap cap p tr :
  writes_below_cap cap tr -> soft_cap cap (chunk_elements p tr).
Proof.
  induction tr as [|ev tr IH]; simpl.
  - intros _ before last H. destruct before; discriminate.
  - destruct ev; simpl; auto.
    intros [Hlt Hw]. destruct r; auto.
    destruct (Path_eqb writer p) eqn:E; auto.
    apply Path_eqb_eq in E. subst writer.
    intros before element0 after H.
    induction after as [|x after _] using rev_ind.
    + apply app_inj_tail in H. destruct H as [H _]. subst before. exact Hlt.
    + rewrite app_comm_cons, app_assoc in H.
      apply app_inj_tail in H. destruct H as [H _].
      exact (IH Hw before element0 after H).
Qed.

(** As long as the cap plus the size of an element fits an int64_t, the
    counter of a chunk is the size of its content. *)
Lemma soft_cap_in_range cap elements :
  soft_cap cap elements ->
  (forall e, In e elements -> cap + EstimatedSizeBytes e < 2 ^ 63) ->
  forall before element after,
    elements = before ++ element :: after -> total_bytes before < cap.
Proof.
  intros Hsc Hfit before.
  induction before as [|x before IH] using rev_ind; intros element after Heq.
  - exact (Hsc [] element after Heq).
  - assert (Heq' : elements = before ++ x :: element :: after)
      by (rewrite Heq, <- app_assoc; reflexivity).
    pose proof (IH x (element :: after) Heq') as Hbefore.
    assert (Hx : cap + EstimatedSizeBytes x < 2 ^ 63).
    { apply Hfit. rewrite Heq'. apply in_or_app. right. left. reflexivity. }
    pose proof (Hsc (before ++ [x]) element after Heq) as Hcounter.
    pose proof (total_bytes_nonneg (before ++ [x])) as Hpos.
    rewrite wrap_int64_small in Hcounter; [exact Hcounter|].
    rewrite total_bytes_app, total_bytes_one in *.
    change (2 ^ 63) with 9223372036854775808 in *. lia.
Qed.

Lemma committed_chunks_soft_cap cap tr :
  writes_below_cap cap tr ->
  forall index elements,
    In (index, elements) (committed_chunks tr) -> soft_cap cap elements.
Proof.
  induction tr as [|ev tr IH]; simpl.
  - intros _ index elements [].
  - destruct ev; simpl; auto.
    + intros [_ Hw]. exact (IH Hw).
    + intros Hw index elements. destruct r; [|exact (IH Hw index elements)].
      destruct (Dir_eqb (Dirname dst) CommittedChunksDirectory);
        [|exact (IH Hw index elements)].
      intros Hin. apply in_app_or in Hin. destruct Hin as [Hin | [Hin | []]].
      * exact (IH Hw index elements Hin).
      * inversion Hin. subst. apply chunk_elements_soft_cap. exact Hw.
Qed.

Lemma no_pull_after_eos_at newer older :
  no_pull_after_eos (newer ++ EvGetNext EndOfSequence :: older) ->
  Forall (fun ev => is_pull ev = false) newer /\
  eos_seen (newer ++ EvGetNext EndOfSequence :: older) = true.
Proof.
  induction newer as [|x newer IH]; simpl.
  - intros _. split; [constructor | reflexivity].
  - destruct x; simpl; intros H;
      try (destruct (IH H) as [Hall Hseen]; split;
           [constructor; [reflexivity | exact Hall] | exact Hseen]).
    destruct H as [Hnot H]. destruct (IH H) as [_ Hseen]. congruence.
Qed.

Lemma quiet_no_failure ev : quiet ev = true -> failure ev = None.
Proof.
  destruct ev as [| | |d r|p r|r|p el r|site p r|a b r]; simpl;
    try discriminate; try reflexivity.
  destruct site; [discriminate | reflexivity].
Qed.

Lemma first_failure_app newer older s :
  first_failure older = Some s -> first_failure (newer ++ older) = Some s.
Proof.
  intros H. induction newer as [|x newer IH]; simpl; [exact H|].
  rewrite IH. reflexivity.
Qed.

Lemma quiet_after_failure_at newer ev older e :
  quiet_after_failure (newer ++ ev :: older) ->
  failure ev = Some e ->
  Forall (fun x => quiet x = true) newer /\
  first_failure (newer ++ ev :: older) = Some e.
Proof.
  intros Hq Hf.
  assert (Hfirst : first_failure (ev :: older) = Some e).
  { assert (Hq' : quiet_after_failure (ev :: older)).
    { clear Hf. induction newer as [|x newer IH]; simpl in Hq;
        [exact Hq | apply IH; apply Hq]. }
    simpl in Hq'. destruct Hq' as [Hq' _]. simpl.
    destruct (first_failure older) as [s|]; [|exact Hf].
    assert (Hqe : quiet ev = true) by (apply Hq'; discriminate).
    apply quiet_no_failure in Hqe. congruence. }
  split; [|apply first_failure_app; exact Hfirst].
  induction newer as [|x newer IH]; [constructor|].
  simpl in Hq. destruct Hq as [Hx Hq]. constructor; [|auto].
  apply Hx. rewrite (first_failure_app newer _ e Hfirst). discriminate.
Qed.

(** ** The lock and blocking calls *)

(** C3, as stated, fails: in scenario B a pull happens under the lock. *)
Lemma C3_pull_under_lock :
  io_outside_lock (trace (snd (Wait 10 scenario_B))) = false.
Proof. vm_compute. reflexivity. Qed.

(** C3, amended: in every run of a new writer, whatever the scripts of its
    collaborators and the fuel, every file operation (directory creation,
    Initialize, WriteTensors, Close, RenameFile) is called with the lock
    free, and every GetNext is called with the lock held. *)
Theorem C3_file_operations_outside_lock
    fuel iterator env max others newer ev older :
  trace (snd (Wait fuel (new_SnapshotStreamWriter iterator env max others)))
    = newer ++ ev :: older ->
  (is_file_operation ev = true -> held older = false) /\
  (is_pull ev = true -> held older = true).
Proof.
  intros Htr.
  destruct (Wait_new fuel iterator env max others) as [HI _].
  apply (lock_discipline_at newer). rewrite <- Htr.
  apply (inv_discipline _ _ HI).
Qed.

Lemma C3_file_operations_outside_lock_witness :
  let tr := trace (snd (Wait 10 scenario_B)) in
  tr = firstn 49 tr ++ EvGetNext (Produced (elem 1 300)) :: skipn 50 tr /\
  held (skipn 50 tr) = true.
Proof.
  cbv zeta.
  assert (H : trace (snd (Wait 10 scenario_B))
              = firstn 49 (trace (snd (Wait 10 scenario_B)))
                ++ EvGetNext (Produced (elem 1 300))
                   :: skipn 50 (trace (snd (Wait 10 scenario_B))))
    by (vm_compute; reflexivity).
  split; [exact H|].
  exact (proj2 (C3_file_operations_outside_lock
                  10 three_elements [] (Some 500) []
                  (firstn 49 (trace (snd (Wait 10 scenario_B))))
                  (EvGetNext (Produced (elem 1 300)))
                  (skipn 50 (trace (snd (Wait 10 scenario_B)))) H) eq_refl).
Defined.

(** ** The soft cap *)

Lemma ShouldWriteRecord_guard w :
  fst (ShouldWriteRecord w) = true ->
  chunk_size_bytes_ w < max_chunk_size_bytes_ w /\ end_of_sequence_ w = false.
Proof.
  assert (H : wp ShouldWriteRecord
                (fun b _ => b = true ->
                   chunk_size_bytes_ w < max_chunk_size_bytes_ w /\
                   end_of_sequence_ w = false) w).
  { open_object w. wp_run;
      rewrite !andb_true_iff, Z.ltb_lt, negb_true_iff; intuition. }
  exact H.
Qed.

(** C4: in every run of a new writer the counter chunk_size_bytes_ is the
    size of the content of the current chunk, as the int64_t that the
    additions of WriteRecord leave, and the guard of the record loop lets a
    write happen only while the counter is below the cap.  So every
    WriteTensors call finds the counter of its chunk below the cap; every
    committed chunk had a counter below max_chunk_size_bytes before its last
    element was written, and ends with a counter below the cap plus the
    estimated size of that element.  When the cap plus the size of each
    element of the chunk fits an int64_t, no addition wraps around, and the
    same holds of the size of the content itself. *)
Theorem C4_soft_cap fuel iterator env max others :
  let w := snd (Wait fuel (new_SnapshotStreamWriter iterator env max others)) in
  (forall index elements before last,
      In (index, elements) (committed_chunks (trace w)) ->
      elements = before ++ [last] ->
      wrap_int64 (total_bytes before) < cap_of max /\
      wrap_int64 (total_bytes elements) < cap_of max + EstimatedSizeBytes last) /\
  (forall newer p element r older,
      trace w = newer ++ EvWriteTensors p element r :: older ->
      wrap_int64 (chunk_bytes p older) < cap_of max) /\
  chunk_size_bytes_ w = wrap_int64 (chunk_bytes (current_chunk w) (trace w)) /\
  max_chunk_size_bytes_ w = cap_of max /\
  (forall w0, fst (ShouldWriteRecord w0) = true ->
              chunk_size_bytes_ w0 < max_chunk_size_bytes_ w0) /\
  (forall index elements before last,
      In (index, elements) (committed_chunks (trace w)) ->
      elements = before ++ [last] ->
      (forall e, In e elements -> cap_of max + EstimatedSizeBytes e < 2 ^ 63) ->
      total_bytes before < cap_of max /\
      total_bytes elements < cap_of max + EstimatedSizeBytes last).
Proof.
  cbv zeta.
  destruct (Wait_new fuel iterator env max others) as [HI _].
  pose proof (committed_chunks_soft_cap _ _ (inv_cap _ _ HI)) as Hsoft.
  split; [|split; [|split; [|split; [|split]]]].
  - intros index elements before last Hin Heq.
    assert (Hb : wrap_int64 (total_bytes before) < cap_of max)
      by exact (Hsoft index elements Hin before last [] Heq).
    split; [exact Hb|].
    subst elements. rewrite total_bytes_app, total_bytes_one.
    rewrite <- wrap_int64_add_l.
    pose proof (wrap_int64_range (total_bytes before)) as Hr.
    pose proof (EstimatedSizeBytes_range last) as Hl.
    pose proof (wrap_int64_le
                  (wrap_int64 (total_bytes before) + EstimatedSizeBytes last))
      as Hle.
    change (2 ^ 63) with 9223372036854775808 in *. lia.
  - intros newer p element r older Htr.
    apply (writes_below_cap_at _ newer p element r older).
    rewrite <- Htr. apply (inv_cap _ _ HI).
  - apply (inv_size _ _ HI).
  - apply (inv_max _ _ HI).
  - intros w0 H. apply ShouldWriteRecord_guard. exact H.
  - intros index elements before last Hin Heq Hfit.
    assert (Hb : total_bytes before < cap_of max)
      by exact (soft_cap_in_range _ _ (Hsoft index elements Hin) Hfit
                  before last [] Heq).
    split; [exact Hb|].
    subst elements. rewrite total_bytes_app, total_bytes_one. lia.
Qed.

Lemma C4_soft_cap_witness :
  In (0, [elem 1 300; elem 2 300])
     (committed_chunks (trace (snd (Wait 10 scenario_B)))) /\
  (forall e, In e [elem 1 300; elem 2 300] ->
             500 + EstimatedSizeBytes e < 2 ^ 63) /\
  total_bytes [elem 1 300] < 500 /\
  total_bytes [elem 1 300; elem 2 300] < 500 + EstimatedSizeBytes (elem 2 300).
Proof.
  assert (H : In (0, [elem 1 300; elem 2 300])
                (committed_chunks (trace (snd (Wait 10 scenario_B)))))
    by (vm_compute; left; reflexivity).
  assert (Hfit : forall e, In e [elem 1 300; elem 2 300] ->
                           500 + EstimatedSizeBytes e < 2 ^ 63)
    by (intros e [E | [E | []]]; subst e; vm_compute; reflexivity).
  split; [exact H | split; [exact Hfit|]].
  exact (proj2 (proj2 (proj2 (proj2 (proj2
           (C4_soft_cap 10 three_elements [] (Some 500) [])))))
           0 [elem 1 300; elem 2 300] [elem 1 300] (elem 2 300) H eq_refl Hfit).
Defined.

(** ** Order of the commits *)

Lemma indices_length n : length (indices n) = Z.to_nat n.
Proof. unfold indices. rewrite length_map, length_seq. reflexivity. Qed.

(** C9: in every run of a new writer that has committed k chunks, whatever
    the scripts and the fuel, the indices of the committed chunks, in the
    order of the commits, are 0, 1, ..., k-1, the next index to use is k, and
    the contents of the committed chunks, put end to end in the order of the
    commits, are the first elements pulled from the iterator, in the order of
    the pulls. *)
Theorem C9_commit_order fuel iterator env max others :
  let w := snd (Wait fuel (new_SnapshotStreamWriter iterator env max others)) in
  let committed := committed_chunks (trace w) in
  let k := length committed in
  map fst committed = map Z.of_nat (seq 0 k) /\
  chunk_index_ w = Z.of_nat k /\
  exists rest, pulled (trace w) = concat (map snd committed) ++ rest.
Proof.
  cbv zeta.
  destruct (Wait_new fuel iterator env max others) as [HI _].
  set (w := snd (Wait fuel (new_SnapshotStreamWriter iterator env max others))) in *.
  assert (Hlen : length (committed_chunks (trace w)) = Z.to_nat (chunk_index_ w)).
  { rewrite <- (length_map fst), (inv_committed _ _ HI). apply indices_length. }
  split; [|split].
  - rewrite Hlen. apply (inv_committed _ _ HI).
  - rewrite Hlen. pose proof (inv_index _ _ HI). lia.
  - destruct (inv_pulled _ _ HI) as [pending Hp].
    exists (chunk_elements (current_chunk w) (trace w) ++ pending).
    rewrite Hp, <- (inv_order _ _ HI), app_assoc. reflexivity.
Qed.

(** ** End of sequence *)

Lemma guards_closed_at_end_of_sequence w :
  end_of_sequence_ w = true ->
  fst (ShouldWriteRecord w) = false /\ fst (ShouldWriteChunk w) = false.
Proof.
  intros He.
  assert (H1 : wp ShouldWriteRecord (fun b _ => b = false) w).
  { open_object w. subst. wp_run; simpl; rewrite andb_false_r; reflexivity. }
  assert (H2 : wp ShouldWriteChunk (fun b _ => b = false) w).
  { open_object w. subst. wp_run; reflexivity. }
  split; [exact H1 | exact H2].
Qed.

(** C10: in every run of a new writer, once GetNext has reported the end of
    the sequence no GetNext is called any more and the flag end_of_sequence
    is up at every later loop boundary (whatever the fuel, so wherever the
    run is stopped); and on any object whose flag is up both loop guards are
    false. *)
Theorem C10_no_pull_after_end_of_sequence :
  (forall fuel iterator env max others newer older,
      let w := snd (Wait fuel (new_SnapshotStreamWriter iterator env max others)) in
      trace w = newer ++ EvGetNext EndOfSequence :: older ->
      Forall (fun ev => is_pull ev = false) newer /\
      end_of_sequence_ w = true) /\
  (forall w,
      end_of_sequence_ w = true ->
      fst (ShouldWriteRecord w) = false /\ fst (ShouldWriteChunk w) = false).
Proof.
  split; [|exact guards_closed_at_end_of_sequence].
  cbv zeta. intros fuel iterator env max others newer older Htr.
  destruct (Wait_new fuel iterator env max others) as [HI _].
  pose proof (inv_eos _ _ HI) as He. rewrite Htr in He.
  apply no_pull_after_eos_at in He. destruct He as [Hall Hseen].
  rewrite <- Htr in Hseen.
  split; [exact Hall | exact (inv_flag _ _ HI Hseen)].
Qed.

Lemma C10_no_pull_after_end_of_sequence_witness :
  let tr := trace (snd (Wait 10 scenario_B)) in
  tr = firstn 14 tr ++ EvGetNext EndOfSequence :: skipn 15 tr /\
  Forall (fun ev => is_pull ev = false) (firstn 14 tr) /\
  end_of_sequence_ (snd (Wait 10 scenario_B)) = true.
Proof.
  cbv zeta.
  assert (H : trace (snd (Wait 10 scenario_B))
              = firstn 14 (trace (snd (Wait 10 scenario_B)))
                ++ EvGetNext EndOfSequence
                   :: skipn 15 (trace (snd (Wait 10 scenario_B))))
    by (vm_compute; reflexivity).
  split; [exact H|].
  exact (proj1 C10_no_pull_after_end_of_sequence
           10%nat three_elements [] (Some 500) []
           (firstn 14 (trace (snd (Wait 10 scenario_B))))
           (skipn 15 (trace (snd (Wait 10 scenario_B)))) H).
Defined.

(** ** Failures of the sink and of the commit *)

Lemma committed_chunks_quiet newer tr :
  Forall (fun x => quiet x = true) newer ->
  committed_chunks (newer ++ tr) = committed_chunks tr.
Proof.
  induction 1 as [|ev newer Hq _ IH]; simpl; [reflexivity|].
  destruct ev; simpl in Hq; try discriminate; exact IH.
Qed.

Lemma committed_chunks_failed ev r tr :
  failure ev = Some r -> committed_chunks (ev :: tr) = committed_chunks tr.
Proof.
  intros Hf. destruct ev; simpl; try reflexivity.
  simpl in Hf. destruct r0; simpl in Hf; [discriminate | reflexivity].
Qed.

Lemma sink_calls_on_uncommitted_at newer ev older p :
  sink_calls_on_uncommitted (newer ++ ev :: older) ->
  chunk_of ev = Some p ->
  ~ In (Basename p) (map fst (committed_chunks older)).
Proof.
  induction newer as [|x newer IH]; simpl.
  - intros [H _] Hp.
    destruct ev as [| | |d r|q r|r|q el r|site q r|a b r]; simpl in Hp;
      try discriminate.
    + inversion Hp. subst. exact H.
    + destruct site; [|discriminate]. inversion Hp. subst. exact H.
    + inversion Hp. subst. exact H.
  - intros [_ H]. auto.
Qed.

Lemma failure_is_fatal fuel iterator env max others newer ev older r :
  let run := Wait fuel (new_SnapshotStreamWriter iterator env max others) in
  trace (snd run) = newer ++ ev :: older ->
  failure ev = Some r ->
  Forall (fun x => quiet x = true) newer /\
  first_failure (trace (snd run)) = Some r /\
  fst run = Some (status_ (snd run)) /\
  status_ (snd run)
  = (if cancelled_at_last_lock (trace (snd run)) then cancelled else r) /\
  (forall p, chunk_of ev = Some p ->
             ~ In (Basename p) (map fst (committed_chunks (trace (snd run))))).
Proof.
  cbv zeta. intros Htr Hf.
  destruct (Wait_new fuel iterator env max others) as [HI Hw].
  pose proof (inv_fresh _ _ HI) as Hfresh. rewrite Htr in Hfresh.
  pose proof (inv_quiet _ _ HI) as Hq. rewrite Htr in Hq.
  destruct (quiet_after_failure_at newer ev older r Hq Hf) as [Hall Hfirst].
  rewrite <- Htr in Hfirst.
  unfold waited in Hw. rewrite Hfirst in Hw. destruct Hw as [Hs Ho].
  split; [exact Hall | split; [exact Hfirst|]].
  destruct Hs as [Hs | Hs]; [congruence|].
  split; [exact Hs | split; [unfold cancelled; congruence|]].
  intros p Hp.
  rewrite Htr, (committed_chunks_quiet newer _ Hall),
    (committed_chunks_failed ev r older Hf).
  exact (sink_calls_on_uncommitted_at newer ev older p Hfresh Hp).
Qed.

(** C7, as stated, fails: with the elements of scenario B, the Close of the
    writer of chunk 0 (called by the cleanup, after the commit) fails, and the
    run goes on: both chunks are committed and Wait returns ok. *)
Lemma C7_cleanup_close_failure_ignored :
  let run := Wait 10 (new_SnapshotStreamWriter three_elements
                        cleanup_close_fails (Some 500) []) in
  nth_error (rev (trace (snd run))) 27
  = Some (EvClose InCleanup (chunk 0) (Error DATA_LOSS "close")) /\
  fst run = Some OkStatus /\
  map fst (committed_chunks (trace (snd run))) = [0; 1].
Proof. vm_compute. repeat split. Qed.

(** C7, amended: in every run of a new writer, a failure of WriteTensors, or
    of the Close that WriteRecord calls at the end of the sequence, is fatal:
    after it only the lock, Cancel and the Close of the cleanup are seen (no
    pull, no append, no rename), the chunk is not in the committed directory
    at the end, the thread stores that status, and Wait returns it unless a
    Cancel() got the mutex just before Wait read the status. *)
Theorem C7_sink_failure_fatal
    fuel iterator env max others newer ev older p element r :
  let run := Wait fuel (new_SnapshotStreamWriter iterator env max others) in
  trace (snd run) = newer ++ ev :: older ->
  ev = EvWriteTensors p element r \/ ev = EvClose InWriteRecord p r ->
  ok r = false ->
  Forall (fun x => quiet x = true) newer /\
  (forall src dst r', ~ In (EvRenameFile src dst r') newer) /\
  ~ In (Basename p) (map fst (committed_chunks (trace (snd run)))) /\
  fst run = Some (status_ (snd run)) /\
  status_ (snd run)
  = (if cancelled_at_last_lock (trace (snd run)) then cancelled else r).
Proof.
  cbv zeta. intros Htr Hev Hr.
  assert (Hf : failure ev = Some r)
    by (destruct Hev; subst ev; simpl; rewrite Hr; reflexivity).
  assert (Hp : chunk_of ev = Some p)
    by (destruct Hev; subst ev; reflexivity).
  destruct (failure_is_fatal fuel iterator env max others newer ev older r Htr Hf)
    as (Hall & _ & Ho & Hst & Hnot).
  split; [exact Hall | split; [|split; [exact (Hnot p Hp) | split;
                                          [exact Ho | exact Hst]]]].
  intros src dst r' Hin.
  rewrite Forall_forall in Hall. apply Hall in Hin. discriminate.
Qed.

Lemma C7_sink_failure_fatal_witness :
  let run := Wait 10 (new_SnapshotStreamWriter three_elements append_fails
                        (Some 500) []) in
  trace (snd run)
  = firstn 5 (trace (snd run))
    ++ EvWriteTensors (chunk 0) (elem 1 300) (Error DATA_LOSS "append")
       :: skipn 6 (trace (snd run)) /\
  fst run = Some (Error DATA_LOSS "append").
Proof.
  cbv zeta.
  set (run := Wait 10 (new_SnapshotStreamWriter three_elements append_fails
                         (Some 500) [])).
  assert (H : trace (snd run)
              = firstn 5 (trace (snd run))
                ++ EvWriteTensors (chunk 0) (elem 1 300) (Error DATA_LOSS "append")
                   :: skipn 6 (trace (snd run)))
    by (vm_compute; reflexivity).
  split; [exact H|].
  destruct (C7_sink_failure_fatal 10 three_elements append_fails (Some 500) []
              (firstn 5 (trace (snd run)))
              (EvWriteTensors (chunk 0) (elem 1 300) (Error DATA_LOSS "append"))
              (skipn 6 (trace (snd run)))
              (chunk 0) (elem 1 300) (Error DATA_LOSS "append")
              H (or_introl eq_refl) eq_refl) as (_ & _ & _ & Ho & Hst).
  fold run in Ho, Hst. rewrite Ho, Hst. vm_compute. reflexivity.
Defined.

Lemma CommitChunk_effect p w :
  let r := hd OkStatus (env_ w) in
  let s := fst (CommitChunk p w) in
  let w' := snd (CommitChunk p w) in
  s = r /\
  (exists newer,
      trace w' = newer ++ EvRenameFile p (JoinPath CommittedChunksDirectory
                                            (Basename p)) r :: trace w /\
      Forall (fun x => quiet x = true) newer) /\
  (ok r = true ->
   chunk_index_ w' = chunk_index_ w + 1 /\
   chunk_size_bytes_ w' = 0 /\
   committed_chunks (trace w')
   = committed_chunks (trace w) ++ [(Basename p, chunk_elements p (trace w))]) /\
  (ok r = false ->
   chunk_index_ w' = chunk_index_ w /\
   chunk_size_bytes_ w' = chunk_size_bytes_ w /\
   committed_chunks (trace w') = committed_chunks (trace w) /\
   uncommitted_chunks (trace w') = uncommitted_chunks (trace w)).
Proof.
  cbv zeta.
  change (wp (CommitChunk p)
            (fun s w' =>
               s = hd OkStatus (env_ w) /\
               (exists newer,
                   trace w' = newer ++ EvRenameFile p
                                (JoinPath CommittedChunksDirectory (Basename p))
                                (hd OkStatus (env_ w)) :: trace w /\
                   Forall (fun x => quiet x = true) newer) /\
               (ok (hd OkStatus (env_ w)) = true ->
                chunk_index_ w' = chunk_index_ w + 1 /\
                chunk_size_bytes_ w' = 0 /\
                committed_chunks (trace w')
                = committed_chunks (trace w)
                  ++ [(Basename p, chunk_elements p (trace w))]) /\
               (ok (hd OkStatus (env_ w)) = false ->
                chunk_index_ w' = chunk_index_ w /\
                chunk_size_bytes_ w' = chunk_size_bytes_ w /\
                committed_chunks (trace w') = committed_chunks (trace w) /\
                uncommitted_chunks (trace w') = uncommitted_chunks (trace w)))
            w).
  open_object w.
  wp_run; rewrite Hfile; simpl; (split; [reflexivity|]);
    (split; [|split; intros Hok; try discriminate; repeat split]).
  - exists [EvUnlock; EvLock]. split; [reflexivity | repeat constructor].
  - exists [EvUnlock; EvLock; EvCancel]. split; [reflexivity | repeat constructor].
  - exists []. split; [reflexivity | constructor].
Qed.

(** C8: CommitChunk returns the status of the rename.  When the rename
    succeeds, then, and after the rename, under the lock, chunk_index goes up
    by one and chunk_size_bytes goes to 0, and the chunk is in the committed
    directory.  When it fails, the two counters and the two directories are
    as before, and in every run of a new writer the failure is fatal: no
    second rename and no other pull or file operation follows but the Close
    of the cleanup, the chunk is not in the committed directory at the end,
    the thread stores the status, and Wait returns it unless a Cancel() got
    the mutex just before Wait read the status. *)
Theorem C8_commit_atomic :
  (forall p w,
      let r := hd OkStatus (env_ w) in
      let s := fst (CommitChunk p w) in
      let w' := snd (CommitChunk p w) in
      s = r /\
      (exists newer,
          trace w' = newer ++ EvRenameFile p (JoinPath CommittedChunksDirectory
                                                (Basename p)) r :: trace w /\
          Forall (fun x => quiet x = true) newer) /\
      (ok r = true ->
       chunk_index_ w' = chunk_index_ w + 1 /\
       chunk_size_bytes_ w' = 0 /\
       committed_chunks (trace w')
       = committed_chunks (trace w) ++ [(Basename p, chunk_elements p (trace w))]) /\
      (ok r = false ->
       chunk_index_ w' = chunk_index_ w /\
       chunk_size_bytes_ w' = chunk_size_bytes_ w /\
       committed_chunks (trace w') = committed_chunks (trace w) /\
       uncommitted_chunks (trace w') = uncommitted_chunks (trace w))) /\
  (forall fuel iterator env max others newer src dst r older,
      let run := Wait fuel (new_SnapshotStreamWriter iterator env max others) in
      trace (snd run) = newer ++ EvRenameFile src dst r :: older ->
      ok r = false ->
      Forall (fun x => quiet x = true) newer /\
      ~ In (Basename src) (map fst (committed_chunks (trace (snd run)))) /\
      fst run = Some (status_ (snd run)) /\
      status_ (snd run)
      = (if cancelled_at_last_lock (trace (snd run)) then cancelled else r)).
Proof.
  split.
  - exact CommitChunk_effect.
  - cbv zeta. intros fuel iterator env max others newer src dst r older Htr Hr.
    assert (Hf : failure (EvRenameFile src dst r) = Some r)
      by (simpl; rewrite Hr; reflexivity).
    destruct (failure_is_fatal fuel iterator env max others newer _ older r Htr Hf)
      as (Hall & _ & Ho & Hst & Hnot).
    split; [exact Hall | split; [exact (Hnot src eq_refl) | split;
                                   [exact Ho | exact Hst]]].
Qed.

Lemma C8_commit_atomic_witness :
  let run := Wait 10 (new_SnapshotStreamWriter three_elements rename_fails
                        (Some 500) []) in
  trace (snd run)
  = firstn 5 (trace (snd run))
    ++ EvRenameFile (chunk 0) (JoinPath CommittedChunksDirectory 0)
         (Error UNAVAILABLE "rename")
       :: skipn 6 (trace (snd run)) /\
  fst run = Some (Error UNAVAILABLE "rename") /\
  chunk_index_ (snd run) = 0 /\
  uncommitted_chunks (trace (snd run)) = [chunk 0].
Proof.
  cbv zeta.
  set (run := Wait 10 (new_SnapshotStreamWriter three_elements rename_fails
                         (Some 500) [])).
  assert (H : trace (snd run)
              = firstn 5 (trace (snd run))
                ++ EvRenameFile (chunk 0) (JoinPath CommittedChunksDirectory 0)
                     (Error UNAVAILABLE "rename")
                   :: skipn 6 (trace (snd run)))
    by (vm_compute; reflexivity).
  split; [exact H|].
  pose proof (proj2 C8_commit_atomic) as T.
  destruct (T 10%nat three_elements rename_fails (Some 500) []
              (firstn 5 (trace (snd run))) (chunk 0)
              (JoinPath CommittedChunksDirectory 0)
              (Error UNAVAILABLE "rename")
              (skipn 6 (trace (snd run))) H eq_refl) as (_ & _ & Ho & Hst).
  fold run in Ho, Hst. rewrite Ho, Hst. vm_compute. repeat split.
Defined.

(** ** The status cell *)

Ltac stopped := unfold Stopped in *; simpl in *; auto.

Lemma ShouldWriteRecord_stopped w :
  Stopped w -> wp ShouldWriteRecord (fun _ w' => Stopped w') w.
Proof. intros H. open_object w. wp_run; stopped. Qed.

Lemma ShouldWriteChunk_stopped w :
  Stopped w -> wp ShouldWriteChunk (fun _ w' => Stopped w') w.
Proof. intros H. open_object w. wp_run; stopped. Qed.

Lemma WriteRecord_stopped writer w :
  Stopped w -> wp (WriteRecord writer) (fun _ w' => Stopped w') w.
Proof. intros H. open_object w. wp_run; stopped. Qed.

Lemma WriteRecords_stopped fuel :
  forall writer w,
    Stopped w -> wp (WriteRecords fuel writer) (fun _ w' => Stopped w') w.
Proof.
  induction fuel as [|fuel IH]; intros writer w H; cbn [WriteRecords].
  - apply wp_ret. exact H.
  - apply wp_bind.
    eapply wp_mono; [apply ShouldWriteRecord_stopped; exact H|].
    cbv beta. intros b w1 H1. destruct b; [|apply wp_ret; exact H1].
    apply wp_bind.
    eapply wp_mono; [apply WriteRecord_stopped; exact H1|].
    cbv beta. intros s w2 H2.
    destruct s; cbn [ok]; [apply IH | apply wp_ret]; exact H2.
Qed.

Lemma WriteChunk_stopped fuel w :
  Stopped w -> wp (WriteChunk fuel) (fun _ w' => Stopped w') w.
Proof.
  intros H. unfold WriteChunk. open_object w.
  wp_run; try solve [stopped].
  all: (eapply wp_mono; [apply WriteRecords_stopped; stopped|]).
  all: cbv beta; intros o w1 H1; destruct o as [[|code message]|];
    open_object w1; fields; wp_run; stopped.
Qed.

Lemma WriteChunks_stopped fuel :
  forall w, Stopped w -> wp (WriteChunks fuel) (fun _ w' => Stopped w') w.
Proof.
  induction fuel as [|fuel IH]; intros w H; cbn [WriteChunks].
  - apply wp_ret. exact H.
  - apply wp_bind.
    eapply wp_mono; [apply ShouldWriteChunk_stopped; exact H|].
    cbv beta. intros b w1 H1. destruct b; [|apply wp_ret; exact H1].
    apply wp_bind.
    eapply wp_mono; [apply WriteChunk_stopped; exact H1|].
    cbv beta. intros o w2 H2.
    destruct o as [[|code message]|]; [apply IH | apply wp_ret | apply wp_ret];
      exact H2.
Qed.

Lemma WriteSnapshotFn_stopped fuel w :
  Stopped w -> wp (WriteSnapshotFn fuel) (fun _ w' => Stopped w') w.
Proof.
  intros H. unfold WriteSnapshotFn. open_object w.
  wp_run; try solve [stopped].
  all: (eapply wp_mono; [apply WriteChunks_stopped; stopped|]).
  all: cbv beta; intros o w1 H1; destruct o as [[|code message]|];
    open_object w1; fields; wp_run; stopped.
Qed.

Lemma snapshot_fn_stopped fuel w :
  Stopped w -> wp (snapshot_fn fuel) (fun _ w' => Stopped w') w.
Proof.
  intros H. unfold snapshot_fn. apply wp_bind.
  eapply wp_mono; [apply WriteSnapshotFn_stopped; exact H|].
  cbv beta. intros o w1 H1. destruct o as [[|code message]|];
    open_object w1; fields; wp_run; stopped.
Qed.

Lemma Wait_stopped fuel w :
  Stopped w ->
  wp (Wait fuel)
     (fun o w' => Stopped w' /\ forall s, o = Some s -> s = status_ w') w.
Proof.
  intros H. unfold Wait. apply wp_bind, wp_read. cbv beta. apply wp_bind.
  eapply wp_mono with (Q1 := fun _ w' => Stopped w').
  - destruct (snapshot_thread_ w);
      [apply snapshot_fn_stopped | apply wp_ret]; exact H.
  - cbv beta. intros o w1 H1. destruct o as [u|].
    + open_object w1. fields. wp_run; (split; [stopped|]);
        intros s Hs; inversion Hs; reflexivity.
    + apply wp_ret. split; [exact H1 | discriminate].
Qed.

(** C1, as stated, fails twice.  Cancel() stores the cancellation error over
    a recorded error: after a run that ended with the error of the iterator,
    which Wait returns, Cancel() makes the next Wait return the cancellation
    error.  And the error of the thread replaces a recorded cancellation: a
    Cancel() that gets the mutex just before the acquisition in WriteRecord
    is followed by the failure of GetNext, and Wait returns that failure. *)
Lemma C1_recorded_status_overwritten :
  let first := Wait 10 (new_SnapshotStreamWriter read_fails [] None []) in
  let second := Wait 10 (snd (Cancel (snd first))) in
  let raced := Wait 10 (new_SnapshotStreamWriter read_fails [] None
                          [false; false; false; true]) in
  (fst first = Some (Error DATA_LOSS "read") /\ fst second = Some cancelled) /\
  (nth_error (rev (trace (snd raced))) 8 = Some EvCancel /\
   nth_error (rev (trace (snd raced))) 10
   = Some (EvGetNext (GetNextError DATA_LOSS "read")) /\
   fst raced = Some (Error DATA_LOSS "read")).
Proof. vm_compute. repeat split. Qed.

Lemma status_reads w :
  fst (status w) = status_ (snd (status w)) /\
  (ok (status_ w) = false -> ok (fst (status w)) = false).
Proof.
  assert (H : wp status
                (fun s w' => s = status_ w' /\
                             (ok (status_ w) = false -> ok s = false)) w)
    by (open_object w; wp_run; split; auto).
  exact H.
Qed.

(** C1, amended: a recorded non-ok status is never set back to ok, but it
    can be replaced, the last write wins.  Cancel() stores the cancellation
    error whatever was recorded.  From an object whose status is not ok,
    whatever the thread still does, the status is not ok after Wait, and Wait
    and status() return the status recorded at that time.  In every run of a
    new writer the thread stores the status of its failure whatever was
    recorded (a cancellation, say), and Wait returns it unless a Cancel() got
    the mutex just before Wait read the status. *)
Theorem C1_status_not_back_to_ok :
  (forall w, status_ (snd (Cancel w)) = cancelled) /\
  (forall fuel w,
      ok (status_ w) = false ->
      ok (status_ (snd (Wait fuel w))) = false /\
      forall s, fst (Wait fuel w) = Some s ->
                s = status_ (snd (Wait fuel w)) /\ ok s = false) /\
  (forall w,
      fst (status w) = status_ (snd (status w)) /\
      (ok (status_ w) = false -> ok (fst (status w)) = false)) /\
  (forall fuel iterator env max others newer ev older r,
      let run := Wait fuel (new_SnapshotStreamWriter iterator env max others) in
      trace (snd run) = newer ++ ev :: older ->
      failure ev = Some r ->
      fst run = Some (status_ (snd run)) /\
      status_ (snd run)
      = (if cancelled_at_last_lock (trace (snd run)) then cancelled else r)).
Proof.
  split; [|split; [|split]].
  - intros w.
    assert (H : wp Cancel (fun _ w' => status_ w' = cancelled) w)
      by (open_object w; wp_run; reflexivity).
    exact H.
  - intros fuel w H.
    destruct (Wait_stopped fuel w H) as [Hs Ho].
    split; [exact Hs|].
    intros s E. pose proof (Ho s E) as Hst. split; [exact Hst|].
    rewrite Hst. exact Hs.
  - exact status_reads.
  - cbv zeta. intros fuel iterator env max others newer ev older r Htr Hf.
    destruct (failure_is_fatal fuel iterator env max others newer ev older r
                Htr Hf) as (_ & _ & Ho & Hst & _).
    split; [exact Ho | exact Hst].
Qed.

Lemma C1_status_not_back_to_ok_witness :
  let w := snd (Cancel (new_SnapshotStreamWriter three_elements [] (Some 500) [])) in
  ok (status_ w) = false /\
  ok (status_ (snd (Wait 10 w))) = false.
Proof.
  cbv zeta.
  assert (H : ok (status_ (snd (Cancel (new_SnapshotStreamWriter
                                          three_elements [] (Some 500) []))))
              = false) by (vm_compute; reflexivity).
  split; [exact H|].
  exact (proj1 (proj1 (proj2 C1_status_not_back_to_ok) 10%nat
                  (snd (Cancel (new_SnapshotStreamWriter
                                  three_elements [] (Some 500) []))) H)).
Defined.

(** ** Scenario B and the order of close and commit *)

(** C5: scenario B, with fuel 5 or more.  Wait returns ok; exactly two
    chunks are committed, chunk_0 with the first two elements (600 bytes: the
    guard 600 < 500 is false before a third write) and chunk_1 with the
    third; no chunk is left uncommitted; chunk_1 was closed by WriteRecord at
    the end of the sequence and then renamed. *)
Theorem C5_scenario_B (extra : nat) :
  let run := Wait (5 + extra) scenario_B in
  fst run = Some OkStatus /\
  committed_chunks (trace (snd run))
  = [(0, [elem 1 300; elem 2 300]); (1, [elem 3 300])] /\
  uncommitted_chunks (trace (snd run)) = [] /\
  total_bytes [elem 1 300; elem 2 300] = 600 /\
  end_of_sequence_ (snd run) = true /\
  chunk_history (chunk 1) (trace (snd run))
  = [EvInitialize (chunk 1) OkStatus;
     EvWriteTensors (chunk 1) (elem 3 300) OkStatus;
     EvClose InWriteRecord (chunk 1) OkStatus;
     EvRenameFile (chunk 1) (committed_path 1) OkStatus;
     EvClose InCleanup (chunk 1) OkStatus].
Proof. vm_compute. repeat split. Qed.

(** C2 fails on the code: in scenario B chunk_0 is left by the size guard, and
    its file is renamed into the committed directory while its writer is
    still open; the Close of the cleanup comes after the rename.  The same
    when the record loop is left because of a Cancel(). *)
Theorem C2_rotated_chunk_renamed_before_close :
  chunk_history (chunk 0) (trace (snd (Wait 10 scenario_B)))
  = [EvInitialize (chunk 0) OkStatus;
     EvWriteTensors (chunk 0) (elem 1 300) OkStatus;
     EvWriteTensors (chunk 0) (elem 2 300) OkStatus;
     EvRenameFile (chunk 0) (committed_path 0) OkStatus;
     EvClose InCleanup (chunk 0) OkStatus] /\
  chunk_history (chunk 0)
    (trace (snd (Wait 10 (new_SnapshotStreamWriter three_elements []
                            (Some 500) cancel_after_first_record))))
  = [EvInitialize (chunk 0) OkStatus;
     EvWriteTensors (chunk 0) (elem 1 300) OkStatus;
     EvRenameFile (chunk 0) (committed_path 0) OkStatus;
     EvClose InCleanup (chunk 0) OkStatus].
Proof. vm_compute. split; reflexivity. Qed.

(** ** Runs without failure and without cancellation *)

Ltac open_clean w :=
  let He := fresh "He" in let Ho := fresh "Ho" in let Hs := fresh "Hs" in
  let Hm := fresh "Hm" in let Hf := fresh "Hf" in let Hi := fresh "Hi" in
  match goal with
  | H : Draining _ _ _ w |- _ => destruct H as (He & Ho & Hs & Hm & Hf & Hi)
  | H : Drained _ _ w |- _ => destruct H as (He & Ho & Hs & Hm & Hf & Hi)
  end;
  let env := fresh "env" in let capw := fresh "capw" in
  let it := fresh "it" in let th := fresh "th" in
  let st := fresh "st" in let eos := fresh "eos" in
  let idx := fresh "idx" in let size := fresh "size" in
  let oth := fresh "oth" in let tr := fresh "tr" in
  destruct w as [env capw it th st eos idx size oth tr];
  unfold current_chunk in *;
  cbn [env_ max_chunk_size_bytes_ iterator_ snapshot_thread_ status_
       end_of_sequence_ chunk_index_ chunk_size_bytes_ other_threads trace] in *;
  subst env oth st capw eos it.

Ltac subst_lhs H := match type of H with ?x = _ => subst x end.

Ltac clean := unfold Draining, Drained; simpl; repeat split; auto.

Section CleanRun.

Variable cap : Z.
Variable rest : list GetNextResult.
Hypothesis cap_positive : 0 < cap.

Lemma WriteRecords_drained fuel writer w :
  Drained cap rest w ->
  wp (WriteRecords (S fuel) writer)
     (fun o w' => o = Some OkStatus /\ Drained cap rest w' /\
                  chunk_index_ w' = chunk_index_ w /\
                  trace w' = EvUnlock :: EvLock :: trace w) w.
Proof.
  intros HD. cbn [WriteRecords]. open_clean w.
  wp_run. rewrite andb_false_r. wp_run. clean.
Qed.

Lemma WriteRecords_clean fuel :
  forall es writer w,
    Draining cap rest es w ->
    (length es + 2 <= fuel)%nat ->
    wp (WriteRecords fuel writer)
       (fun o w' =>
          o = Some OkStatus /\ chunk_index_ w' = chunk_index_ w /\
          exists es1 es2,
            es = es1 ++ es2 /\
            pulled (trace w') = pulled (trace w) ++ es1 /\
            ((Drained cap rest w' /\ es2 = [] /\
              exists older,
                trace w' = EvUnlock :: EvLock
                           :: EvClose InWriteRecord writer OkStatus
                           :: EvUnlock :: EvGetNext EndOfSequence :: older) \/
             (Draining cap rest es2 w' /\
              (chunk_size_bytes_ w < cap -> es1 <> [])))) w.
Proof.
  induction fuel as [|fuel IH]; intros es writer w HD Hfuel; [lia|].
  cbn [WriteRecords]. open_clean w.
  wp_run. destruct (size <? cap) eqn:Hlt.
  - destruct es as [|e es]; simpl map; simpl app; wp_run.
    + destruct fuel as [|fuel]; [simpl in Hfuel; lia|].
      eapply wp_mono; [apply WriteRecords_drained; clean|].
      cbv beta. fields. intros o w1 (Ho & HD1 & Hidx & Htr).
      split; [exact Ho | split; [exact Hidx|]].
      exists [], []. split; [reflexivity|]. split.
      * rewrite Htr. simpl. rewrite app_nil_r. reflexivity.
      * left. split; [exact HD1 | split; [reflexivity|]].
        eexists. rewrite Htr. reflexivity.
    + eapply wp_mono; [apply (IH es); [clean | simpl in Hfuel; lia]|].
      cbv beta. fields.
      intros o w1 (Ho & Hidx & es1 & es2 & Hes & Hp & Hcase).
      split; [exact Ho | split; [exact Hidx|]].
      exists (e :: es1), es2. split; [simpl; rewrite Hes; reflexivity|]. split.
      * rewrite Hp. simpl. rewrite <- app_assoc. reflexivity.
      * destruct Hcase as [Hc | [Hc _]]; [left; exact Hc | right].
        split; [exact Hc | discriminate].
  - wp_run. split; [reflexivity | split; [reflexivity|]].
    exists [], es. split; [reflexivity|]. split.
    + simpl. rewrite app_nil_r. reflexivity.
    + right. split; [clean|]. apply Z.ltb_ge in Hlt. lia.
Qed.

Lemma WriteChunk_clean fuel es w :
  Draining cap rest es w ->
  chunk_size_bytes_ w = 0 ->
  (length es + 2 <= fuel)%nat ->
  wp (WriteChunk fuel)
     (fun o w' =>
        o = Some OkStatus /\ chunk_size_bytes_ w' = 0 /\
        chunk_index_ w' = chunk_index_ w + 1 /\
        exists es1 es2,
          es = es1 ++ es2 /\
          pulled (trace w') = pulled (trace w) ++ es1 /\
          ((Drained cap rest w' /\ es2 = [] /\
            exists older,
              trace w' = end_of_sequence_tail (current_chunk w) ++ older) \/
           (Draining cap rest es2 w' /\ es1 <> []))) w.
Proof.
  intros HD Hsize Hfuel. unfold WriteChunk. open_clean w. subst_lhs Hsize.
  wp_run.
  eapply wp_mono; [apply (WriteRecords_clean fuel es); [clean | exact Hfuel]|].
  cbv beta. fields.
  intros o w1 (Ho & Hidx & es1 & es2 & Hes & Hp & Hcase). subst o.
  destruct Hcase as [(HD1 & Hes2 & older & Htr) | (HD1 & Hne)];
    open_clean w1; same_vars; fields; wp_run;
    (split; [reflexivity | split; [reflexivity | split; [reflexivity|]]]);
    exists es1, es2; (split; [exact Hes|]); (split; [simpl; exact Hp|]).
  - left. split; [clean | split; [exact Hes2|]].
    eexists. rewrite Htr.
    unfold end_of_sequence_tail, committed_path. simpl. reflexivity.
  - right. split; [clean | apply Hne; exact cap_positive].
Qed.

Lemma WriteChunks_drained fuel w :
  Drained cap rest w ->
  wp (WriteChunks (S fuel))
     (fun o w' => o = Some OkStatus /\ Drained cap rest w' /\
                  chunk_index_ w' = chunk_index_ w /\
                  trace w' = EvUnlock :: EvLock :: trace w) w.
Proof.
  intros HD. cbn [WriteChunks]. open_clean w. wp_run. clean.
Qed.

Lemma WriteChunks_clean fuel :
  forall es w,
    Draining cap rest es w ->
    chunk_size_bytes_ w = 0 ->
    (length es + 3 <= fuel)%nat ->
    wp (WriteChunks fuel)
       (fun o w' =>
          o = Some OkStatus /\ Drained cap rest w' /\
          pulled (trace w') = pulled (trace w) ++ es /\
          exists older,
            trace w' = EvUnlock :: EvLock
                       :: end_of_sequence_tail (chunk (chunk_index_ w' - 1))
                       ++ older) w.
Proof.
  induction fuel as [|fuel IH]; intros es w HD Hsize Hfuel; [lia|].
  cbn [WriteChunks]. open_clean w. subst_lhs Hsize. wp_run.
  eapply wp_mono; [apply (WriteChunk_clean fuel es); [clean | reflexivity | lia]|].
  cbv beta. fields.
  intros o w1 (Ho & Hsize1 & Hidx & es1 & es2 & Hes & Hp & Hcase). subst o.
  cbv iota.
  destruct Hcase as [(HD1 & Hes2 & older & Htr) | (HD1 & Hne)].
  - destruct fuel as [|fuel]; [lia|].
    eapply wp_mono; [apply WriteChunks_drained; exact HD1|].
    cbv beta. intros o w2 (Ho & HD2 & Hidx2 & Htr2).
    split; [exact Ho | split; [exact HD2 | split]].
    + rewrite Htr2. simpl. rewrite Hp. simpl.
      rewrite Hes, Hes2, app_nil_r. reflexivity.
    + exists older. rewrite Htr2, Htr, Hidx2, Hidx.
      unfold current_chunk, chunk. simpl chunk_index_.
      replace (idx + 1 - 1) with idx by lia. reflexivity.
  - assert (Hlen : (length es2 < length es)%nat).
    { rewrite Hes, length_app. destruct es1; [congruence | simpl; lia]. }
    eapply wp_mono; [apply (IH es2); [exact HD1 | exact Hsize1 | lia]|].
    cbv beta. intros o w2 (Ho & HD2 & Hp2 & Htr2).
    split; [exact Ho | split; [exact HD2 | split; [|exact Htr2]]].
    rewrite Hp2, Hp. simpl. rewrite Hes, app_assoc. reflexivity.
Qed.

Lemma Wait_clean fuel es w :
  Draining cap rest es w ->
  chunk_size_bytes_ w = 0 ->
  snapshot_thread_ w = true ->
  (length es + 3 <= fuel)%nat ->
  wp (Wait fuel)
     (fun o w' =>
        o = Some OkStatus /\ Drained cap rest w' /\
        pulled (trace w') = pulled (trace w) ++ es /\
        exists older,
          trace w' = [EvUnlock; EvLock; EvUnlock; EvLock; EvUnlock; EvLock]
                     ++ end_of_sequence_tail (chunk (chunk_index_ w' - 1))
                     ++ older) w.
Proof.
  intros HD Hsize Hth Hfuel.
  unfold Wait, snapshot_fn, WriteSnapshotFn. open_clean w.
  subst_lhs Hsize. subst_lhs Hth.
  wp_run.
  eapply wp_mono; [apply (WriteChunks_clean fuel es); [clean | reflexivity | lia]|].
  cbv beta. fields. intros o w1 (Ho & HD1 & Hp & older & Htr). subst o.
  open_clean w1. subst_lhs Htr. fields. wp_run.
  split; [reflexivity | split; [clean | split; [simpl; exact Hp|]]].
  exists older. reflexivity.
Qed.

End CleanRun.

Lemma committed_chunks_at newer src index older :
  In (index, chunk_elements src older)
     (committed_chunks
        (newer ++ EvRenameFile src (committed_path index) OkStatus :: older)).
Proof.
  induction newer as [|ev newer IH]; simpl.
  - apply in_or_app. right. left. reflexivity.
  - destruct ev; simpl; try exact IH.
    destruct r; [|exact IH].
    destruct (Dir_eqb (Dirname dst) CommittedChunksDirectory); [|exact IH].
    apply in_or_app. left. exact IH.
Qed.

(** X17: the end of the sequence in a run without failure.  The iterator
    produces [elements] (none, or more) and then reports the end of the
    sequence, no file operation fails, nobody cancels, and the cap is
    positive.  Then, with fuel enough for the loops (3 more than there are
    elements), Wait returns ok; the chunk that was open when the end was
    reported, the one before the final chunk_index, was closed by WriteRecord
    first and renamed into the committed directory after that, then closed
    once more by the cleanup; it is among the committed chunks; the
    committed chunks hold all the elements, in order. *)
Theorem end_of_sequence_closes_then_commits elements rest max fuel :
  0 < max ->
  (length elements + 3 <= fuel)%nat ->
  let run := Wait fuel (new_SnapshotStreamWriter
                          (map Produced elements ++ EndOfSequence :: rest)
                          [] (Some max) []) in
  let w := snd run in
  let tail := chunk (chunk_index_ w - 1) in
  fst run = Some OkStatus /\
  end_of_sequence_ w = true /\
  pulled (trace w) = elements /\
  (exists older,
      trace w = [EvUnlock; EvLock; EvUnlock; EvLock; EvUnlock; EvLock]
                ++ end_of_sequence_tail tail ++ older) /\
  (exists content,
      In (chunk_index_ w - 1, content) (committed_chunks (trace w))) /\
  concat (map snd (committed_chunks (trace w))) = elements.
Proof.
  intros Hmax Hfuel. cbv zeta.
  set (w0 := new_SnapshotStreamWriter
               (map Produced elements ++ EndOfSequence :: rest) [] (Some max) []).
  assert (HD : Draining max rest elements w0) by (unfold w0; clean).
  destruct (Wait_clean max rest Hmax fuel elements w0 HD eq_refl eq_refl Hfuel)
    as (Ho & HD1 & Hp & older & Htr).
  destruct (Wait_new fuel (map Produced elements ++ EndOfSequence :: rest)
              [] (Some max) []) as [HI Hw].
  fold w0 in HI, Hw.
  set (run := Wait fuel w0) in *.
  simpl in Hp.
  split; [exact Ho|].
  split; [apply HD1|].
  split; [exact Hp|].
  split; [exists older; exact Htr|].
  split.
  - eexists. rewrite Htr. unfold end_of_sequence_tail.
    apply (committed_chunks_at
             [EvUnlock; EvLock; EvUnlock; EvLock; EvUnlock; EvLock;
              EvClose InCleanup (chunk (chunk_index_ (snd run) - 1)) OkStatus;
              EvUnlock; EvLock]).
  - unfold waited in Hw. destruct Hw as [_ Hw].
    destruct (first_failure (trace (snd run))) as [e|] eqn:Hfail.
    + apply first_failure_error in Hfail. rewrite Ho in Hw.
      inversion Hw as [He].
      destruct (cancelled_at_last_lock (trace (snd run)));
        [discriminate He | rewrite <- He in Hfail; discriminate Hfail].
    + destruct Hw as [[Hpw _] [Hnone | HQ]]; [congruence|].
      pose proof (inv_order _ _ HI) as Hord.
      unfold Quiescent in HQ. rewrite HQ, app_nil_r in Hord.
      rewrite Hord, <- Hpw. exact Hp.
Qed.

Lemma end_of_sequence_closes_then_commits_witness :
  0 < 500 /\ (length (@nil Element) + 3 <= 3)%nat /\
  fst (Wait 3 (new_SnapshotStreamWriter
                 (map Produced [] ++ EndOfSequence :: []) [] (Some 500) []))
  = Some OkStatus /\
  committed_chunks
    (trace (snd (Wait 3 (new_SnapshotStreamWriter [EndOfSequence] []
                           (Some 500) []))))
  = [(0, [])].
Proof.
  assert (H1 : 0 < 500) by lia.
  assert (H2 : (length (@nil Element) + 3 <= 3)%nat) by (simpl; lia).
  split; [exact H1 | split; [exact H2 | split]].
  - exact (proj1 (end_of_sequence_closes_then_commits [] [] 500 3 H1 H2)).
  - vm_compute. reflexivity.
Defined.

(** ** Wait, once more *)

Lemma Wait_joined fuel w :
  wp (Wait fuel)
     (fun o w' => forall s, o = Some s ->
                            snapshot_thread_ w' = false /\ s = status_ w') w.
Proof.
  unfold Wait. apply wp_bind, wp_read. cbv beta. apply wp_bind.
  eapply wp_mono with (Q1 := fun _ _ => True); [unfold wp; exact I|].
  cbv beta. intros o w1 _. destruct o as [u|].
  - open_object w1. fields. wp_run;
      intros s Hs; inversion Hs; split; reflexivity.
  - apply wp_ret. discriminate.
Qed.

Lemma Wait_again fuel w :
  snapshot_thread_ w = false ->
  wp (Wait fuel)
     (fun o w' =>
        o = Some (if hd false (other_threads w) then cancelled else status_ w) /\
        calls (trace w') = calls (trace w) /\
        iterator_ w' = iterator_ w /\ env_ w' = env_ w /\
        chunk_index_ w' = chunk_index_ w /\
        snapshot_thread_ w' = false) w.
Proof.
  intros Hth. unfold Wait. open_object w. subst th.
  wp_run; rewrite Hcancel; repeat split.
Qed.

(** X1: Wait is idempotent.  Once a call of Wait has returned, the thread is
    joined and gone: another call, with whatever fuel, runs nothing of the
    thread (no file operation, no pull, the same iterator, environment and
    chunk index) and returns the same status, or the cancellation error when
    a Cancel() got the mutex just before it read the status. *)
Theorem Wait_idempotent fuel fuel' w s :
  fst (Wait fuel w) = Some s ->
  let first := snd (Wait fuel w) in
  let again := Wait fuel' first in
  fst again
  = Some (if hd false (other_threads first) then cancelled else s) /\
  calls (trace (snd again)) = calls (trace first) /\
  iterator_ (snd again) = iterator_ first /\
  env_ (snd again) = env_ first /\
  chunk_index_ (snd again) = chunk_index_ first.
Proof.
  intros Hs. cbv zeta.
  destruct (Wait_joined fuel w s Hs) as [Hth Hst].
  destruct (Wait_again fuel' (snd (Wait fuel w)) Hth)
    as (Ho & Hc & Hi & He & Hx & _).
  rewrite <- Hst in Ho. auto.
Qed.

Lemma Wait_idempotent_witness :
  fst (Wait 10 scenario_B) = Some OkStatus /\
  fst (Wait 0 (snd (Wait 10 scenario_B))) = Some OkStatus.
Proof.
  assert (H : fst (Wait 10 scenario_B) = Some OkStatus)
    by (vm_compute; reflexivity).
  split; [exact H|].
  exact (proj1 (Wait_idempotent 10 0 scenario_B OkStatus H)).
Defined.

Lemma Cancel_sets w :
  wp Cancel
     (fun _ w' => status_ w' = cancelled /\
                  snapshot_thread_ w' = snapshot_thread_ w /\
                  calls (trace w') = calls (trace w)) w.
Proof. open_object w. wp_run; repeat split. Qed.

Lemma Wait_cancelled fuel w :
  snapshot_thread_ w = false -> status_ w = cancelled ->
  wp (Wait fuel) (fun o _ => o = Some cancelled) w.
Proof.
  intros Hth Hst. unfold Wait. open_object w. subst th st.
  wp_run; reflexivity.
Qed.

Lemma status_cancelled w :
  status_ w = cancelled ->
  wp status (fun s w' => s = cancelled /\ calls (trace w') = calls (trace w)) w.
Proof. intros Hst. open_object w. subst st. wp_run; split; reflexivity. Qed.

(** X2: Cancel() after the end.  Once Wait has returned, with whatever
    status, ok or not, a Cancel() makes status() and every later Wait return
    the cancellation error; no file operation and no pull is made for it. *)
Theorem Cancel_after_Wait fuel fuel' w s :
  fst (Wait fuel w) = Some s ->
  let w1 := snd (Cancel (snd (Wait fuel w))) in
  fst (Wait fuel' w1) = Some cancelled /\
  fst (status w1) = cancelled /\
  calls (trace (snd (Wait fuel' w1))) = calls (trace (snd (Wait fuel w))) /\
  calls (trace (snd (status w1))) = calls (trace (snd (Wait fuel w))).
Proof.
  intros Hs. cbv zeta.
  destruct (Wait_joined fuel w s Hs) as [Hth _].
  destruct (Cancel_sets (snd (Wait fuel w))) as (Hst & Hth1 & Hc).
  rewrite Hth in Hth1.
  destruct (status_cancelled _ Hst) as [Hread Hcalls].
  split; [exact (Wait_cancelled fuel' _ Hth1 Hst) | split; [exact Hread | split]].
  - destruct (Wait_again fuel' _ Hth1) as (_ & Hc' & _). congruence.
  - congruence.
Qed.

Lemma Cancel_after_Wait_witness :
  fst (Wait 10 scenario_B) = Some OkStatus /\
  fst (Wait 10 (snd (Cancel (snd (Wait 10 scenario_B))))) = Some cancelled /\
  fst (status (snd (Cancel (snd (Wait 10 scenario_B))))) = cancelled.
Proof.
  assert (H : fst (Wait 10 scenario_B) = Some OkStatus)
    by (vm_compute; reflexivity).
  split; [exact H | split].
  - exact (proj1 (Cancel_after_Wait 10 10 scenario_B OkStatus H)).
  - exact (proj1 (proj2 (Cancel_after_Wait 10 10 scenario_B OkStatus H))).
Defined.

(** ** The mutex *)

Lemma lock_discipline_mutex_at newer ev older :
  lock_discipline (newer ++ ev :: older) = true ->
  (ev = EvLock -> held older = false) /\
  (ev = EvUnlock -> held older = true).
Proof.
  induction newer as [|x newer IH]; simpl.
  - intros H. apply andb_prop in H. destruct H as [_ H].
    split; intros E; subst ev; [apply negb_true_iff|]; exact H.
  - intros H. apply andb_prop in H. destruct H as [H _]. auto.
Qed.

Lemma held_released newer older :
  held (newer ++ EvLock :: older) = false -> In EvUnlock newer.
Proof.
  induction newer as [|x newer IH]; simpl; [discriminate|].
  destruct x; try discriminate; auto.
Qed.

(** X3: the mutex is balanced.  In every run of a new writer, whatever
    fails and whoever cancels, the writer takes the mutex only when it does
    not hold it, releases it only when it holds it, releases it after every
    acquisition, also when GetNext fails in the scope of the lock, and does
    not hold it when Wait returns or the fuel runs out. *)
Theorem mutex_balanced fuel iterator env max others newer ev older :
  let run := Wait fuel (new_SnapshotStreamWriter iterator env max others) in
  trace (snd run) = newer ++ ev :: older ->
  held (trace (snd run)) = false /\
  (ev = EvLock -> held older = false /\ In EvUnlock newer) /\
  (ev = EvUnlock -> held older = true).
Proof.
  cbv zeta. intros Htr.
  destruct (Wait_new fuel iterator env max others) as [HI _].
  pose proof (inv_free _ _ HI) as Hfree.
  pose proof (inv_discipline _ _ HI) as Hd. rewrite Htr in Hd.
  destruct (lock_discipline_mutex_at newer ev older Hd) as [Hl Hu].
  split; [exact Hfree | split; [|exact Hu]].
  intros E. split; [exact (Hl E)|].
  subst ev. rewrite Htr in Hfree. exact (held_released newer older Hfree).
Qed.

Lemma mutex_balanced_witness :
  let run := Wait 10 (new_SnapshotStreamWriter read_fails [] None []) in
  trace (snd run)
  = firstn 7 (trace (snd run)) ++ EvLock :: skipn 8 (trace (snd run)) /\
  In EvUnlock (firstn 7 (trace (snd run))).
Proof.
  cbv zeta.
  assert (H : trace (snd (Wait 10 (new_SnapshotStreamWriter read_fails [] None [])))
              = firstn 7 (trace (snd (Wait 10 (new_SnapshotStreamWriter
                                                 read_fails [] None []))))
                ++ EvLock
                :: skipn 8 (trace (snd (Wait 10 (new_SnapshotStreamWriter
                                                   read_fails [] None [])))))
    by (vm_compute; reflexivity).
  split; [exact H|].
  exact (proj2 (proj1 (proj2 (mutex_balanced 10 read_fails [] None []
                                (firstn 7 (trace (snd (Wait 10 (new_SnapshotStreamWriter
                                                                  read_fails [] None [])))))
                                EvLock
                                (skipn 8 (trace (snd (Wait 10 (new_SnapshotStreamWriter
                                                                 read_fails [] None [])))))
                                H)) eq_refl)).
Defined.

(** ** Failures before a chunk is written *)

(** Symbolic execution that also decides whether a cancellation is ok. *)
Ltac wp_run_status :=
  repeat first [ wp_step | progress (unfold errors_Cancelled; cbn [ok]) ].

(** X4: a failure of CreateChunksDirectory ends the run at once.  In every
    run of a new writer whose first file operation fails, with whatever fuel,
    that call is the only one that leaves the writer: no chunk is opened, the
    iterator is not touched, and Wait returns the error of the call, or the
    cancellation error when a Cancel() got the mutex just before Wait read
    the status. *)
Theorem CreateChunksDirectory_failure
    fuel iterator code message env max others :
  let run := Wait fuel (new_SnapshotStreamWriter
                          iterator (Error code message :: env) max others) in
  calls (trace (snd run))
  = [EvRecursivelyCreateDir UncommittedChunksDirectory (Error code message)] /\
  iterator_ (snd run) = iterator /\
  env_ (snd run) = env /\
  chunk_index_ (snd run) = 0 /\
  fst run = Some (if hd false (tl others) then cancelled
                  else Error code message).
Proof.
  cbv zeta.
  assert (H : wp (Wait fuel)
                (fun o w' =>
                   calls (trace w')
                   = [EvRecursivelyCreateDir UncommittedChunksDirectory
                        (Error code message)] /\
                   iterator_ w' = iterator /\ env_ w' = env /\
                   chunk_index_ w' = 0 /\
                   o = Some (if hd false (tl others) then cancelled
                             else Error code message))
                (new_SnapshotStreamWriter
                   iterator (Error code message :: env) max others)).
  { unfold Wait, snapshot_fn, WriteSnapshotFn, new_SnapshotStreamWriter.
    wp_run; inversion Hfile; rewrite ?Hcancel0; repeat split. }
  exact H.
Qed.

(** X5: a writer that is stopped before its thread looks at the status, by
    a Cancel() say, writes nothing.  The thread still creates the chunks
    directory, which is the only call that leaves the writer; the guard of
    the chunk loop is closed at once: no chunk is opened, nothing is pulled,
    the chunk index stays, and Wait returns a status that is not ok. *)
Theorem stopped_before_start fuel w :
  ok (status_ w) = false ->
  snapshot_thread_ w = true ->
  let run := Wait (S fuel) w in
  calls (trace (snd run))
  = calls (trace w)
    ++ [EvRecursivelyCreateDir UncommittedChunksDirectory (hd OkStatus (env_ w))] /\
  iterator_ (snd run) = iterator_ w /\
  chunk_index_ (snd run) = chunk_index_ w /\
  exists s, fst run = Some s /\ ok s = false.
Proof.
  intros Hst Hth. cbv zeta.
  assert (H : wp (Wait (S fuel))
                (fun o w' =>
                   calls (trace w')
                   = calls (trace w)
                     ++ [EvRecursivelyCreateDir UncommittedChunksDirectory
                           (hd OkStatus (env_ w))] /\
                   iterator_ w' = iterator_ w /\
                   chunk_index_ w' = chunk_index_ w /\
                   exists s, o = Some s /\ ok s = false) w).
  { unfold Wait, snapshot_fn, WriteSnapshotFn. cbn [WriteChunks].
    open_object w. subst th.
    destruct st as [|code message]; [discriminate|]. destruct eos.
    all: wp_run_status; rewrite Hfile; repeat split; eexists; split; reflexivity. }
  exact H.
Qed.

Lemma stopped_before_start_witness :
  let w := snd (Cancel (new_SnapshotStreamWriter three_elements [] (Some 500) [])) in
  ok (status_ w) = false /\ snapshot_thread_ w = true /\
  iterator_ (snd (Wait 1 w)) = three_elements.
Proof.
  cbv zeta.
  assert (H1 : ok (status_ (snd (Cancel (new_SnapshotStreamWriter
                                           three_elements [] (Some 500) []))))
               = false) by (vm_compute; reflexivity).
  assert (H2 : snapshot_thread_ (snd (Cancel (new_SnapshotStreamWriter
                                                three_elements [] (Some 500) [])))
               = true) by (vm_compute; reflexivity).
  split; [exact H1 | split; [exact H2|]].
  exact (proj1 (proj2 (stopped_before_start 0
                         (snd (Cancel (new_SnapshotStreamWriter
                                         three_elements [] (Some 500) [])))
                         H1 H2))).
Defined.

(** ** A cap that is not positive *)

Ltac open_spinning w :=
  let He := fresh "He" in let Ho := fresh "Ho" in let Hs := fresh "Hs" in
  let Hf := fresh "Hf" in let Hz := fresh "Hz" in let Hm := fresh "Hm" in
  match goal with
  | H : Spinning w |- _ => destruct H as (He & Ho & Hs & Hf & Hz & Hm)
  end;
  open_object w;
  match goal with
  | He : ?env = [], Ho : ?oth = [], Hs : ?st = OkStatus, Hf : ?eos = false,
    Hz : ?size = 0, Hm : ?cap <= 0 |- _ =>
      subst env oth st eos size;
      assert (Hguard : (0 <? cap) = false) by (apply Z.ltb_ge; exact Hm)
  end.

Ltac spinning := unfold Spinning; simpl; repeat split; auto.

Lemma WriteChunk_spin fuel w :
  Spinning w ->
  wp (WriteChunk (S fuel))
     (fun o w' => o = Some OkStatus /\ Spinning w' /\
                  chunk_index_ w' = chunk_index_ w + 1 /\
                  iterator_ w' = iterator_ w /\
                  pulled (trace w') = pulled (trace w)) w.
Proof.
  intros HS. unfold WriteChunk. cbn [WriteRecords]. open_spinning w.
  wp_run. rewrite Hguard. wp_run. spinning.
Qed.

Lemma WriteChunk_starved w :
  Spinning w ->
  wp (WriteChunk 0)
     (fun o w' => o = None /\ chunk_index_ w' = chunk_index_ w /\
                  iterator_ w' = iterator_ w /\
                  pulled (trace w') = pulled (trace w)) w.
Proof.
  intros HS. unfold WriteChunk. cbn [WriteRecords]. open_spinning w.
  wp_run. repeat split.
Qed.

Lemma WriteChunks_spin fuel :
  forall w,
    Spinning w ->
    wp (WriteChunks fuel)
       (fun o w' => o = None /\
                    chunk_index_ w' = chunk_index_ w + Z.of_nat (pred fuel) /\
                    iterator_ w' = iterator_ w /\
                    pulled (trace w') = pulled (trace w)) w.
Proof.
  induction fuel as [|fuel IH]; intros w HS; cbn [WriteChunks].
  - apply wp_ret. simpl. repeat split. lia.
  - apply wp_bind.
    eapply wp_mono with
      (Q1 := fun b w1 => b = true /\ Spinning w1 /\
                         chunk_index_ w1 = chunk_index_ w /\
                         iterator_ w1 = iterator_ w /\
                         pulled (trace w1) = pulled (trace w)).
    { open_spinning w. wp_run. spinning. }
    cbv beta. intros b w1 (Hb & HS1 & Hidx1 & Hit1 & Hp1). subst b.
    apply wp_bind. destruct fuel as [|fuel].
    + eapply wp_mono; [apply WriteChunk_starved; exact HS1|].
      cbv beta. intros o w2 (Ho & Hidx2 & Hit2 & Hp2). subst o.
      apply wp_ret. simpl.
      split; [reflexivity | split; [lia | split; congruence]].
    + eapply wp_mono; [apply WriteChunk_spin; exact HS1|].
      cbv beta. intros o w2 (Ho & HS2 & Hidx2 & Hit2 & Hp2). subst o.
      eapply wp_mono; [apply IH; exact HS2|].
      cbv beta. intros o w3 (Ho & Hidx3 & Hit3 & Hp3).
      split; [exact Ho | split; [|split; congruence]].
      rewrite Hidx3, Hidx2, Hidx1. simpl pred. lia.
Qed.

Lemma Wait_spin fuel w :
  Spinning w -> snapshot_thread_ w = true ->
  wp (Wait fuel)
     (fun o w' => o = None /\
                  chunk_index_ w' = chunk_index_ w + Z.of_nat (pred fuel) /\
                  iterator_ w' = iterator_ w /\
                  pulled (trace w') = pulled (trace w)) w.
Proof.
  intros HS Hth. unfold Wait, snapshot_fn, WriteSnapshotFn.
  apply wp_bind, wp_read. rewrite Hth. apply wp_bind, wp_bind, wp_bind.
  eapply wp_mono with
    (Q1 := fun s w1 => s = OkStatus /\ Spinning w1 /\
                       chunk_index_ w1 = chunk_index_ w /\
                       iterator_ w1 = iterator_ w /\
                       pulled (trace w1) = pulled (trace w)).
  { open_spinning w. wp_run. spinning. }
  cbv beta. intros s w1 (Hs & HS1 & Hidx1 & Hit1 & Hp1). subst s. cbn [ok].
  apply wp_bind.
  eapply wp_mono; [apply WriteChunks_spin; exact HS1|].
  cbv beta. intros o w2 (Ho & Hidx2 & Hit2 & Hp2). subst o.
  wp_run. split; [reflexivity | split; [|split]]; congruence.
Qed.

(** X6: a cap that is not positive lets no record in, and the run does not
    end.  Without failure and without cancellation, ShouldWriteRecord is
    false at once in every chunk, since its size 0 is not below the cap; the
    chunk is committed empty, and ShouldWriteChunk is true again, since the
    end of the sequence can only be reported by a pull.  With whatever fuel
    the loops are still running when it runs out; the iterator was never
    pulled from, and one empty chunk is committed for each round of the chunk
    loop that the fuel allows. *)
Theorem nonpositive_cap_never_ends fuel iterator max :
  max <= 0 ->
  let run := Wait fuel (new_SnapshotStreamWriter iterator [] (Some max) []) in
  fst run = None /\
  iterator_ (snd run) = iterator /\
  pulled (trace (snd run)) = [] /\
  map fst (committed_chunks (trace (snd run))) = indices (Z.of_nat (pred fuel)) /\
  concat (map snd (committed_chunks (trace (snd run)))) = [].
Proof.
  intros Hmax. cbv zeta.
  assert (HS : Spinning (new_SnapshotStreamWriter iterator [] (Some max) []))
    by spinning.
  destruct (Wait_spin fuel _ HS eq_refl) as (Ho & Hidx & Hit & Hp).
  destruct (Wait_new fuel iterator [] (Some max) []) as [HI _].
  simpl in Hidx, Hit, Hp.
  split; [exact Ho | split; [exact Hit | split; [exact Hp | split]]].
  - rewrite (inv_committed _ _ HI), Hidx. reflexivity.
  - pose proof (inv_order _ _ HI) as Hord.
    destruct (inv_pulled _ _ HI) as [pending Hpend].
    rewrite Hp in Hpend. symmetry in Hpend.
    apply app_eq_nil in Hpend. destruct Hpend as [Hw _].
    rewrite Hw in Hord. apply app_eq_nil in Hord. apply Hord.
Qed.

Lemma nonpositive_cap_never_ends_witness :
  0 <= 0 /\
  fst (Wait 7 (new_SnapshotStreamWriter three_elements [] (Some 0) [])) = None /\
  map fst (committed_chunks
             (trace (snd (Wait 7 (new_SnapshotStreamWriter
                                    three_elements [] (Some 0) [])))))
  = [0; 1; 2; 3; 4; 5].
Proof.
  assert (H : 0 <= 0) by lia.
  split; [exact H | split].
  - exact (proj1 (nonpositive_cap_never_ends 7 three_elements 0 H)).
  - exact (proj1 (proj2 (proj2 (proj2 (nonpositive_cap_never_ends
                                         7 three_elements 0 H))))).
Defined.

(** ** The chunk files are kept in order by every member function *)

Lemma wp_conj {A} (m : M A) (Q1 Q2 : A -> SnapshotStreamWriter -> Prop) w :
  wp m Q1 w -> wp m Q2 w -> wp m (fun a w' => Q1 a w' /\ Q2 a w') w.
Proof. unfold wp. auto. Qed.

Lemma Dir_eqb_refl d : Dir_eqb d d = true.
Proof. destruct d; reflexivity. Qed.

Ltac open_files :=
  unfold Between, Within, Released, record_guard_closed, chunk_guard_closed in *;
  repeat match goal with
         | H : Files _ _ |- _ => destruct H
         | H : _ /\ _ |- _ => destruct H
         end.

Ltac use_files :=
  repeat match goal with
         | H : setup_failed (last_call ?t) = _
           |- context [setup_failed (last_call ?t)] => rewrite H
         | H : Z.of_nat (length (initialized ?t)) = _
           |- context [Z.of_nat (length (initialized ?t))] => rewrite H
         | H : unclosed ?t = _ |- context [unclosed ?t] => rewrite H
         | H : uncommitted_chunks ?t = _
           |- context [uncommitted_chunks ?t] => rewrite H
         | H : first_failure ?t = _ |- context [first_failure ?t] => rewrite H
         | H : cancel_seen ?t = _ |- context [cancel_seen ?t] => rewrite H
         | H : eos_seen ?t = _ |- context [eos_seen ?t] => rewrite H
         end.

Ltac solve_files_field :=
  cbn [fst snd];
  unfold Between, Within, Released, record_guard_closed, chunk_guard_closed,
    current_chunk, chunk, committed_path, chunk_bytes in *;
  simpl; unfold chunk_bytes; rewrite ?length_app, ?in_app_iff; simpl;
  repeat match goal with
         | H : unclosed _ = _ \/ unclosed _ = _ |- _ => destruct H
         end;
  use_files; unfold Path_eqb; simpl;
  rewrite ?Z.eqb_refl, ?Dir_eqb_refl, ?Z.add_simpl_r; simpl; unfold chunk;
  intuition (try congruence; try lia; auto).

Ltac solve_files :=
  repeat match goal with |- _ /\ _ => split end;
  try match goal with |- Files _ _ => constructor end;
  solve_files_field.

Section ChunkFiles.

Variable cap : Z.

Lemma ShouldWriteRecord_files writer w :
  Files cap w -> Within writer w -> first_failure (trace w) = None ->
  wp ShouldWriteRecord
     (fun b w' => Files cap w' /\ Within writer w' /\
                  (b = false -> record_guard_closed w')) w.
Proof.
  intros HF HW Hff. open_files. open_object w.
  wp_run; solve_files;
    rewrite ?andb_false_iff, ?Z.ltb_ge, ?negb_false_iff in *; intuition.
Qed.

Lemma ShouldWriteChunk_files w :
  Files cap w -> Between w -> first_failure (trace w) = None ->
  wp ShouldWriteChunk
     (fun b w' => Files cap w' /\ Between w' /\
                  (b = false -> chunk_guard_closed w')) w.
Proof.
  intros HF HB Hff. open_files. open_object w.
  wp_run; solve_files;
    rewrite ?andb_false_iff, ?negb_false_iff in *; intuition.
Qed.

Lemma WriteRecord_files writer w :
  Files cap w -> Within writer w -> first_failure (trace w) = None ->
  end_of_sequence_ w = false -> chunk_size_bytes_ w < cap ->
  wp (WriteRecord writer) (fun _ w' => Files cap w' /\ Within writer w') w.
Proof.
  intros HF HW Hff He Hs. open_files. open_object w.
  match goal with
  | H : _ = false -> unclosed _ = _ |- _ => specialize (H He)
  end.
  match goal with
  | H : pull_seen ?t = false -> _ |- _ => destruct (pull_seen t) eqn:Hseen
  end.
  all: wp_run; solve_files.
Qed.

Lemma WriteRecords_files fuel :
  forall writer w,
    Inv cap w -> Alive w -> writer = current_chunk w ->
    Files cap w -> Within writer w ->
    wp (WriteRecords fuel writer)
       (fun o w' =>
          (Inv cap w' /\ chunk_index_ w' = chunk_index_ w /\ ended o w') /\
          Files cap w' /\ Within writer w' /\
          (o = Some OkStatus -> record_guard_closed w')) w.
Proof.
  induction fuel as [|fuel IH]; intros writer w HI HA Hw HF HW;
    cbn [WriteRecords].
  - apply wp_ret.
    split; [split; [assumption | split; [reflexivity | assumption]]|].
    split; [assumption | split; [assumption | discriminate]].
  - apply wp_bind.
    eapply wp_mono.
    { apply wp_conj;
        [ apply (ShouldWriteRecord_inv cap); assumption
        | apply (ShouldWriteRecord_files writer); [assumption | assumption | apply HA] ]. }
    cbv beta. intros b w1 ((HI1 & HA1 & Hidx & Hguard) & HF1 & HW1 & Hclosed).
    assert (Hw1 : writer = current_chunk w1)
      by (unfold current_chunk in *; rewrite Hidx; exact Hw).
    destruct b.
    + destruct Hguard as [He Hs]; [reflexivity|].
      apply wp_bind.
      eapply wp_mono.
      { apply wp_conj;
          [ apply (WriteRecord_inv cap); assumption
          | apply (WriteRecord_files writer);
            [assumption | assumption | apply HA1 | exact He|];
            rewrite <- (inv_max _ _ HI1); exact Hs ]. }
      cbv beta. intros s w2 ((HI2 & Hidx2 & Hret) & HF2 & HW2).
      destruct s as [|code message]; cbn [ok].
      * eapply wp_mono.
        { apply IH; [assumption | exact Hret | | assumption | assumption].
          unfold current_chunk in *. rewrite Hidx2. exact Hw1. }
        cbv beta. intros o w3 ((HI3 & Hidx3 & Hend) & Hrest).
        split; [|exact Hrest].
        split; [assumption | split; [congruence | assumption]].
      * apply wp_ret.
        split; [split; [assumption | split; [congruence | exact Hret]]|].
        split; [assumption | split; [assumption | discriminate]].
    + apply wp_ret.
      split; [split; [assumption | split; assumption]|].
      split; [assumption | split; [assumption | auto]].
Qed.

Lemma WriteChunk_files fuel w :
  Inv cap w -> Alive w -> Files cap w -> Between w ->
  wp (WriteChunk fuel)
     (fun o w' => Files cap w' /\
                  (o <> None -> unclosed (trace w') = []) /\
                  (o = Some OkStatus -> Between w')) w.
Proof.
  intros HI HA HF HB. unfold WriteChunk. open_files. open_state w.
  wp_run; try solve [solve_files].
  all: (eapply wp_mono;
        [ apply WriteRecords_files;
          [solve_inv | solve_inv | reflexivity | solve_files | solve_files] |]).
  all: cbv beta; intros o w1 ((HI1 & Hidx & Hend) & HF1 & HW1 & Hclosed);
    clear - HI1 Hidx Hend HF1 HW1 Hclosed;
    destruct o as [[|code message]|];
    [ specialize (Hclosed eq_refl) | clear Hclosed | clear Hclosed ];
    open_files; open_state w1; fields.
  all: match goal with
       | H : _ = wrap_int64 (chunk_bytes ?p ?t) |- _ =>
           pose proof (wrap_int64_total_bytes (chunk_elements p t))
       end.
  all: wp_run; solve_files.
Qed.

Lemma WriteChunks_files fuel :
  forall w,
    Inv cap w -> Alive w -> Quiescent w -> Files cap w -> Between w ->
    wp (WriteChunks fuel)
       (fun o w' =>
          (Inv cap w' /\ ended o w' /\ (o = Some OkStatus -> Quiescent w')) /\
          Files cap w' /\
          (o <> None -> unclosed (trace w') = []) /\
          (o = Some OkStatus -> Between w' /\ chunk_guard_closed w')) w.
Proof.
  induction fuel as [|fuel IH]; intros w HI HA HQ HF HB; cbn [WriteChunks].
  - apply wp_ret.
    split; [split; [assumption | split; [assumption | discriminate]]|].
    split; [assumption | split; [congruence | discriminate]].
  - apply wp_bind.
    eapply wp_mono.
    { apply wp_conj;
        [ apply (ShouldWriteChunk_inv cap); assumption
        | apply ShouldWriteChunk_files; [assumption | assumption | apply HA] ]. }
    cbv beta. intros b w1 ((HI1 & HA1 & HQ1) & HF1 & HB1 & Hclosed).
    destruct b.
    + apply wp_bind.
      eapply wp_mono.
      { apply wp_conj;
          [ apply (WriteChunk_inv cap); assumption
          | apply WriteChunk_files; assumption ]. }
      cbv beta. intros o w2 ((HI2 & Hend & HQ2) & HF2 & Hun & HB2).
      destruct o as [[|code message]|].
      * apply IH; [assumption | exact Hend | auto | assumption | auto].
      * apply wp_ret.
        split; [split; [assumption | split; [exact Hend | discriminate]]|].
        split; [assumption | split; [exact Hun | discriminate]].
      * apply wp_ret.
        split; [split; [assumption | split; [exact Hend | discriminate]]|].
        split; [assumption | split; [exact Hun | discriminate]].
    + apply wp_ret.
      split; [split; [assumption | split; [assumption | auto]]|].
      split; [assumption | split; [intros _; apply HB1 | auto]].
Qed.

Lemma WriteSnapshotFn_files fuel w :
  Inv cap w -> Alive w -> Quiescent w -> Files cap w -> Between w ->
  wp (WriteSnapshotFn fuel)
     (fun o w' =>
        Files cap w' /\
        match o with
        | Some s => Released w' /\ (ok s = true -> end_of_sequence_ w' = true)
        | None => True
        end) w.
Proof.
  intros HI HA HQ HF HB. unfold WriteSnapshotFn. open_files. open_state w.
  wp_run; try solve [solve_files].
  all: (eapply wp_mono;
        [ apply WriteChunks_files;
          [solve_inv | solve_inv | solve_inv | solve_files | solve_files] |]).
  all: cbv beta; intros o w1 ((HI1 & Hend & HQ1) & HF1 & Hun & HB1);
    clear - HI1 Hend HQ1 HF1 Hun HB1;
    destruct o as [[|code message]|];
    [ specialize (HQ1 eq_refl); specialize (HB1 eq_refl);
      specialize (Hun ltac:(discriminate))
    | clear HQ1 HB1; specialize (Hun ltac:(discriminate))
    | clear HQ1 HB1 Hun ];
    open_files; open_state w1; fields.
  all: wp_run; solve_files.
Qed.

Lemma snapshot_fn_files fuel w :
  Inv cap w -> Alive w -> Quiescent w -> Files cap w -> Between w ->
  wp (snapshot_fn fuel)
     (fun o w' =>
        Files cap w' /\
        match o with
        | Some _ =>
            Released w' /\
            (ok (status_ w') = true -> end_of_sequence_ w' = true)
        | None => True
        end) w.
Proof.
  intros HI HA HQ HF HB. unfold snapshot_fn. apply wp_bind.
  eapply wp_mono.
  { apply wp_conj;
      [ apply (WriteSnapshotFn_inv cap); assumption
      | apply WriteSnapshotFn_files; assumption ]. }
  cbv beta. intros o w1 ((HI1 & Hfin) & HF1 & Hrel).
  clear - HI1 Hfin HF1 Hrel. unfold finished in Hfin.
  destruct (first_failure (trace w1)) as [e|] eqn:Hfail.
  - subst o. destruct e as [|code message].
    + apply first_failure_error in Hfail. discriminate.
    + open_files. open_state w1. fields. wp_run; solve_files.
  - destruct Hfin as [HA1 [Ho | [Ho HQ1]]]; subst o.
    + apply wp_ret. split; [assumption | exact I].
    + open_files. open_state w1. destruct st; fields; wp_run; solve_files.
Qed.

Lemma Wait_files fuel w :
  Inv cap w -> Alive w -> Quiescent w -> Files cap w -> Between w ->
  snapshot_thread_ w = true ->
  wp (Wait fuel)
     (fun o w' =>
        Files cap w' /\
        match o with
        | Some s => Released w' /\ (ok s = true -> end_of_sequence_ w' = true)
        | None => True
        end) w.
Proof.
  intros HI HA HQ HF HB Hth. unfold Wait.
  apply wp_bind, wp_read. cbv beta. rewrite Hth. apply wp_bind.
  eapply wp_mono.
  { apply wp_conj;
      [ apply (snapshot_fn_inv cap); assumption
      | apply snapshot_fn_files; assumption ]. }
  cbv beta. intros o w1 ((HI1 & Hj) & HF1 & Hrel).
  clear - HI1 Hj HF1 Hrel. unfold joined in Hj.
  destruct (first_failure (trace w1)) as [e|] eqn:Hfail.
  - destruct Hj as (Ho & Hst). subst o.
    open_files. open_state w1. subst. fields. wp_run; solve_files.
  - destruct Hj as [HA1 [Ho | [Ho HQ1]]]; subst o.
    + apply wp_ret. split; [assumption | exact I].
    + open_files. open_state w1. fields. wp_run; solve_files.
Qed.

End ChunkFiles.

Lemma Wait_files_new fuel iterator env max others :
  let run := Wait fuel (new_SnapshotStreamWriter iterator env max others) in
  Files (cap_of max) (snd run) /\
  match fst run with
  | Some s =>
      Released (snd run) /\ (ok s = true -> end_of_sequence_ (snd run) = true)
  | None => True
  end.
Proof.
  cbv zeta.
  destruct (new_SnapshotStreamWriter_inv iterator env max others) as (HI & HA & HQ).
  apply (Wait_files (cap_of max) fuel _ HI HA HQ).
  - constructor; simpl; auto; try lia; discriminate.
  - repeat split.
  - reflexivity.
Qed.

(** ** What the chunk files say about a history taken apart *)

Lemma opens_in_order_initialized tr :
  opens_in_order tr ->
  initialized tr = map chunk (indices (Z.of_nat (length (initialized tr)))).
Proof.
  induction tr as [|ev tr IH]; simpl; [reflexivity|].
  destruct ev; simpl; auto.
  intros [Hp Ho]. rewrite length_app. simpl length.
  rewrite Nat2Z.inj_add. simpl Z.of_nat. rewrite indices_succ by lia.
  rewrite map_app. simpl. rewrite <- (IH Ho). rewrite Hp. reflexivity.
Qed.

Lemma NoDup_map_injective {A B} (f : A -> B) l :
  (forall a b, f a = f b -> a = b) -> NoDup l -> NoDup (map f l).
Proof.
  intros Hinj H. induction H as [|x l Hx _ IH]; simpl; constructor; [|exact IH].
  intros Hin. apply in_map_iff in Hin. destruct Hin as (y & E & Hy).
  apply Hinj in E. subst y. contradiction.
Qed.

Lemma indices_NoDup n : NoDup (indices n).
Proof.
  unfold indices. apply NoDup_map_injective.
  - intros a b. apply Nat2Z.inj.
  - apply seq_NoDup.
Qed.

Lemma opened_In p tr :
  In p (opened tr) ->
  exists newer older, tr = newer ++ EvInitialize p OkStatus :: older.
Proof.
  induction tr as [|ev tr IH]; simpl; [contradiction|].
  assert (Hrec : In p (opened tr) ->
                 exists newer older,
                   ev :: tr = newer ++ EvInitialize p OkStatus :: older).
  { intros H. destruct (IH H) as (newer & older & E).
    exists (ev :: newer), older. rewrite E. reflexivity. }
  destruct ev; auto. destruct r; auto.
  intros H. apply in_app_or in H. destruct H as [H | [H | []]]; [auto|].
  subst. exists [], tr. reflexivity.
Qed.

Lemma sink_calls_on_opened_at newer ev older p :
  sink_calls_on_opened (newer ++ ev :: older) ->
  writer_of ev = Some p -> In p (opened older).
Proof.
  induction newer as [|x newer IH]; simpl.
  - intros [H _] Hp.
    destruct ev; simpl in Hp; try discriminate; inversion Hp; subst; exact H.
  - intros [_ H]. auto.
Qed.

Lemma unclosed_or_closed p newer older :
  In p (unclosed (newer ++ EvInitialize p OkStatus :: older)) \/
  exists site r, In (EvClose site p r) newer.
Proof.
  induction newer as [|x newer IH]; simpl.
  - left. apply in_or_app. right. left. reflexivity.
  - destruct IH as [IH | (site & r & IH)];
      [|right; exists site, r; right; exact IH].
    destruct x; try (left; exact IH).
    + destruct r; [|left; exact IH].
      left. apply in_or_app. left. exact IH.
    + destruct (Path_eqb p writer) eqn:E.
      * apply Path_eqb_eq in E. subst writer.
        right. exists site, r. left. reflexivity.
      * left. apply filter_In. split; [exact IH | rewrite E; reflexivity].
Qed.

Lemma uncommitted_or_renamed p newer older :
  In p (uncommitted_chunks (newer ++ EvInitialize p OkStatus :: older)) \/
  exists dst, In (EvRenameFile p dst OkStatus) newer.
Proof.
  induction newer as [|x newer IH]; simpl.
  - left. apply in_or_app. right. left. reflexivity.
  - destruct IH as [IH | (dst & IH)]; [|right; exists dst; right; exact IH].
    destruct x; try (left; exact IH).
    + destruct r; [|left; exact IH].
      left. apply in_or_app. left. exact IH.
    + destruct r; [|left; exact IH].
      destruct (Path_eqb p src) eqn:E.
      * apply Path_eqb_eq in E. subst src.
        right. exists dst. left. reflexivity.
      * left. apply filter_In. split; [exact IH | rewrite E; reflexivity].
Qed.

Lemma renames_named_at newer src dst r older :
  renames_named (newer ++ EvRenameFile src dst r :: older) ->
  Dirname src = UncommittedChunksDirectory /\
  dst = committed_path (Basename src).
Proof.
  induction newer as [|x newer IH]; simpl.
  - intros [H _]. exact H.
  - destruct x; auto. intros [_ H]. auto.
Qed.

Lemma commits_justified_at cap newer src dst r older :
  commits_justified cap (newer ++ EvRenameFile src dst r :: older) ->
  cap <= chunk_bytes src older \/ eos_seen older = true \/
  cancel_seen older = true.
Proof.
  induction newer as [|x newer IH]; simpl.
  - intros [H _]. exact H.
  - destruct x; auto. intros [_ H]. auto.
Qed.

Lemma last_call_lock_traffic newer tr :
  Forall (fun x => is_lock_traffic x = true) newer ->
  last_call (newer ++ tr) = last_call tr.
Proof.
  induction 1 as [|x newer Hx _ IH]; simpl; [reflexivity|].
  destruct x; simpl in Hx; try discriminate; exact IH.
Qed.

Lemma silent_after_setup_failure_at newer ev older :
  silent_after_setup_failure (newer ++ ev :: older) ->
  setup_failed (Some ev) = true ->
  Forall (fun x => is_lock_traffic x = true) newer.
Proof.
  intros Hs Hev.
  assert (Hcall : last_call (ev :: older) = Some ev)
    by (destruct ev; simpl in Hev; try discriminate; reflexivity).
  induction newer as [|x newer IH]; simpl in Hs; [constructor|].
  destruct Hs as [Hx Hs]. specialize (IH Hs).
  constructor; [|exact IH].
  apply Hx. rewrite (last_call_lock_traffic newer _ IH), Hcall. exact Hev.
Qed.

Lemma pulled_quiet newer tr :
  Forall (fun x => quiet x = true) newer -> pulled (newer ++ tr) = pulled tr.
Proof.
  induction 1 as [|ev newer Hq _ IH]; simpl; [reflexivity|].
  destruct ev; simpl in Hq; try discriminate; exact IH.
Qed.

Lemma written_quiet newer tr :
  Forall (fun x => quiet x = true) newer -> written (newer ++ tr) = written tr.
Proof.
  induction 1 as [|ev newer Hq _ IH]; simpl; [reflexivity|].
  destruct ev; simpl in Hq; try discriminate; exact IH.
Qed.

Lemma held_released_at newer ev older :
  held (newer ++ ev :: older) = false -> held older = true ->
  ev <> EvUnlock -> In EvUnlock newer.
Proof.
  intros Hfree Hheld Hev.
  induction newer as [|x newer IH]; simpl in *.
  - destruct ev; try discriminate; try congruence.
  - destruct x; try discriminate; auto.
Qed.

(** ** Chunk files, from Initialize to the rename *)

(** X7: the chunk files are opened in the order of their indices, each once.
    In every run of a new writer the k-th call of Initialize, counted from
    0, is for chunk k of the uncommitted directory, so no chunk file is
    opened twice; and the number of these calls is the chunk index, or one
    more while a chunk is open or after a failure. *)
Theorem chunks_opened_in_order fuel iterator env max others :
  let w := snd (Wait fuel (new_SnapshotStreamWriter iterator env max others)) in
  let n := Z.of_nat (length (initialized (trace w))) in
  initialized (trace w) = map chunk (indices n) /\
  NoDup (initialized (trace w)) /\
  chunk_index_ w <= n <= chunk_index_ w + 1.
Proof.
  cbv zeta.
  destruct (Wait_files_new fuel iterator env max others) as [HF _].
  pose proof (opens_in_order_initialized _ (files_order _ _ HF)) as Hi.
  split; [exact Hi | split; [|exact (files_count _ _ HF)]].
  rewrite Hi. apply NoDup_map_injective; [|apply indices_NoDup].
  intros a b E. inversion E. reflexivity.
Qed.

(** X8: the sink is used only once it is open.  In every run of a new
    writer, every WriteTensors, every Close (of WriteRecord or of the
    cleanup) and every rename is applied to a writer on which Initialize was
    called before, with success. *)
Theorem sink_calls_after_Initialize
    fuel iterator env max others newer ev older p :
  let run := Wait fuel (new_SnapshotStreamWriter iterator env max others) in
  trace (snd run) = newer ++ ev :: older ->
  writer_of ev = Some p ->
  exists between before,
    older = between ++ EvInitialize p OkStatus :: before.
Proof.
  cbv zeta. intros Htr Hp.
  destruct (Wait_files_new fuel iterator env max others) as [HF _].
  pose proof (files_opened _ _ HF) as Ho. rewrite Htr in Ho.
  exact (opened_In p older (sink_calls_on_opened_at newer ev older p Ho Hp)).
Qed.

Lemma sink_calls_after_Initialize_witness :
  let tr := trace (snd (Wait 10 scenario_B)) in
  let ev := EvWriteTensors (chunk 0) (elem 1 300) OkStatus in
  tr = firstn 47 tr ++ ev :: skipn 48 tr /\
  writer_of ev = Some (chunk 0) /\
  exists between before,
    skipn 48 tr = between ++ EvInitialize (chunk 0) OkStatus :: before.
Proof.
  cbv zeta.
  assert (H : trace (snd (Wait 10 scenario_B))
              = firstn 47 (trace (snd (Wait 10 scenario_B)))
                ++ EvWriteTensors (chunk 0) (elem 1 300) OkStatus
                :: skipn 48 (trace (snd (Wait 10 scenario_B))))
    by (vm_compute; reflexivity).
  split; [exact H | split; [reflexivity|]].
  exact (sink_calls_after_Initialize 10 three_elements [] (Some 500) []
           (firstn 47 (trace (snd (Wait 10 scenario_B))))
           (EvWriteTensors (chunk 0) (elem 1 300) OkStatus)
           (skipn 48 (trace (snd (Wait 10 scenario_B))))
           (chunk 0) H eq_refl).
Defined.

(** X9: what WriteChunk opens it closes, and without a failure it renames.
    In every run of a new writer in which Wait returns, whatever failed and
    whoever cancelled, Close was called on every writer whose Initialize
    succeeded; and when no call failed, every such chunk file was renamed
    with success, so none is left in the uncommitted directory. *)
Theorem writers_released fuel iterator env max others s newer p older :
  let run := Wait fuel (new_SnapshotStreamWriter iterator env max others) in
  fst run = Some s ->
  trace (snd run) = newer ++ EvInitialize p OkStatus :: older ->
  (exists site r, In (EvClose site p r) newer) /\
  (first_failure (trace (snd run)) = None ->
   exists dst, In (EvRenameFile p dst OkStatus) newer).
Proof.
  cbv zeta. intros Hs Htr.
  destruct (Wait_files_new fuel iterator env max others) as [_ HR].
  rewrite Hs in HR. destruct HR as [[Hclosed Hrenamed] _].
  split.
  - destruct (unclosed_or_closed p newer older) as [H | H]; [|exact H].
    rewrite <- Htr, Hclosed in H. contradiction.
  - intros Hff.
    destruct (uncommitted_or_renamed p newer older) as [H | H]; [|exact H].
    rewrite <- Htr, (Hrenamed Hff) in H. contradiction.
Qed.

Lemma writers_released_witness :
  let run := Wait 10 scenario_B in
  fst run = Some OkStatus /\
  trace (snd run)
  = firstn 53 (trace (snd run))
    ++ EvInitialize (chunk 0) OkStatus :: skipn 54 (trace (snd run)) /\
  exists site r, In (EvClose site (chunk 0) r) (firstn 53 (trace (snd run))).
Proof.
  cbv zeta.
  assert (Hs : fst (Wait 10 scenario_B) = Some OkStatus)
    by (vm_compute; reflexivity).
  assert (H : trace (snd (Wait 10 scenario_B))
              = firstn 53 (trace (snd (Wait 10 scenario_B)))
                ++ EvInitialize (chunk 0) OkStatus
                :: skipn 54 (trace (snd (Wait 10 scenario_B))))
    by (vm_compute; reflexivity).
  split; [exact Hs | split; [exact H|]].
  exact (proj1 (writers_released 10 three_elements [] (Some 500) [] OkStatus
                  (firstn 53 (trace (snd (Wait 10 scenario_B))))
                  (chunk 0)
                  (skipn 54 (trace (snd (Wait 10 scenario_B))))
                  Hs H)).
Defined.

(** X10: a chunk is committed for a reason, under its own name.  In every
    run of a new writer, every rename, tried or done, moves a chunk file of
    the uncommitted directory to the committed directory under the same base
    name, and finds one of three: the chunk holds at least the cap, the end
    of the sequence was reported, or a Cancel() was done. *)
Theorem commit_justified fuel iterator env max others newer src dst r older :
  let run := Wait fuel (new_SnapshotStreamWriter iterator env max others) in
  trace (snd run) = newer ++ EvRenameFile src dst r :: older ->
  Dirname src = UncommittedChunksDirectory /\
  dst = committed_path (Basename src) /\
  (cap_of max <= chunk_bytes src older \/ eos_seen older = true \/
   cancel_seen older = true).
Proof.
  cbv zeta. intros Htr.
  destruct (Wait_files_new fuel iterator env max others) as [HF _].
  pose proof (files_names _ _ HF) as Hn. rewrite Htr in Hn.
  pose proof (files_commits _ _ HF) as Hc. rewrite Htr in Hc.
  destruct (renames_named_at newer src dst r older Hn) as [Hsrc Hdst].
  split; [exact Hsrc | split; [exact Hdst|]].
  exact (commits_justified_at _ newer src dst r older Hc).
Qed.

Lemma commit_justified_witness :
  let run := Wait 10 (new_SnapshotStreamWriter
                        three_elements [] (Some 500) cancel_after_first_record) in
  let older := skipn 12 (trace (snd run)) in
  trace (snd run)
  = firstn 11 (trace (snd run))
    ++ EvRenameFile (chunk 0) (committed_path 0) OkStatus :: older /\
  chunk_bytes (chunk 0) older = 300 /\
  (500 <= chunk_bytes (chunk 0) older \/ eos_seen older = true \/
   cancel_seen older = true).
Proof.
  cbv zeta.
  assert (H : trace (snd (Wait 10 (new_SnapshotStreamWriter
                                     three_elements [] (Some 500)
                                     cancel_after_first_record)))
              = firstn 11 (trace (snd (Wait 10 (new_SnapshotStreamWriter
                                                  three_elements [] (Some 500)
                                                  cancel_after_first_record))))
                ++ EvRenameFile (chunk 0) (committed_path 0) OkStatus
                :: skipn 12 (trace (snd (Wait 10 (new_SnapshotStreamWriter
                                                    three_elements [] (Some 500)
                                                    cancel_after_first_record)))))
    by (vm_compute; reflexivity).
  split; [exact H | split; [vm_compute; reflexivity|]].
  exact (proj2 (proj2 (commit_justified 10 three_elements [] (Some 500)
                         cancel_after_first_record
                         (firstn 11 (trace (snd (Wait 10 (new_SnapshotStreamWriter
                                                            three_elements [] (Some 500)
                                                            cancel_after_first_record)))))
                         (chunk 0) (committed_path 0) OkStatus
                         (skipn 12 (trace (snd (Wait 10 (new_SnapshotStreamWriter
                                                           three_elements [] (Some 500)
                                                           cancel_after_first_record)))))
                         H))).
Defined.

(** X11: a failure of Initialize is fatal, and nothing is left to clean up.
    In every run of a new writer, after an Initialize that failed only the
    mutex is used: no pull, no file operation, in particular no Close, since
    WriteChunk returns before the cleanup is registered.  The committed
    chunks are those committed before, and Wait returns the status of
    Initialize unless a Cancel() got the mutex just before Wait read the
    status. *)
Theorem Initialize_failure_fatal
    fuel iterator env max others newer p r older :
  let run := Wait fuel (new_SnapshotStreamWriter iterator env max others) in
  trace (snd run) = newer ++ EvInitialize p r :: older ->
  ok r = false ->
  Forall (fun x => is_lock_traffic x = true) newer /\
  committed_chunks (trace (snd run)) = committed_chunks older /\
  pulled (trace (snd run)) = pulled older /\
  fst run = Some (status_ (snd run)) /\
  status_ (snd run)
  = (if cancelled_at_last_lock (trace (snd run)) then cancelled else r).
Proof.
  cbv zeta. intros Htr Hr.
  assert (Hf : failure (EvInitialize p r) = Some r) by (simpl; rewrite Hr; reflexivity).
  destruct (failure_is_fatal fuel iterator env max others newer _ older r Htr Hf)
    as (Hq & _ & Ho & Hst & _).
  destruct (Wait_files_new fuel iterator env max others) as [HF _].
  pose proof (files_silent _ _ HF) as Hs. rewrite Htr in Hs.
  split; [|split; [|split; [|split; [exact Ho | exact Hst]]]].
  - apply (silent_after_setup_failure_at newer _ older Hs).
    simpl. rewrite Hr. reflexivity.
  - rewrite Htr, (committed_chunks_quiet newer _ Hq). reflexivity.
  - rewrite Htr, (pulled_quiet newer _ Hq). reflexivity.
Qed.

Lemma Initialize_failure_fatal_witness :
  let run := Wait 10 (new_SnapshotStreamWriter
                        three_elements open_fails (Some 500) []) in
  trace (snd run)
  = firstn 4 (trace (snd run))
    ++ EvInitialize (chunk 0) (Error UNAVAILABLE "open")
    :: skipn 5 (trace (snd run)) /\
  ok (Error UNAVAILABLE "open") = false /\
  Forall (fun x => is_lock_traffic x = true) (firstn 4 (trace (snd run))).
Proof.
  cbv zeta.
  assert (H : trace (snd (Wait 10 (new_SnapshotStreamWriter
                                     three_elements open_fails (Some 500) [])))
              = firstn 4 (trace (snd (Wait 10 (new_SnapshotStreamWriter
                                                 three_elements open_fails
                                                 (Some 500) []))))
                ++ EvInitialize (chunk 0) (Error UNAVAILABLE "open")
                :: skipn 5 (trace (snd (Wait 10 (new_SnapshotStreamWriter
                                                   three_elements open_fails
                                                   (Some 500) [])))))
    by (vm_compute; reflexivity).
  split; [exact H | split; [reflexivity|]].
  exact (proj1 (Initialize_failure_fatal 10 three_elements open_fails (Some 500) []
                  (firstn 4 (trace (snd (Wait 10 (new_SnapshotStreamWriter
                                                    three_elements open_fails
                                                    (Some 500) [])))))
                  (chunk 0) (Error UNAVAILABLE "open")
                  (skipn 5 (trace (snd (Wait 10 (new_SnapshotStreamWriter
                                                   three_elements open_fails
                                                   (Some 500) [])))))
                  H eq_refl)).
Defined.

(** X12: a failure of GetNext is fatal.  In every run of a new writer, a
    GetNext that fails does so with the mutex held, and the mutex is
    released after it; nothing is pulled, appended or renamed any more (only
    the mutex, Cancel and the Close of the cleanup are seen); what was
    pulled, written and committed before is what is pulled, written and
    committed at the end; and Wait returns the status of GetNext unless a
    Cancel() got the mutex just before Wait read the status. *)
Theorem GetNext_failure_fatal
    fuel iterator env max others newer code message older :
  let run := Wait fuel (new_SnapshotStreamWriter iterator env max others) in
  trace (snd run) = newer ++ EvGetNext (GetNextError code message) :: older ->
  Forall (fun x => quiet x = true) newer /\
  (held older = true /\ In EvUnlock newer) /\
  pulled (trace (snd run)) = pulled older /\
  written (trace (snd run)) = written older /\
  committed_chunks (trace (snd run)) = committed_chunks older /\
  fst run = Some (status_ (snd run)) /\
  status_ (snd run)
  = (if cancelled_at_last_lock (trace (snd run)) then cancelled
     else Error code message).
Proof.
  cbv zeta. intros Htr.
  destruct (failure_is_fatal fuel iterator env max others newer _ older
              (Error code message) Htr eq_refl) as (Hq & _ & Ho & Hst & _).
  destruct (Wait_new fuel iterator env max others) as [HI _].
  pose proof (inv_free _ _ HI) as Hfree. rewrite Htr in Hfree.
  pose proof (inv_discipline _ _ HI) as Hd. rewrite Htr in Hd.
  destruct (lock_discipline_at newer _ older Hd) as [_ Hheld].
  specialize (Hheld eq_refl).
  split; [exact Hq | split; [split; [exact Hheld|]|]].
  - apply (held_released_at newer _ older Hfree Hheld). discriminate.
  - split; [|split; [|split; [|split; [exact Ho | exact Hst]]]].
    + rewrite Htr, (pulled_quiet newer _ Hq). reflexivity.
    + rewrite Htr, (written_quiet newer _ Hq). reflexivity.
    + rewrite Htr, (committed_chunks_quiet newer _ Hq). reflexivity.
Qed.

Lemma GetNext_failure_fatal_witness :
  let run := Wait 10 (new_SnapshotStreamWriter read_fails [] None []) in
  trace (snd run)
  = firstn 6 (trace (snd run))
    ++ EvGetNext (GetNextError DATA_LOSS "read") :: skipn 7 (trace (snd run)) /\
  Forall (fun x => quiet x = true) (firstn 6 (trace (snd run))).
Proof.
  cbv zeta.
  assert (H : trace (snd (Wait 10 (new_SnapshotStreamWriter read_fails [] None [])))
              = firstn 6 (trace (snd (Wait 10 (new_SnapshotStreamWriter
                                                 read_fails [] None []))))
                ++ EvGetNext (GetNextError DATA_LOSS "read")
                :: skipn 7 (trace (snd (Wait 10 (new_SnapshotStreamWriter
                                                   read_fails [] None [])))))
    by (vm_compute; reflexivity).
  split; [exact H|].
  exact (proj1 (GetNext_failure_fatal 10 read_fails [] None []
                  (firstn 6 (trace (snd (Wait 10 (new_SnapshotStreamWriter
                                                    read_fails [] None [])))))
                  DATA_LOSS "read"%string
                  (skipn 7 (trace (snd (Wait 10 (new_SnapshotStreamWriter
                                                   read_fails [] None [])))))
                  H)).
Defined.

(** ** What the status that Wait returns says *)

(** X13: Wait returns ok exactly when nothing failed and nobody cancelled,
    and then everything is done.  In every run of a new writer in which
    Wait returns, the status is ok if and only if no call failed with a
    status that the source hands out and no Cancel() was done; and when it
    is ok, the end of the sequence was reported, and every element pulled is
    in a committed chunk, in order. *)
Theorem Wait_ok_characterised fuel iterator env max others s :
  let run := Wait fuel (new_SnapshotStreamWriter iterator env max others) in
  fst run = Some s ->
  (s = OkStatus <->
   first_failure (trace (snd run)) = None /\
   cancel_seen (trace (snd run)) = false) /\
  (s = OkStatus ->
   end_of_sequence_ (snd run) = true /\
   eos_seen (trace (snd run)) = true /\
   concat (map snd (committed_chunks (trace (snd run))))
   = pulled (trace (snd run))).
Proof.
  cbv zeta. intros Hs.
  destruct (Wait_new fuel iterator env max others) as [HI Hw].
  destruct (Wait_files_new fuel iterator env max others) as [HF HR].
  rewrite Hs in HR, Hw. destruct HR as [_ Heos].
  unfold waited in Hw. destruct Hw as [[Hn | Hst] Hw]; [discriminate|].
  injection Hst as Hst'.
  assert (Hok : s = OkStatus ->
                first_failure
                  (trace (snd (Wait fuel (new_SnapshotStreamWriter
                                            iterator env max others)))) = None).
  { intros E.
    destruct (first_failure _) as [e|] eqn:Hfail; [|reflexivity].
    apply first_failure_error in Hfail. inversion Hw as [He].
    destruct (cancelled_at_last_lock _); rewrite E in He;
      [discriminate He | rewrite <- He in Hfail; discriminate Hfail]. }
  split; [split|].
  - intros E. split; [exact (Hok E)|].
    destruct (cancel_seen _) eqn:Hc; [|reflexivity].
    pose proof (files_cancel _ _ HF Hc) as Hno.
    rewrite <- Hst', E in Hno. discriminate Hno.
  - intros [Hff Hc].
    destruct s as [|code message]; [reflexivity|].
    pose proof (files_status _ _ HF) as Hno.
    rewrite <- Hst' in Hno. rewrite (Hno eq_refl Hff) in Hc. discriminate Hc.
  - intros E. rewrite (Hok E) in Hw.
    destruct Hw as [[Hpw _] [Hnone | HQ]]; [discriminate|].
    assert (Hflag : end_of_sequence_
                      (snd (Wait fuel (new_SnapshotStreamWriter
                                         iterator env max others))) = true)
      by (apply Heos; rewrite E; reflexivity).
    split; [exact Hflag | split; [exact (files_flag _ _ HF Hflag)|]].
    pose proof (inv_order _ _ HI) as Hord.
    unfold Quiescent in HQ. rewrite HQ, app_nil_r in Hord.
    rewrite Hord, <- Hpw. reflexivity.
Qed.

Lemma Wait_ok_characterised_witness :
  fst (Wait 10 scenario_B) = Some OkStatus /\
  end_of_sequence_ (snd (Wait 10 scenario_B)) = true.
Proof.
  assert (Hs : fst (Wait 10 scenario_B) = Some OkStatus)
    by (vm_compute; reflexivity).
  split; [exact Hs|].
  exact (proj1 (proj2 (Wait_ok_characterised 10 three_elements [] (Some 500) []
                         OkStatus Hs) eq_refl)).
Defined.

(** X14: a Cancel() loses nothing that was pulled.  In every run of a new
    writer in which Wait returns and no call failed, cancelled or not, every
    element pulled from the iterator is in a committed chunk, in order, and
    the chunk that was open when the Cancel() was seen is committed with
    what it held; a Cancel() at any time makes Wait return a status that is
    not ok. *)
Theorem Cancel_keeps_what_was_pulled fuel iterator env max others s :
  let run := Wait fuel (new_SnapshotStreamWriter iterator env max others) in
  fst run = Some s ->
  (first_failure (trace (snd run)) = None ->
   concat (map snd (committed_chunks (trace (snd run))))
   = pulled (trace (snd run)) /\
   uncommitted_chunks (trace (snd run)) = []) /\
  (cancel_seen (trace (snd run)) = true -> ok s = false).
Proof.
  cbv zeta. intros Hs.
  destruct (Wait_new fuel iterator env max others) as [HI Hw].
  destruct (Wait_files_new fuel iterator env max others) as [HF HR].
  rewrite Hs in HR, Hw. destruct HR as [[_ Hrenamed] _].
  unfold waited in Hw. destruct Hw as [[Hn | Hst] Hw]; [discriminate|].
  injection Hst as Hst'.
  split.
  - intros Hff. rewrite Hff in Hw.
    destruct Hw as [[Hpw _] [Hnone | HQ]]; [discriminate|].
    split; [|exact (Hrenamed Hff)].
    pose proof (inv_order _ _ HI) as Hord.
    unfold Quiescent in HQ. rewrite HQ, app_nil_r in Hord.
    rewrite Hord, <- Hpw. reflexivity.
  - intros Hc. rewrite Hst'. exact (files_cancel _ _ HF Hc).
Qed.

Lemma Cancel_keeps_what_was_pulled_witness :
  let run := Wait 10 (new_SnapshotStreamWriter
                        three_elements [] (Some 500) cancel_after_first_record) in
  fst run = Some cancelled /\
  first_failure (trace (snd run)) = None /\
  concat (map snd (committed_chunks (trace (snd run)))) = pulled (trace (snd run)) /\
  pulled (trace (snd run)) = [elem 1 300].
Proof.
  cbv zeta.
  assert (Hs : fst (Wait 10 (new_SnapshotStreamWriter
                               three_elements [] (Some 500)
                               cancel_after_first_record)) = Some cancelled)
    by (vm_compute; reflexivity).
  assert (Hff : first_failure
                  (trace (snd (Wait 10 (new_SnapshotStreamWriter
                                          three_elements [] (Some 500)
                                          cancel_after_first_record)))) = None)
    by (vm_compute; reflexivity).
  split; [exact Hs | split; [exact Hff | split; [|vm_compute; reflexivity]]].
  exact (proj1 (proj1 (Cancel_keeps_what_was_pulled 10 three_elements []
                         (Some 500) cancel_after_first_record cancelled Hs)
                  Hff)).
Defined.

(** ** The run ends *)

Ltac open_progress w :=
  unfold Unchanged, record_guard_closed, chunk_guard_closed in *;
  open_object w.

Ltac progress_done :=
  unfold Unchanged, record_guard_closed, chunk_guard_closed in *; simpl in *;
  rewrite ?andb_false_iff, ?Z.ltb_ge, ?negb_false_iff in *;
  intuition (try congruence; try lia; auto).

Lemma ShouldWriteRecord_progress w :
  wp ShouldWriteRecord
     (fun b w' => Unchanged w w' /\
                  (b = false -> record_guard_closed w') /\
                  (chunk_guard_closed w -> b = false)) w.
Proof.
  open_progress w.
  destruct st; destruct eos; wp_run_status;
    destruct (size <? cap) eqn:E; progress_done.
Qed.

Lemma ShouldWriteChunk_progress w :
  wp ShouldWriteChunk
     (fun b w' => Unchanged w w' /\ (chunk_guard_closed w -> b = false)) w.
Proof.
  open_progress w.
  destruct st; destruct eos; wp_run_status; progress_done.
Qed.

Lemma WriteRecord_progress writer w :
  wp (WriteRecord writer)
     (fun s w' =>
        max_chunk_size_bytes_ w' = max_chunk_size_bytes_ w /\
        (length (iterator_ w') <= length (iterator_ w))%nat /\
        (ok s = true ->
         (end_of_sequence_ w' = true /\
          chunk_size_bytes_ w' = chunk_size_bytes_ w) \/
         (length (iterator_ w') < length (iterator_ w))%nat)) w.
Proof.
  open_progress w. destruct it as [|x it]; wp_run; progress_done.
Qed.

Lemma WriteRecords_progress fuel :
  forall writer w,
    (chunk_guard_closed w /\ 1 <= fuel)%nat \/
    (length (iterator_ w) + 2 <= fuel)%nat ->
    wp (WriteRecords fuel writer)
       (fun o w' =>
          o <> None /\
          max_chunk_size_bytes_ w' = max_chunk_size_bytes_ w /\
          (length (iterator_ w') <= length (iterator_ w))%nat /\
          (o = Some OkStatus ->
           record_guard_closed w' /\
           (chunk_size_bytes_ w' = chunk_size_bytes_ w \/
            (length (iterator_ w') < length (iterator_ w))%nat))) w.
Proof.
  induction fuel as [|fuel IH]; intros writer w Hfuel; [lia|].
  cbn [WriteRecords]. apply wp_bind.
  eapply wp_mono; [apply ShouldWriteRecord_progress|].
  cbv beta. intros b w1 ((Hit & Hmax & Hsize & Hst) & Hclosed & Hopen).
  destruct b.
  - assert (Hlen : (length (iterator_ w) + 2 <= S fuel)%nat).
    { destruct Hfuel as [[Hc _] | H]; [|exact H].
      specialize (Hopen Hc). discriminate. }
    apply wp_bind.
    eapply wp_mono; [apply WriteRecord_progress|].
    cbv beta. intros s w2 (Hmax2 & Hle2 & Hok).
    destruct s as [|code message]; cbn [ok].
    + eapply wp_mono.
      { apply IH. destruct (Hok eq_refl) as [[He _] | Hlt].
        - left. split; [left; exact He | rewrite Hit in *; lia].
        - right. rewrite Hit in *. lia. }
      cbv beta. intros o w3 (Ho & Hmax3 & Hle3 & Hend).
      split; [exact Ho | split; [congruence | split; [rewrite Hit in *; lia|]]].
      intros E. destruct (Hend E) as [Hc3 Hcase]. split; [exact Hc3|].
      rewrite Hit in *.
      destruct (Hok eq_refl) as [[_ Hs2] | Hlt]; [|right; lia].
      destruct Hcase as [Hs3 | Hlt3]; [left; congruence | right; lia].
    + apply wp_ret.
      split; [discriminate | split; [congruence | split;
                                       [rewrite Hit in *; lia | discriminate]]].
  - apply wp_ret.
    split; [discriminate | split; [exact Hmax | split; [rewrite Hit; lia|]]].
    intros _. split; [auto | left; exact Hsize].
Qed.

Lemma WriteChunk_progress fuel w :
  chunk_size_bytes_ w = 0 -> 0 < max_chunk_size_bytes_ w ->
  (length (iterator_ w) + 2 <= fuel)%nat ->
  wp (WriteChunk fuel)
     (fun o w' =>
        o <> None /\
        max_chunk_size_bytes_ w' = max_chunk_size_bytes_ w /\
        (length (iterator_ w') <= length (iterator_ w))%nat /\
        (o = Some OkStatus ->
         chunk_size_bytes_ w' = 0 /\
         (chunk_guard_closed w' \/
          (length (iterator_ w') < length (iterator_ w))%nat))) w.
Proof.
  intros Hsize Hmax Hfuel. unfold WriteChunk. open_progress w.
  subst_lhs Hsize.
  wp_run; try solve [progress_done].
  all: (eapply wp_mono; [apply WriteRecords_progress; right; exact Hfuel|]).
  all: cbv beta; fields; intros o w1 (Ho & Hmax1 & Hle & Hend);
    destruct o as [[|code message]|]; [|clear Hend|congruence];
    [destruct (Hend eq_refl) as [Hc Hcase]; clear Hend|];
    open_progress w1; fields; wp_run_status; progress_done.
Qed.

Lemma WriteChunks_progress fuel :
  forall w,
    chunk_size_bytes_ w = 0 -> 0 < max_chunk_size_bytes_ w ->
    (chunk_guard_closed w /\ 1 <= fuel)%nat \/
    (length (iterator_ w) + 3 <= fuel)%nat ->
    wp (WriteChunks fuel) (fun o _ => o <> None) w.
Proof.
  induction fuel as [|fuel IH]; intros w Hsize Hmax Hfuel; [lia|].
  cbn [WriteChunks]. apply wp_bind.
  eapply wp_mono; [apply ShouldWriteChunk_progress|].
  cbv beta. intros b w1 ((Hit & Hmax1 & Hsize1 & Hst) & Hopen).
  destruct b; [|apply wp_ret; discriminate].
  assert (Hlen : (length (iterator_ w) + 3 <= S fuel)%nat).
  { destruct Hfuel as [[Hc _] | H]; [|exact H].
    specialize (Hopen Hc). discriminate. }
  apply wp_bind.
  eapply wp_mono.
  { apply WriteChunk_progress; [congruence | rewrite Hmax1; exact Hmax|].
    rewrite Hit. lia. }
  cbv beta. intros o w2 (Ho & Hmax2 & Hle & Hend).
  destruct o as [[|code message]|];
    [|apply wp_ret; discriminate | congruence].
  destruct (Hend eq_refl) as [Hsize2 Hcase].
  apply IH; [exact Hsize2 | rewrite Hmax2, Hmax1; exact Hmax|].
  rewrite Hit in *.
  destruct Hcase as [Hc | Hlt]; [left; split; [exact Hc | lia] | right; lia].
Qed.

Lemma Wait_progress fuel w :
  chunk_size_bytes_ w = 0 -> 0 < max_chunk_size_bytes_ w ->
  (length (iterator_ w) + 3 <= fuel)%nat ->
  wp (Wait fuel) (fun o _ => o <> None) w.
Proof.
  intros Hsize Hmax Hfuel.
  unfold Wait, snapshot_fn, WriteSnapshotFn. open_progress w.
  destruct th; wp_run_status; try discriminate.
  all: (eapply wp_mono;
        [ apply WriteChunks_progress; [exact Hsize | exact Hmax|];
          right; exact Hfuel |]).
  all: cbv beta; fields; intros o w1 Ho;
    destruct o as [[|code message]|]; [| |congruence];
    open_object w1; fields; wp_run_status; try discriminate.
  all: destruct st0; wp_run_status; discriminate.
Qed.

(** X15: with a positive cap the run ends.  For every iterator (its script
    is finite, and reports the end of the sequence once it is used up),
    whatever file operation fails and whoever cancels, the loops of the
    thread end and Wait returns a status, within as many rounds as there are
    outcomes in the script and three more. *)
Theorem Wait_returns fuel iterator env max others :
  0 < cap_of max ->
  (length iterator + 3 <= fuel)%nat ->
  exists s,
    fst (Wait fuel (new_SnapshotStreamWriter iterator env max others)) = Some s.
Proof.
  intros Hmax Hfuel.
  pose proof (Wait_progress fuel
                (new_SnapshotStreamWriter iterator env max others)
                eq_refl Hmax Hfuel) as H.
  unfold wp in H.
  destruct (fst (Wait fuel (new_SnapshotStreamWriter iterator env max others)))
    as [s|]; [exists s; reflexivity | congruence].
Qed.

Lemma Wait_returns_witness :
  0 < cap_of None /\ (length three_elements + 3 <= 7)%nat /\
  exists s,
    fst (Wait 7 (new_SnapshotStreamWriter
                   three_elements append_fails None cancel_after_first_record))
    = Some s.
Proof.
  assert (H1 : 0 < cap_of None) by (vm_compute; reflexivity).
  assert (H2 : (length three_elements + 3 <= 7)%nat) by (simpl; lia).
  split; [exact H1 | split; [exact H2|]].
  exact (Wait_returns 7 three_elements append_fails None
           cancel_after_first_record H1 H2).
Defined.

(** ** The chunks of a run without failure *)

Section Chunking.

Variable cap : Z.
Variable rest : list GetNextResult.
Hypothesis cap_positive : 0 < cap.

(** The cap plus the size of the element fits an int64_t: the addition of
    WriteRecord, made below the cap, does not wrap around. *)
Let fits (e : Element) : Prop := cap + EstimatedSizeBytes e < 2 ^ 63.

Lemma greedy_chunks_rotate size current es :
  cap <= size ->
  greedy_chunks cap size current es = current :: greedy_chunks cap 0 [] es.
Proof.
  intros Hsize.
  assert (H0 : (0 <? cap) = true) by (apply Z.ltb_lt; exact cap_positive).
  assert (Hs : (size <? cap) = false) by (apply Z.ltb_ge; exact Hsize).
  destruct es as [|e es]; simpl; rewrite Hs, H0; reflexivity.
Qed.

Lemma WriteRecords_chunk fuel :
  forall es size current writer w,
    Draining cap rest es w ->
    chunk_elements writer (trace w) = current ->
    chunk_size_bytes_ w = size ->
    0 <= size ->
    Forall fits es ->
    (length es + 2 <= fuel)%nat ->
    wp (WriteRecords fuel writer)
       (fun o w' =>
          o = Some OkStatus /\ chunk_index_ w' = chunk_index_ w /\
          committed_chunks (trace w') = committed_chunks (trace w) /\
          ((Drained cap rest w' /\
            greedy_chunks cap size current es
            = [chunk_elements writer (trace w')]) \/
           (exists later,
               Draining cap rest later w' /\
               greedy_chunks cap size current es
               = chunk_elements writer (trace w') :: greedy_chunks cap 0 [] later /\
               Forall fits later /\
               (length later <= length es)%nat /\
               (size < cap -> (length later < length es)%nat)))) w.
Proof.
  induction fuel as [|fuel IH];
    intros es size0 current writer w HD Hcur Hsize Hpos Hfit Hfuel; [lia|].
  cbn [WriteRecords]. open_clean w. subst_lhs Hsize.
  wp_run. destruct (size0 <? cap) eqn:Hlt.
  - destruct es as [|e es]; simpl map; simpl app; wp_run.
    + destruct fuel as [|fuel]; [simpl in Hfuel; lia|].
      eapply wp_mono; [apply WriteRecords_drained; clean|].
      cbv beta. fields. intros o w1 (Ho & HD1 & Hidx & Htr).
      split; [exact Ho | split; [exact Hidx | split]].
      * rewrite Htr. reflexivity.
      * left. split; [exact HD1|]. rewrite Htr. simpl. rewrite Hlt, Hcur.
        reflexivity.
    + pose proof (EstimatedSizeBytes_range e) as He.
      pose proof (Forall_inv Hfit) as Hfe. unfold fits in Hfe.
      apply Z.ltb_lt in Hlt.
      assert (Hin : wrap_int64 (size0 + EstimatedSizeBytes e)
                    = size0 + EstimatedSizeBytes e)
        by (apply wrap_int64_small;
            change (2 ^ 63) with 9223372036854775808 in *; lia).
      rewrite Hin.
      eapply wp_mono.
      { apply (IH es (size0 + EstimatedSizeBytes e) (current ++ [e]));
          [clean | | reflexivity | lia | exact (Forall_inv_tail Hfit)
          | simpl in Hfuel; lia].
        simpl. rewrite Path_eqb_refl, Hcur. reflexivity. }
      cbv beta. fields.
      intros o w1 (Ho & Hidx & Hcom & Hcase).
      split; [exact Ho | split; [exact Hidx | split; [exact Hcom|]]].
      simpl. apply Z.ltb_lt in Hlt. rewrite Hlt.
      destruct Hcase as [Hc | (later & HD1 & Hg & Hf1 & Hle & _)];
        [left; exact Hc|].
      right. exists later.
      split; [exact HD1 | split; [exact Hg | split; [exact Hf1 | split; simpl; lia]]].
  - wp_run. split; [reflexivity | split; [reflexivity | split; [reflexivity|]]].
    right. exists es. apply Z.ltb_ge in Hlt.
    split; [clean | split; [|split; [exact Hfit | split; [lia | lia]]]].
    simpl. rewrite Hcur. apply greedy_chunks_rotate. exact Hlt.
Qed.

Lemma WriteChunk_chunk fuel es w :
  Draining cap rest es w ->
  chunk_size_bytes_ w = 0 ->
  chunk_elements (current_chunk w) (trace w) = [] ->
  Forall fits es ->
  (length es + 2 <= fuel)%nat ->
  wp (WriteChunk fuel)
     (fun o w' =>
        o = Some OkStatus /\ chunk_size_bytes_ w' = 0 /\
        exists content,
          map snd (committed_chunks (trace w'))
          = map snd (committed_chunks (trace w)) ++ [content] /\
          ((Drained cap rest w' /\ greedy_chunks cap 0 [] es = [content]) \/
           (exists later,
               Draining cap rest later w' /\
               greedy_chunks cap 0 [] es = content :: greedy_chunks cap 0 [] later /\
               Forall fits later /\
               (length later < length es)%nat))) w.
Proof.
  intros HD Hsize Hcur Hfit Hfuel. unfold WriteChunk. open_clean w.
  subst_lhs Hsize.
  wp_run.
  eapply wp_mono.
  { apply (WriteRecords_chunk fuel es 0 []);
      [clean | exact Hcur | reflexivity | lia | exact Hfit | exact Hfuel]. }
  cbv beta. fields.
  intros o w1 (Ho & Hidx & Hcom & Hcase). subst o.
  destruct Hcase as [(HD1 & Hg) | (later & HD1 & Hg & Hf1 & _ & Hlt)];
    open_clean w1; same_vars; fields; wp_run;
    (split; [reflexivity | split; [reflexivity|]]);
    exists (chunk_elements {| Dirname := UncommittedChunksDirectory;
                              Basename := idx |} tr0);
    (split; [simpl; rewrite map_app, Hcom; reflexivity|]).
  - left. split; [clean | exact Hg].
  - right. exists later.
    split; [clean | split; [exact Hg | split; [exact Hf1|]]].
    apply Hlt. exact cap_positive.
Qed.

Lemma WriteChunks_chunk fuel :
  forall es w,
    Inv cap w -> Alive w -> Quiescent w ->
    Draining cap rest es w ->
    chunk_size_bytes_ w = 0 ->
    Forall fits es ->
    (length es + 3 <= fuel)%nat ->
    wp (WriteChunks fuel)
       (fun o w' =>
          o = Some OkStatus /\ Drained cap rest w' /\
          map snd (committed_chunks (trace w'))
          = map snd (committed_chunks (trace w)) ++ greedy_chunks cap 0 [] es) w.
Proof.
  induction fuel as [|fuel IH]; intros es w HI HA HQ HD Hsize Hfit Hfuel;
    [lia|].
  cbn [WriteChunks]. apply wp_bind.
  eapply wp_mono with
    (Q1 := fun b w1 => b = true /\ (Inv cap w1 /\ Alive w1 /\ Quiescent w1) /\
                       Draining cap rest es w1 /\ chunk_size_bytes_ w1 = 0 /\
                       committed_chunks (trace w1) = committed_chunks (trace w)).
  { apply wp_conj; [|apply wp_conj].
    - open_clean w. wp_run. reflexivity.
    - apply (ShouldWriteChunk_inv cap); assumption.
    - open_clean w. subst_lhs Hsize. wp_run. clean. }
  cbv beta. intros b w1 (Hb & (HI1 & HA1 & HQ1) & HD1 & Hsize1 & Hcom1). subst b.
  apply wp_bind.
  eapply wp_mono.
  { apply wp_conj;
      [ apply (WriteChunk_inv cap fuel); assumption
      | apply (WriteChunk_chunk fuel es);
        [assumption | assumption | exact HQ1 | exact Hfit | lia] ]. }
  cbv beta.
  intros o w2 ((HI2 & Hend & HQ2) & Ho & Hsize2 & content & Hcom2 & Hcase).
  subst o. rewrite Hcom1 in Hcom2.
  destruct Hcase as [(HD2 & Hg) | (later & HD2 & Hg & Hf2 & Hlt)].
  - destruct fuel as [|fuel]; [lia|].
    eapply wp_mono; [apply (WriteChunks_drained cap rest); exact HD2|].
    cbv beta. intros o w3 (Ho & HD3 & _ & Htr).
    split; [exact Ho | split; [exact HD3|]].
    rewrite Htr. simpl. rewrite Hcom2, Hg. reflexivity.
  - eapply wp_mono.
    { apply (IH later);
        [assumption | exact Hend | auto | assumption | assumption | exact Hf2 | lia]. }
    cbv beta. intros o w3 (Ho & HD3 & Hcom3).
    split; [exact Ho | split; [exact HD3|]].
    rewrite Hcom3, Hcom2, Hg, <- app_assoc. reflexivity.
Qed.

Lemma Wait_chunk fuel es w :
  Inv cap w -> Alive w -> Quiescent w ->
  Draining cap rest es w ->
  chunk_size_bytes_ w = 0 ->
  snapshot_thread_ w = true ->
  Forall fits es ->
  (length es + 3 <= fuel)%nat ->
  wp (Wait fuel)
     (fun o w' =>
        o = Some OkStatus /\
        map snd (committed_chunks (trace w'))
        = map snd (committed_chunks (trace w)) ++ greedy_chunks cap 0 [] es) w.
Proof.
  intros HI HA HQ HD Hsize Hth Hfit Hfuel.
  unfold Wait, snapshot_fn, WriteSnapshotFn.
  unfold Quiescent in *. open_inv. open_clean w.
  subst_lhs Hsize. subst_lhs Hth.
  wp_run.
  eapply wp_mono.
  { apply (WriteChunks_chunk fuel es);
      [solve_inv | solve_inv | solve_inv | clean | exact Hsize | exact Hfit | lia]. }
  cbv beta. fields. intros o w1 (Ho & HD1 & Hcom). subst o.
  open_clean w1. fields. wp_run.
  split; [reflexivity | exact Hcom].
Qed.

End Chunking.

Lemma greedy_chunks_concat cap es :
  forall size current,
    concat (greedy_chunks cap size current es) = current ++ es.
Proof.
  induction es as [|e es IH]; intros size current; simpl.
  - destruct (size <? cap); simpl; rewrite ?app_nil_r; reflexivity.
  - destruct (size <? cap); simpl; rewrite IH.
    + rewrite <- app_assoc. reflexivity.
    + reflexivity.
Qed.

(** X16: the chunks of a run without failure.  The iterator produces
    [elements] and then reports the end of the sequence, no file operation
    fails, nobody cancels, the cap is positive, and the cap plus the size of
    each element fits an int64_t, so that the counter of WriteRecord does not
    wrap around.  Then Wait returns ok, and the committed chunks, in the
    order of their indices 0, 1, ..., hold exactly what filling each chunk
    until its size is not below the cap any more gives: an element goes to
    the open chunk as long as the size of that chunk, before the element, is
    below the cap; the chunk is committed when it is at the cap or the
    sequence ends; a sequence that ends just as a chunk reaches the cap is
    followed by one empty chunk (with a cap of 1000 and three elements of 400
    bytes: chunk 0 with the three elements, then chunk 1, empty). *)
Theorem committed_chunks_greedy elements rest max fuel :
  0 < max ->
  (forall e, In e elements -> max + EstimatedSizeBytes e < 2 ^ 63) ->
  (length elements + 3 <= fuel)%nat ->
  let run := Wait fuel (new_SnapshotStreamWriter
                          (map Produced elements ++ EndOfSequence :: rest)
                          [] (Some max) []) in
  fst run = Some OkStatus /\
  map snd (committed_chunks (trace (snd run)))
  = greedy_chunks max 0 [] elements /\
  map fst (committed_chunks (trace (snd run)))
  = indices (Z.of_nat (length (greedy_chunks max 0 [] elements))).
Proof.
  intros Hmax Hfit Hfuel. cbv zeta.
  set (w0 := new_SnapshotStreamWriter
               (map Produced elements ++ EndOfSequence :: rest) [] (Some max) []).
  destruct (new_SnapshotStreamWriter_inv
              (map Produced elements ++ EndOfSequence :: rest) [] (Some max) [])
    as (HI & HA & HQ).
  fold w0 in HI, HA, HQ.
  assert (HD : Draining max rest elements w0) by (unfold w0; clean).
  apply Forall_forall in Hfit.
  destruct (Wait_chunk max rest Hmax fuel elements w0 HI HA HQ HD
              eq_refl eq_refl Hfit Hfuel) as (Ho & Hcom).
  simpl in Hcom.
  split; [exact Ho | split; [exact Hcom|]].
  destruct (Wait_new fuel (map Produced elements ++ EndOfSequence :: rest)
              [] (Some max) []) as [HI1 _].
  fold w0 in HI1.
  pose proof (inv_committed _ _ HI1) as Hidx.
  assert (Hlen : length (map fst (committed_chunks (trace (snd (Wait fuel w0)))))
                 = length (greedy_chunks max 0 [] elements))
    by (rewrite <- Hcom, !length_map; reflexivity).
  rewrite Hidx in Hlen |- *. rewrite indices_length in Hlen.
  pose proof (inv_index _ _ HI1) as Hpos.
  f_equal. lia.
Qed.

Lemma committed_chunks_greedy_witness :
  0 < 1000 /\
  (forall e, In e [elem 1 400; elem 2 400; elem 3 400] ->
             1000 + EstimatedSizeBytes e < 2 ^ 63) /\
  (length [elem 1 400; elem 2 400; elem 3 400] + 3 <= 6)%nat /\
  map snd (committed_chunks
             (trace (snd (Wait 6 (new_SnapshotStreamWriter
                                    (map Produced [elem 1 400; elem 2 400; elem 3 400]
                                     ++ EndOfSequence :: [])
                                    [] (Some 1000) [])))))
  = [[elem 1 400; elem 2 400; elem 3 400]; []].
Proof.
  assert (H1 : 0 < 1000) by lia.
  assert (Hfit : forall e, In e [elem 1 400; elem 2 400; elem 3 400] ->
                           1000 + EstimatedSizeBytes e < 2 ^ 63)
    by (intros e [E | [E | [E | []]]]; subst e; vm_compute; reflexivity).
  assert (H2 : (length [elem 1 400; elem 2 400; elem 3 400] + 3 <= 6)%nat)
    by (simpl; lia).
  split; [exact H1 | split; [exact Hfit | split; [exact H2|]]].
  exact (proj1 (proj2 (committed_chunks_greedy
                         [elem 1 400; elem 2 400; elem 3 400] [] 1000 6
                         H1 Hfit H2))).
Defined.

(** ** The chunk that is open at the end of the sequence *)

Lemma pulls_in_open_chunk_at newer r older :
  pulls_in_open_chunk (newer ++ EvGetNext r :: older) ->
  uncommitted_chunks older = [chunk (Z.of_nat (length (initialized older)) - 1)] /\
  unclosed older = [chunk (Z.of_nat (length (initialized older)) - 1)].
Proof.
  induction newer as [|x newer IH]; simpl.
  - intros [H _]. exact H.
  - destruct x; auto. intros [_ H]. auto.
Qed.

Lemma pull_seen_at newer r older :
  pull_seen (newer ++ EvGetNext r :: older) = true.
Proof.
  induction newer as [|x newer IH]; simpl; [reflexivity|].
  destruct x; auto.
Qed.

Lemma unclosed_kept_or_closed p newer older :
  In p (unclosed older) ->
  In p (unclosed (newer ++ older)) \/
  exists site r, In (EvClose site p r) newer.
Proof.
  intros Hp. induction newer as [|x newer IH]; simpl; [left; exact Hp|].
  destruct IH as [IH | (site & r & IH)];
    [|right; exists site, r; right; exact IH].
  destruct x; try (left; exact IH).
  - destruct r; [|left; exact IH].
    left. apply in_or_app. left. exact IH.
  - destruct (Path_eqb p writer) eqn:E.
    + apply Path_eqb_eq in E. subst writer.
      right. exists site, r. left. reflexivity.
    + left. apply filter_In. split; [exact IH | rewrite E; reflexivity].
Qed.

Lemma uncommitted_kept_or_renamed p newer older :
  In p (uncommitted_chunks older) ->
  In p (uncommitted_chunks (newer ++ older)) \/
  exists dst, In (EvRenameFile p dst OkStatus) newer.
Proof.
  intros Hp. induction newer as [|x newer IH]; simpl; [left; exact Hp|].
  destruct IH as [IH | (dst & IH)]; [|right; exists dst; right; exact IH].
  destruct x; try (left; exact IH).
  - destruct r; [|left; exact IH].
    left. apply in_or_app. left. exact IH.
  - destruct r; [|left; exact IH].
    destruct (Path_eqb p src) eqn:E.
    + apply Path_eqb_eq in E. subst src.
      right. exists dst. left. reflexivity.
    + left. apply filter_In. split; [exact IH | rewrite E; reflexivity].
Qed.

(** C6, as stated, fails: a chunk that is open when the end of the sequence
    is reported, with no error before, is not committed when the Close that
    WriteRecord calls at the report fails: the file stays in the uncommitted
    directory and Wait returns the error of Close.  And when it is
    committed, Wait need not return ok: a Cancel() that gets the mutex after
    the report leaves the chunk committed and makes Wait return the
    cancellation error. *)
Lemma C6_tail_lost_or_Wait_not_ok :
  let failed := Wait 10 (new_SnapshotStreamWriter
                           [EndOfSequence] close_at_end_fails (Some 500) []) in
  let raced := Wait 10 (new_SnapshotStreamWriter
                          [EndOfSequence] [] (Some 500) cancel_after_first_pull) in
  (nth_error (rev (trace (snd failed))) 9 = Some (EvGetNext EndOfSequence) /\
   first_failure (skipn 8 (trace (snd failed))) = None /\
   uncommitted_chunks (skipn 8 (trace (snd failed))) = [chunk 0] /\
   nth_error (rev (trace (snd failed))) 11
   = Some (EvClose InWriteRecord (chunk 0) (Error DATA_LOSS "close")) /\
   committed_chunks (trace (snd failed)) = [] /\
   uncommitted_chunks (trace (snd failed)) = [chunk 0] /\
   fst failed = Some (Error DATA_LOSS "close")) /\
  (nth_error (rev (trace (snd raced))) 9 = Some (EvGetNext EndOfSequence) /\
   nth_error (rev (trace (snd raced))) 12 = Some EvCancel /\
   first_failure (trace (snd raced)) = None /\
   committed_chunks (trace (snd raced)) = [(0, [])] /\
   fst raced = Some cancelled).
Proof. vm_compute. repeat split. Qed.

(** C6, amended: in every run of a new writer, with fuel enough for the
    loops (3 more than the script of the iterator has outcomes), in which
    the iterator reports the end of the sequence and no call fails, before
    or after the report: one chunk file is open at the report, the last one
    opened; after the report it is closed and renamed into the committed
    directory under its own name, and it is among the committed chunks,
    whatever it holds; every element pulled is in a committed chunk and no
    chunk file is left uncommitted; the run ends, and Wait returns ok if no
    Cancel() was done, a status that is not ok otherwise. *)
Theorem C6_end_of_sequence_commits_tail
    fuel iterator env max others newer older :
  let run := Wait fuel (new_SnapshotStreamWriter iterator env max others) in
  let tail := chunk (Z.of_nat (length (initialized older)) - 1) in
  (length iterator + 3 <= fuel)%nat ->
  trace (snd run) = newer ++ EvGetNext EndOfSequence :: older ->
  first_failure (trace (snd run)) = None ->
  (uncommitted_chunks older = [tail] /\ unclosed older = [tail]) /\
  (exists site r, In (EvClose site tail r) newer) /\
  In (EvRenameFile tail (committed_path (Basename tail)) OkStatus) newer /\
  (exists content,
      In (Basename tail, content) (committed_chunks (trace (snd run)))) /\
  concat (map snd (committed_chunks (trace (snd run))))
  = pulled (trace (snd run)) /\
  uncommitted_chunks (trace (snd run)) = [] /\
  exists s,
    fst run = Some s /\
    (cancel_seen (trace (snd run)) = false -> s = OkStatus) /\
    (cancel_seen (trace (snd run)) = true -> ok s = false).
Proof.
  cbv zeta. intros Hfuel Htr Hff.
  destruct (Wait_new fuel iterator env max others) as [HI Hw].
  destruct (Wait_files_new fuel iterator env max others) as [HF HR].
  set (run := Wait fuel (new_SnapshotStreamWriter iterator env max others)) in *.
  set (tail := chunk (Z.of_nat (length (initialized older)) - 1)).
  assert (Hcap : 0 < cap_of max).
  { apply (files_positive _ _ HF). rewrite Htr. apply pull_seen_at. }
  pose proof (Wait_progress fuel
                (new_SnapshotStreamWriter iterator env max others)
                eq_refl Hcap Hfuel) as Hret.
  unfold wp in Hret. fold run in Hret.
  destruct (fst run) as [s|] eqn:Hs; [clear Hret | congruence].
  destruct HR as [[Hclosed Hrenamed] _]. specialize (Hrenamed Hff).
  pose proof (files_pulls _ _ HF) as Hp. rewrite Htr in Hp.
  apply pulls_in_open_chunk_at in Hp. fold tail in Hp.
  destruct Hp as [Huncommitted Hunclosed].
  assert (Hrename : In (EvRenameFile tail (committed_path (Basename tail)) OkStatus)
                       newer).
  { destruct (uncommitted_kept_or_renamed tail newer
                (EvGetNext EndOfSequence :: older)) as [H | (dst & H)].
    - simpl. rewrite Huncommitted. left. reflexivity.
    - rewrite <- Htr, Hrenamed in H. contradiction.
    - pose proof H as Hin. apply in_split in Hin.
      destruct Hin as (a & b & Hnewer).
      pose proof (files_names _ _ HF) as Hn.
      rewrite Htr, Hnewer, <- app_assoc in Hn. simpl in Hn.
      destruct (renames_named_at a tail dst OkStatus _ Hn) as [_ Hdst].
      rewrite <- Hdst. exact H. }
  split; [split; [exact Huncommitted | exact Hunclosed]|].
  split.
  { destruct (unclosed_kept_or_closed tail newer
                (EvGetNext EndOfSequence :: older)) as [H | H]; [| |exact H].
    - simpl. rewrite Hunclosed. left. reflexivity.
    - rewrite <- Htr, Hclosed in H. contradiction. }
  split; [exact Hrename|].
  split.
  { apply in_split in Hrename. destruct Hrename as (a & b & Hnewer).
    eexists. rewrite Htr, Hnewer, <- app_assoc. simpl.
    apply committed_chunks_at. }
  unfold waited in Hw. rewrite Hff in Hw.
  destruct Hw as [[Hn | Hst] [[Hpw _] [Hnone | HQ]]]; try discriminate.
  injection Hst as Hst'.
  split.
  { pose proof (inv_order _ _ HI) as Hord.
    unfold Quiescent in HQ. rewrite HQ, app_nil_r in Hord.
    rewrite Hord, <- Hpw. reflexivity. }
  split; [exact Hrenamed|].
  exists s. split; [reflexivity | split].
  - intros Hc. destruct s as [|code message]; [reflexivity|].
    pose proof (files_status _ _ HF) as Hno.
    rewrite <- Hst' in Hno. rewrite (Hno eq_refl Hff) in Hc. discriminate Hc.
  - intros Hc. rewrite Hst'. exact (files_cancel _ _ HF Hc).
Qed.

Lemma C6_end_of_sequence_commits_tail_witness :
  let run := Wait 4 (new_SnapshotStreamWriter [EndOfSequence] [] (Some 500) []) in
  (length [EndOfSequence] + 3 <= 4)%nat /\
  trace (snd run)
  = firstn 14 (trace (snd run))
    ++ EvGetNext EndOfSequence :: skipn 15 (trace (snd run)) /\
  first_failure (trace (snd run)) = None /\
  In (EvRenameFile (chunk 0) (committed_path 0) OkStatus)
     (firstn 14 (trace (snd run))) /\
  committed_chunks (trace (snd run)) = [(0, [])] /\
  fst run = Some OkStatus.
Proof.
  cbv zeta.
  assert (H1 : (length [EndOfSequence] + 3 <= 4)%nat) by (simpl; lia).
  assert (H2 : trace (snd (Wait 4 (new_SnapshotStreamWriter
                                     [EndOfSequence] [] (Some 500) [])))
               = firstn 14 (trace (snd (Wait 4 (new_SnapshotStreamWriter
                                                  [EndOfSequence] [] (Some 500) []))))
                 ++ EvGetNext EndOfSequence
                 :: skipn 15 (trace (snd (Wait 4 (new_SnapshotStreamWriter
                                                    [EndOfSequence] [] (Some 500) [])))))
    by (vm_compute; reflexivity).
  assert (H3 : first_failure
                 (trace (snd (Wait 4 (new_SnapshotStreamWriter
                                        [EndOfSequence] [] (Some 500) []))))
               = None) by (vm_compute; reflexivity).
  split; [exact H1 | split; [exact H2 | split; [exact H3 | split]]].
  - exact (proj1 (proj2 (proj2
             (C6_end_of_sequence_commits_tail 4 [EndOfSequence] [] (Some 500) []
                (firstn 14 (trace (snd (Wait 4 (new_SnapshotStreamWriter
                                                  [EndOfSequence] [] (Some 500) [])))))
                (skipn 15 (trace (snd (Wait 4 (new_SnapshotStreamWriter
                                                 [EndOfSequence] [] (Some 500) [])))))
                H1 H2 H3)))).
  - split; vm_compute; reflexivity.
Defined.
